(** * mystl::avl — a shallow embedding of [avl.h]

    The C++ class is a template [avl<Key, Value>] over a pointer-linked
    graph of [node] objects.  The test-suite instantiates it at
    [avl<int, string>], and so does this development.

    Modelling choices, in the order the definitions appear:

    - every [node] object carries the address it was allocated at, so that
      node identity (what a [node*] and an iterator compare) survives the
      structural mutations performed by rotations and removals;
    - [new] is a bump allocator: the allocation state is the next free
      address, and every live node lies strictly below it;
    - a [node*] that is navigated (its [parent], [left], [right] links are
      followed) is a focus together with the chain of its ancestors,
      innermost first; following [parent] pops a frame, following a child
      link pushes one;
    - dereferencing [nullptr] is undefined behaviour and is modelled by
      [None]; the [std::out_of_range] exception is a separate outcome;
    - [size_t] arithmetic wraps modulo [2^64]. *)

From Stdlib Require Import ZArith NArith String List Bool Lia.
From Stdlib Require Import Sorting.Sorted Sorting.Permutation.
Import ListNotations.

Local Open Scope N_scope.

(** ** Data model *)

Definition Key : Type := Z.
Definition Value : Type := string.
Definition value_type : Type := (Key * Value)%type.
Definition addr : Type := N.

(** [value_type()] for [pair<const int, string>]. *)
Definition default_value : value_type := (0%Z, EmptyString).

(** [size_t] on the 64-bit targets the code base is built for. *)
Definition size_max : N := 2 ^ 64.
Definition wrap (n : N) : N := n mod size_max.

(** [struct node].  [is_external()] is [left == nullptr && right == nullptr];
    every constructor and modifier of the class sets both child links or
    neither, hence the two shapes.  The [parent] link is the enclosing
    constructor. *)
Inductive node : Type :=
| External (self : addr) (value : value_type) (height : N)
| Internal (self : addr) (left : node) (value : value_type) (height : N)
           (right : node).

Definition addr_of (n : node) : addr :=
  match n with External a _ _ => a | Internal a _ _ _ _ => a end.
Definition value_of (n : node) : value_type :=
  match n with External _ v _ => v | Internal _ _ v _ _ => v end.
Definition height_of (n : node) : N :=
  match n with External _ _ h => h | Internal _ _ _ h _ => h end.
Definition is_external (n : node) : bool :=
  match n with External _ _ _ => true | Internal _ _ _ _ _ => false end.
Definition is_internal (n : node) : bool := negb (is_external n).

(** [class avl]: the super-root sentinel and the element counter. *)
Record avl : Type := Avl { root : node; sz : N }.

(** ** Node pointers *)

Inductive dir : Type := L | R.

(** One ancestor of the focus: which of its child links leads to the focus,
    its own fields, and its other child. *)
Record frame : Type := Frame {
  hole : dir;
  f_self : addr;
  f_value : value_type;
  f_height : N;
  f_other : node
}.

Definition fill (f : frame) (n : node) : node :=
  match hole f with
  | L => Internal (f_self f) n (f_value f) (f_height f) (f_other f)
  | R => Internal (f_self f) (f_other f) (f_value f) (f_height f) n
  end.

(** A navigable [node*]: ancestors (innermost first) and the node itself. *)
Definition ptr : Type := (list frame * node)%type.

Fixpoint plug (ctx : list frame) (n : node) : node :=
  match ctx with
  | [] => n
  | f :: ctx' => plug ctx' (fill f n)
  end.

(** [n->parent], [None] when it is [nullptr]. *)
Definition parent_of (p : ptr) : option ptr :=
  match p with
  | (f :: ctx, n) => Some (ctx, fill f n)
  | ([], _) => None
  end.

(** An iterator stores a bare [node*]; it is turned into a navigable pointer
    by finding the node with that address in the tree it belongs to. *)
Definition iterator : Type := addr.

Fixpoint locate_in (a : addr) (ctx : list frame) (n : node) : option ptr :=
  if addr_of n =? a then Some (ctx, n)
  else match n with
       | External _ _ _ => None
       | Internal s l v h r =>
           match locate_in a (Frame L s v h r :: ctx) l with
           | Some p => Some p
           | None => locate_in a (Frame R s v h l :: ctx) r
           end
       end.

Definition locate (t : avl) (it : iterator) : option ptr :=
  locate_in it [] (root t).

(** ** [node] members *)

(** [new node(v)]: the constructor [node(const value_type&)]. *)
Definition new_node (v : value_type) (brk : addr) : node * addr :=
  (External brk v 0, brk + 1).

(** [node::set_height].  On an external node [left] is [nullptr]. *)
Definition set_height (n : node) : option node :=
  match n with
  | External _ _ _ => None
  | Internal a l v _ r =>
      Some (Internal a l v (wrap (1 + N.max (height_of l) (height_of r))) r)
  end.

(** [node::expand]: two fresh children, then [set_height()]. *)
Definition expand (n : node) (brk : addr) : node * addr :=
  let (l, brk1) := new_node default_value brk in
  let (r, brk2) := new_node default_value brk1 in
  (Internal (addr_of n) l (value_of n)
            (wrap (1 + N.max (height_of l) (height_of r))) r, brk2).

(** [node::replace]. *)
Definition replace (n : node) (v : value_type) : node :=
  match n with
  | External a _ h => External a v h
  | Internal a l _ h r => Internal a l v h r
  end.

(** The [while(n->is_internal()) n = n->left;] loop of [node::leftmost]. *)
Fixpoint leftmost_loop (ctx : list frame) (n : node) : ptr :=
  match n with
  | External _ _ _ => (ctx, n)
  | Internal a l v h r => leftmost_loop (Frame L a v h r :: ctx) l
  end.

(** [node::leftmost]: [None] stands for a [nullptr] result. *)
Definition leftmost (p : ptr) : option ptr :=
  parent_of (leftmost_loop (fst p) (snd p)).

(** The climbing loop of [node::inorder_next]:
    [while(n == w->right) { n = w; w = w->parent; } return w;] *)
Fixpoint climb_right (ctx : list frame) (n : node) : option ptr :=
  match ctx with
  | [] => None
  | f :: ctx' =>
      match hole f with
      | R => climb_right ctx' (fill f n)
      | L => Some (ctx', fill f n)
      end
  end.

(** [node::inorder_next]. *)
Definition inorder_next (p : ptr) : option ptr :=
  match p with
  | (_, External _ _ _) => None
  | (ctx, Internal a l v h r) =>
      if is_internal r then leftmost (Frame R a v h l :: ctx, r)
      else climb_right ctx (snd p)
  end.

(** [node::remove_above_external], called on [w]: [w]'s parent is unlinked,
    [w]'s sibling takes its place under the grandparent.  Returns the
    sibling and the tree as rebuilt up to the super-root. *)
Definition remove_above_external (w : ptr) : option (addr * node) :=
  match w with
  | (par :: gpar :: ctx, _) =>
      let sib := f_other par in
      Some (addr_of sib, plug (gpar :: ctx) sib)
  | _ => None
  end.

(** [node(const node&)]: the deep copy.  The [height] member is absent from
    the initialiser list and is not assigned in the body, so the copy holds
    whatever the storage contained; [junk] gives that content per address,
    read as a [size_t].
    The allocation for the node itself precedes those of its children. *)
Fixpoint copy_node (junk : addr -> N) (n : node) (brk : addr) : node * addr :=
  match n with
  | External _ v _ => (External brk v (wrap (junk brk)), brk + 1)
  | Internal _ l v _ r =>
      let (l', brk1) := copy_node junk l (brk + 1) in
      let (r', brk2) := copy_node junk r brk1 in
      (Internal brk l' v (wrap (junk brk)) r', brk2)
  end.

(** ** Private helpers of [avl] *)

(** The loop of [avl::finder]. *)
Fixpoint finder_loop (k : Key) (ctx : list frame) (v : node) : ptr :=
  match v with
  | External _ _ _ => (ctx, v)
  | Internal a l val h r =>
      if (fst val =? k)%Z then (ctx, v)
      else if (k <? fst val)%Z
           then finder_loop k (Frame L a val h r :: ctx) l
           else finder_loop k (Frame R a val h l :: ctx) r
  end.

(** [avl::finder], starting from [root->left]. *)
Definition finder (t : avl) (k : Key) : option ptr :=
  match root t with
  | External _ _ _ => None
  | Internal a l val h r => Some (finder_loop k [Frame L a val h r] l)
  end.

(** The conversion of a [size_t] difference to [int]. *)
Definition to_int (n : N) : Z :=
  ((Z.of_N n + 2 ^ 31) mod 2 ^ 32 - 2 ^ 31)%Z.

(** [avl::is_balanced]. *)
Definition is_balanced (v : node) : option bool :=
  match v with
  | External _ _ _ => None
  | Internal _ l _ _ r =>
      let bal := to_int (wrap (height_of l + size_max - height_of r)) in
      Some ((-1 <=? bal)%Z && (bal <=? 1)%Z)
  end.

(** [avl::tall_grandchild]: the grandchild is named by the two links that
    lead to it from [z]. *)
Definition tall_grandchild (z : node) : option (dir * dir) :=
  match z with
  | External _ _ _ => None
  | Internal _ zl _ _ zr =>
      if height_of zr <=? height_of zl then
        match zl with
        | External _ _ _ => None
        | Internal _ zll _ _ zlr =>
            if height_of zlr <=? height_of zll then Some (L, L)
            else Some (L, R)
        end
      else
        match zr with
        | External _ _ _ => None
        | Internal _ zrl _ _ zrr =>
            if height_of zrl <=? height_of zrr then Some (R, R)
            else Some (R, L)
        end
  end.

(** [avl::restructure], on the subtree rooted at [z = x->parent->parent];
    the result is [b], which takes [z]'s place under [z->parent].  In the
    two double rotations [b] is [x] and its child links are followed. *)
Definition restructure (z : node) (x : dir * dir) : option node :=
  match x, z with
  | (R, R), Internal za t0 zv zh (Internal ya t1 yv yh xn) =>
      Some (Internal ya (Internal za t0 zv zh t1) yv yh xn)
  | (L, L), Internal za (Internal ya xn yv yh t2) zv zh t3 =>
      Some (Internal ya xn yv yh (Internal za t2 zv zh t3))
  | (R, L), Internal za t0 zv zh
                     (Internal ya (Internal xa t1 xv xh t2) yv yh t3) =>
      Some (Internal xa (Internal za t0 zv zh t1) xv xh
                        (Internal ya t2 yv yh t3))
  | (L, R), Internal za (Internal ya t0 yv yh (Internal xa t1 xv xh t2))
                     zv zh t3 =>
      Some (Internal xa (Internal ya t0 yv yh t1) xv xh
                        (Internal za t2 zv zh t3))
  | _, _ => None
  end.

(** The three [set_height] calls that follow [restructure] in
    [avl::rebalance]. *)
Definition reset_heights (z : node) : option node :=
  match z with
  | External _ _ _ => None
  | Internal a l v h r =>
      match set_height l with
      | None => None
      | Some l' =>
          match set_height r with
          | None => None
          | Some r' => set_height (Internal a l' v h r')
          end
      end
  end.

(** One iteration of the loop body of [avl::rebalance], on [z = z->parent]. *)
Definition rebalance_step (z : node) : option node :=
  match set_height z with
  | None => None
  | Some z1 =>
      match is_balanced z1 with
      | None => None
      | Some true => Some z1
      | Some false =>
          match tall_grandchild z1 with
          | None => None
          | Some x =>
              match restructure z1 x with
              | None => None
              | Some b => reset_heights b
              end
          end
      end
  end.

(** [avl::rebalance]: the walk stops when [z->parent] is the super-root,
    the only node whose [parent] is [nullptr].  Returns the super-root. *)
Fixpoint rebalance (ctx : list frame) (z : node) : option node :=
  match ctx with
  | [] => None
  | f :: ctx' =>
      match ctx' with
      | [] => Some (fill f z)
      | _ :: _ =>
          match rebalance_step (fill f z) with
          | None => None
          | Some z' => rebalance ctx' z'
          end
      end
  end.

(** [avl::inserter]. *)
Definition inserter (t : avl) (v : value_type) (brk : addr)
  : option (addr * bool * avl * addr) :=
  match finder t (fst v) with
  | None => None
  | Some (ctx, n) =>
      if is_external n then
        let (n1, brk') := expand n brk in
        let n2 := replace n1 v in
        match rebalance ctx n2 with
        | None => None
        | Some r => Some (addr_of n, true, Avl r (wrap (sz t + 1)), brk')
        end
      else Some (addr_of n, false, t, brk)
  end.

(** [avl::eraser].  In the third branch [w] is reached from [n] again after
    [n->replace(w->value)], which changes no link. *)
Definition eraser (t : avl) (n : ptr) : option (addr * avl) :=
  match n with
  | (_, External _ _ _) => None
  | (ctx, Internal a l v h r) =>
      let w :=
        if is_external l then Some (Frame L a v h r :: ctx, l)
        else if is_external r then Some (Frame R a v h l :: ctx, r)
        else
          match inorder_next n with
          | None => None
          | Some (_, w0) =>
              match inorder_next (ctx, replace (snd n) (value_of w0)) with
              | Some (wctx, Internal wa wl wv wh wr) =>
                  Some (Frame L wa wv wh wr :: wctx, wl)
              | _ => None
              end
          end in
      match w with
      | None => None
      | Some w =>
          match remove_above_external w with
          | None => None
          | Some (sib, r') => Some (sib, Avl r' (wrap (sz t + size_max - 1)))
          end
      end
  end.

(** ** Public interface *)

Inductive outcome (A : Type) : Type :=
| Returns (a : A)
| Throws_out_of_range
| Undefined.
Arguments Returns {A} a.
Arguments Throws_out_of_range {A}.
Arguments Undefined {A}.

(** [avl()]. *)
Definition avl_new (brk : addr) : avl * addr :=
  let (r, brk1) := new_node default_value brk in
  let (r', brk2) := expand r brk1 in
  (Avl r' 0, brk2).

(** [avl(const avl&)]. *)
Definition avl_copy (junk : addr -> N) (m : avl) (brk : addr) : avl * addr :=
  let (r, brk') := copy_node junk (root m) brk in
  (Avl r (sz m), brk').

Definition begin (t : avl) : option iterator :=
  option_map (fun p => addr_of (snd p)) (leftmost ([], root t)).
Definition end_ (t : avl) : iterator := addr_of (root t).

(** [operator++] of the iterator. *)
Definition next (t : avl) (it : iterator) : option iterator :=
  match locate t it with
  | None => None
  | Some p => option_map (fun q => addr_of (snd q)) (inorder_next p)
  end.

(** [operator*] of the iterator. *)
Definition deref (t : avl) (it : iterator) : option value_type :=
  option_map (fun p => value_of (snd p)) (locate t it).

Definition size (t : avl) : N := sz t.
Definition empty (t : avl) : bool := sz t =? 0.

Definition find (t : avl) (k : Key) : option iterator :=
  match finder t k with
  | None => None
  | Some (_, b) => if is_internal b then Some (addr_of b) else Some (end_ t)
  end.

Definition count (t : avl) (k : Key) : option N :=
  match finder t k with
  | None => None
  | Some (_, b) => if is_internal b then Some 1 else Some 0
  end.

Definition insert (t : avl) (v : value_type) (brk : addr)
  : option (iterator * bool * avl * addr) := inserter t v brk.

(** [operator[]]: the reference returned designates the mapped value of the
    node whose address is returned. *)
Definition subscript (t : avl) (k : Key) (brk : addr)
  : option (addr * avl * addr) :=
  match inserter t (k, EmptyString) brk with
  | None => None
  | Some (n, _, t', brk') => Some (n, t', brk')
  end.

(** [at]: the reference returned designates the mapped value of the node
    returned, which [new node(q)] has just created. *)
Definition at_ (t : avl) (k : Key) (brk : addr) : outcome (node * addr) :=
  match find t k with
  | None => Undefined
  | Some m =>
      if m =? end_ t then Throws_out_of_range
      else match deref t m with
           | None => Undefined
           | Some q => Returns (new_node q brk)
           end
  end.

(** [erase(const_iterator)]. *)
Definition erase (t : avl) (position : iterator) : outcome (iterator * avl) :=
  match deref t position with
  | None => Undefined
  | Some v =>
      match finder t (fst v) with
      | None => Undefined
      | Some n =>
          if is_external (snd n) then Throws_out_of_range
          else match eraser t n with
               | None => Undefined
               | Some r => Returns r
               end
      end
  end.

(** [erase(const Key&)]. *)
Definition erase_key (t : avl) (k : Key) : option (N * avl) :=
  match finder t k with
  | None => None
  | Some n =>
      if is_internal (snd n) then
        match eraser t n with
        | None => None
        | Some (_, t') => Some (wrap (0 + 1), t')
        end
      else Some (0, t)
  end.

(** [clear]. *)
Definition clear (t : avl) (brk : addr) : avl * addr := avl_new brk.

(** An assignment through a [Value&] that designates the mapped value of the
    node at address [a], as seen from a tree: the node at that address, if
    the tree has one, now holds [w]. *)
Fixpoint store (a : addr) (w : Value) (n : node) : node :=
  match n with
  | External s v h => External s (if s =? a then (fst v, w) else v) h
  | Internal s l v h r =>
      Internal s (store a w l) (if s =? a then (fst v, w) else v) h
               (store a w r)
  end.

(** The tree objects of a program, by position; [operator=] compares the
    identities of its two operands. *)
Definition objects : Type := list avl.

Fixpoint set_object (i : nat) (t : avl) (os : objects) : objects :=
  match os, i with
  | [], _ => []
  | _ :: os', O => t :: os'
  | o :: os', S i' => o :: set_object i' t os'
  end.

(** [operator=]. *)
Definition copy_assign (junk : addr -> N) (this m : nat) (os : objects)
  (brk : addr) : option (objects * addr) :=
  if Nat.eqb this m then Some (os, brk)
  else match nth_error os m with
       | None => None
       | Some src =>
           let (r, brk') := copy_node junk (root src) brk in
           Some (set_object this (Avl r (sz src)) os, brk')
       end.

(** The loop [for (it = begin(); it != end(); ++it)], collecting [*it].
    [fuel] bounds the number of times the loop condition is evaluated. *)
Fixpoint walk (fuel : nat) (t : avl) (it : iterator)
  : option (list value_type) :=
  match fuel with
  | O => None
  | S fuel' =>
      if it =? end_ t then Some []
      else match deref t it, next t it with
           | Some v, Some it' => option_map (cons v) (walk fuel' t it')
           | _, _ => None
           end
  end.

Definition traverse (fuel : nat) (t : avl) : option (list value_type) :=
  match begin t with
  | None => None
  | Some b => walk fuel t b
  end.

(** ** Observations used by the specification *)

(** Every node below [n], in order: address, value, and whether the node
    is internal. *)
Definition cell : Type := (addr * value_type * bool)%type.

Fixpoint cells (n : node) : list cell :=
  match n with
  | External a v _ => [(a, v, false)]
  | Internal a l v _ r => cells l ++ (a, v, true) :: cells r
  end.

Definition cell_addr (c : cell) : addr := fst (fst c).
Definition cell_entry (c : cell) : addr * value_type := fst c.
Definition cell_internal (c : cell) : bool := snd c.

(** The addresses of all nodes below [n]. *)
Definition addrs (n : node) : list addr := map cell_addr (cells n).

(** The in-order sequence of the internal nodes below [n]. *)
Definition inorder (n : node) : list (addr * value_type) :=
  map cell_entry (filter cell_internal (cells n)).

(** The data tree hangs off the super-root's [left]. *)
Definition data (t : avl) : node :=
  match root t with
  | External _ _ _ => root t
  | Internal _ l _ _ _ => l
  end.

Definition entries (t : avl) : list value_type := map snd (inorder (data t)).
Definition keys (t : avl) : list Key := map fst (entries t).

(** The calls that the scenarios are made of. *)
Inductive call : Type :=
| Assign (k : Key) (w : Value)
| Put (k : Key) (w : Value)
| Drop (k : Key).

Arguments Assign k%_Z w%_string.
Arguments Put k%_Z w%_string.
Arguments Drop k%_Z.

(** [m[k] = w;], [m.insert(make_pair(k, w));] and [m.erase(k);]. *)
Definition step (c : call) (s : avl * addr) : option (avl * addr) :=
  let (t, brk) := s in
  match c with
  | Assign k w =>
      match subscript t k brk with
      | None => None
      | Some (a, t', brk') => Some (Avl (store a w (root t')) (sz t'), brk')
      end
  | Put k w =>
      match insert t (k, w) brk with
      | None => None
      | Some (_, _, t', brk') => Some (t', brk')
      end
  | Drop k =>
      match erase_key t k with
      | None => None
      | Some (_, t') => Some (t', brk)
      end
  end.

Fixpoint run (cs : list call) (s : avl * addr) : option (avl * addr) :=
  match cs with
  | [] => Some s
  | c :: cs' =>
      match step c s with
      | None => None
      | Some s' => run cs' s'
      end
  end.

(** The scenario of the test-suite: [m[3]="l"; m[1]="H"; ...]. *)
Definition setup_dummy_avl : list call :=
  [Assign 3 "l"; Assign 1 "H"; Assign 2 "e"; Assign 5 "o"; Assign 4 "l"].

Definition dummy : avl * addr :=
  Eval vm_compute in
    match run setup_dummy_avl (avl_new 100) with
    | Some s => s
    | None => avl_new 100
    end.

(** A two-element tree. *)
Definition setup_duo : list call := [Assign 1 "a"; Assign 2 "b"].

Definition duo : avl * addr :=
  Eval vm_compute in
    match run setup_duo (avl_new 0) with Some s => s | None => avl_new 0 end.

(** Eight insertions, then six removals that leave the keys 4 and 6. *)
Definition setup_thinned : list call :=
  [Put 4 ""; Put 2 ""; Put 6 ""; Put 1 ""; Put 3 ""; Put 5 ""; Put 7 "";
   Put 8 ""; Drop 1; Drop 3; Drop 2; Drop 8; Drop 5; Drop 7].

Definition thinned : avl * addr :=
  Eval vm_compute in
    match run setup_thinned (avl_new 0) with
    | Some s => s
    | None => avl_new 0
    end.

(** The test-suite tree after one more insertion. *)
Definition grown : avl * addr :=
  Eval vm_compute in
    match run [Put 7 "!"] dummy with Some s => s | None => dummy end.

(** The path that [inserter] hands to [rebalance] when 3 is inserted into
    the two-element tree, and the tree that [rebalance] makes of it. *)
Definition duo_path : ptr :=
  Eval vm_compute in
    match finder (fst duo) 3%Z with
    | Some (ctx, n) => (ctx, replace (fst (expand n (snd duo))) (3%Z, "c"%string))
    | None => ([], root (fst duo))
    end.

Definition duo_rebalanced : node :=
  Eval vm_compute in
    match rebalance (fst duo_path) (snd duo_path) with
    | Some r => r
    | None => root (fst duo)
    end.

(** ** Invariants of section 3 of the specification *)

(** The height of section 3: 0 for an external node, one more than the
    higher child for an internal one. *)
Fixpoint subtree_height (n : node) : N :=
  match n with
  | External _ _ _ => 0
  | Internal _ l _ _ r => 1 + N.max (subtree_height l) (subtree_height r)
  end.

(** Invariant 2, on the heights of section 3. *)
Fixpoint balanced (n : node) : bool :=
  match n with
  | External _ _ _ => true
  | Internal _ l _ _ r =>
      balanced l && balanced r
      && (subtree_height l <=? subtree_height r + 1)
      && (subtree_height r <=? subtree_height l + 1)
  end.

(** Invariant 3: the stored [height] fields obey the formula. *)
Fixpoint heights_ok (n : node) : bool :=
  match n with
  | External _ _ h => h =? 0
  | Internal _ l _ h r =>
      heights_ok l && heights_ok r
      && (h =? 1 + N.max (height_of l) (height_of r))
  end.

(** Invariants 2 and 3 together, on the stored heights. *)
Fixpoint avl_inv (n : node) : Prop :=
  match n with
  | External _ _ h => h = 0
  | Internal _ l _ h r =>
      avl_inv l /\ avl_inv r /\
      h = 1 + N.max (height_of l) (height_of r) /\
      height_of l <= height_of r + 1 /\ height_of r <= height_of l + 1
  end.

(** Invariants 1 and 5: the keys, in order, strictly increase. *)
Definition bst (t : avl) : Prop := StronglySorted Z.lt (keys t).

(** The super-root is internal and its [right] is external. *)
Definition rooted (t : avl) : Prop :=
  exists a l v h ra rv rh, root t = Internal a l v h (External ra rv rh).

(** The state of a tree object between two public calls: the shape of the
    sentinel, the order of the keys, the counter, and the heap discipline
    (distinct nodes have distinct addresses, all of them allocated). *)
Record wf (t : avl) (brk : addr) : Prop := Wf {
  wf_rooted : rooted t;
  wf_bst : bst t;
  wf_size : sz t = wrap (N.of_nat (length (entries t)));
  wf_nodup : NoDup (addrs (root t));
  wf_alloc : Forall (fun a => a < brk) (addrs (root t))
}.

(** The nodes of a tree are distinct objects in a 64-bit address space, so
    there are fewer than [2^64] of them. *)
Definition in_memory (t : avl) : Prop :=
  N.of_nat (length (cells (root t))) < size_max.

(** The states a tree object can be in between two public calls, together
    with the allocation state: construction, the modifiers, assignment
    through a reference or an iterator, copy construction and copy
    assignment (whose target ends up as a copy-constructed tree), and
    allocations made on behalf of other objects. *)
Inductive reachable : avl -> addr -> Prop :=
| reach_new brk :
    reachable (fst (avl_new brk)) (snd (avl_new brk))
| reach_alloc t brk brk' :
    reachable t brk -> brk <= brk' -> reachable t brk'
| reach_insert t brk v it b t' brk' :
    reachable t brk -> insert t v brk = Some (it, b, t', brk') ->
    reachable t' brk'
| reach_store t brk a w :
    reachable t brk -> reachable (Avl (store a w (root t)) (sz t)) brk
| reach_erase t brk pos it t' :
    reachable t brk -> erase t pos = Returns (it, t') -> reachable t' brk
| reach_erase_key t brk k n t' :
    reachable t brk -> erase_key t k = Some (n, t') -> reachable t' brk
| reach_clear t brk :
    reachable t brk -> reachable (fst (clear t brk)) (snd (clear t brk))
| reach_copy t brk junk :
    reachable t brk ->
    reachable (fst (avl_copy junk t brk)) (snd (avl_copy junk t brk)).

(** The cells that precede and follow the focus of a pointer. *)
Fixpoint ctx_before (ctx : list frame) : list cell :=
  match ctx with
  | [] => []
  | f :: ctx' =>
      ctx_before ctx' ++
      match hole f with
      | L => []
      | R => cells (f_other f) ++ [(f_self f, f_value f, true)]
      end
  end.

Fixpoint ctx_after (ctx : list frame) : list cell :=
  match ctx with
  | [] => []
  | f :: ctx' =>
      match hole f with
      | L => (f_self f, f_value f, true) :: cells (f_other f)
      | R => []
      end ++ ctx_after ctx'
  end.

(** The keys of the internal nodes among a list of cells. *)
Definition ikeys (cs : list cell) : list Key :=
  map (fun c => fst (snd (cell_entry c))) (filter cell_internal cs).

(** The number of internal nodes below [n]. *)
Fixpoint icount (n : node) : N :=
  match n with
  | External _ _ _ => 0
  | Internal _ l _ _ r => icount l + 1 + icount r
  end.

(** The key/value pairs of the internal nodes among a list of cells. *)
Definition ientries (cs : list cell) : list value_type :=
  map (fun c => snd (cell_entry c)) (filter cell_internal cs).

(** The pointers to the internal nodes below a focus, in order. *)
Fixpoint ptrs_inorder (ctx : list frame) (n : node) : list ptr :=
  match n with
  | External _ _ _ => []
  | Internal a l v h r =>
      ptrs_inorder (Frame L a v h r :: ctx) l ++
      (ctx, n) :: ptrs_inorder (Frame R a v h l :: ctx) r
  end.

(** Each pointer of the list is taken to the next one by [inorder_next],
    and the last one to [last]. *)
Fixpoint chain (ps : list ptr) (last : option ptr) : Prop :=
  match ps with
  | [] => True
  | p :: ps' =>
      inorder_next p = match ps' with [] => last | q :: _ => Some q end /\
      chain ps' last
  end.

(** ** Backward steps *)

(** The loop [while(n->is_internal()) n = n->right;] of
    [node::inorder_prev]. *)
Fixpoint rightmost_loop (ctx : list frame) (n : node) : ptr :=
  match n with
  | External _ _ _ => (ctx, n)
  | Internal a l v h r => rightmost_loop (Frame R a v h l :: ctx) r
  end.

(** The climbing loop of [node::inorder_prev]:
    [while(n == w->left) { n = w; w = w->parent; } return w;] *)
Fixpoint climb_left (ctx : list frame) (n : node) : option ptr :=
  match ctx with
  | [] => None
  | f :: ctx' =>
      match hole f with
      | L => climb_left ctx' (fill f n)
      | R => Some (ctx', fill f n)
      end
  end.

(** [node::inorder_prev]. *)
Definition inorder_prev (p : ptr) : option ptr :=
  match p with
  | (_, External _ _ _) => None
  | (ctx, Internal a l v h r) =>
      if is_internal l
      then parent_of (rightmost_loop (Frame L a v h r :: ctx) l)
      else climb_left ctx (snd p)
  end.

(** [operator--] of the iterator. *)
Definition prev (t : avl) (it : iterator) : option iterator :=
  match locate t it with
  | None => None
  | Some p => option_map (fun q => addr_of (snd q)) (inorder_prev p)
  end.

(** The base iterators of [rbegin()] and [rend()]. *)
Definition rbegin (t : avl) : iterator := addr_of (root t).
Definition rend (t : avl) : option iterator := begin t.

(** The loop [for (r = rbegin(); r != rend(); ++r)], collecting [*r]: a
    reverse iterator compares by its base, reads the element before its
    base ([--] on a copy of the base, then [*]), and advances by [--] on
    its base. *)
Fixpoint walk_back (fuel : nat) (t : avl) (stop it : iterator)
  : option (list value_type) :=
  match fuel with
  | O => None
  | S fuel' =>
      if it =? stop then Some []
      else match prev t it with
           | None => None
           | Some it' =>
               match deref t it' with
               | None => None
               | Some v => option_map (cons v) (walk_back fuel' t stop it')
               end
           end
  end.

Definition traverse_back (fuel : nat) (t : avl) : option (list value_type) :=
  match rend t with
  | None => None
  | Some stop => walk_back fuel t stop (rbegin t)
  end.

(** Each pointer of the list is taken to the one before it by
    [inorder_prev], and the first one to [first]. *)
Fixpoint rchain (first : option ptr) (ps : list ptr) : Prop :=
  match ps with
  | [] => True
  | p :: ps' => inorder_prev p = first /\ rchain (Some p) ps'
  end.

(** The last pointer of a list, or [e] when there is none. *)
Definition last_or (e : option ptr) (ps : list ptr) : option ptr :=
  fold_left (fun _ p => Some p) ps e.

(** The address an iterator to the pointed node holds. *)
Definition ptr_addr (p : ptr) : addr := addr_of (snd p).

(** * Proofs *)

(** ** Lists of cells *)

Lemma plug_app (c1 c2 : list frame) (n : node) :
  plug (c1 ++ c2) n = plug c2 (plug c1 n).
Proof.
  revert n; induction c1 as [|f c1 IH]; intros n; simpl; auto.
Qed.

Lemma cells_fill (f : frame) (n : node) :
  cells (fill f n) = ctx_before [f] ++ cells n ++ ctx_after [f].
Proof.
  unfold fill; simpl; destruct (hole f); simpl;
    rewrite ?app_nil_r, <- ?app_assoc; reflexivity.
Qed.

Lemma cells_plug (ctx : list frame) (n : node) :
  cells (plug ctx n) = ctx_before ctx ++ cells n ++ ctx_after ctx.
Proof.
  revert n; induction ctx as [|f ctx IH]; intros n; simpl.
  - now rewrite app_nil_r.
  - rewrite IH, cells_fill; simpl.
    rewrite ?app_nil_r, <- ?app_assoc. reflexivity.
Qed.

Lemma ctx_before_app (c1 c2 : list frame) :
  ctx_before (c1 ++ c2) = ctx_before c2 ++ ctx_before c1.
Proof.
  induction c1 as [|f c1 IH]; simpl.
  - now rewrite app_nil_r.
  - now rewrite IH, app_assoc.
Qed.

Lemma ctx_after_app (c1 c2 : list frame) :
  ctx_after (c1 ++ c2) = ctx_after c1 ++ ctx_after c2.
Proof.
  induction c1 as [|f c1 IH]; simpl; auto.
  now rewrite IH, app_assoc.
Qed.

Lemma inorder_Internal a l v h r :
  inorder (Internal a l v h r) = inorder l ++ (a, v) :: inorder r.
Proof.
  unfold inorder; simpl. now rewrite filter_app, map_app.
Qed.

Lemma inorder_External a v h : inorder (External a v h) = [].
Proof. reflexivity. Qed.

Lemma addrs_Internal a l v h r :
  addrs (Internal a l v h r) = addrs l ++ a :: addrs r.
Proof. unfold addrs; simpl. now rewrite map_app. Qed.

(** ** Rotations keep the in-order sequence of cells *)

Lemma set_height_cells (z z' : node) :
  set_height z = Some z' -> cells z' = cells z /\ is_internal z' = true.
Proof.
  destruct z; simpl; intros H; inversion H; subst; auto.
Qed.

Lemma restructure_cells (z b : node) (x : dir * dir) :
  restructure z x = Some b -> cells b = cells z.
Proof.
  destruct x as [[|] [|]]; simpl; intros H.
  - destruct z as [|za [|ya xn yv yh t2] zv zh t3]; try discriminate.
    inversion H; subst; simpl. now rewrite <- ?app_assoc.
  - destruct z as [|za [|ya t0 yv yh [|xa t1 xv xh t2]] zv zh t3];
      try discriminate.
    inversion H; subst; simpl.
    repeat (rewrite <- ?app_assoc; simpl). reflexivity.
  - destruct z as [|za t0 zv zh [|ya [|xa t1 xv xh t2] yv yh t3]];
      try discriminate.
    inversion H; subst; simpl.
    repeat (rewrite <- ?app_assoc; simpl). reflexivity.
  - destruct z as [|za t0 zv zh [|ya t1 yv yh xn]]; try discriminate.
    inversion H; subst; simpl.
    repeat (rewrite <- ?app_assoc; simpl). reflexivity.
Qed.

Lemma reset_heights_cells (z z' : node) :
  reset_heights z = Some z' -> cells z' = cells z.
Proof.
  destruct z as [|a l v h r]; simpl; try discriminate.
  destruct (set_height l) as [l'|] eqn:El; try discriminate.
  destruct (set_height r) as [r'|] eqn:Er; try discriminate.
  intros H; inversion H; subst; simpl.
  apply set_height_cells in El, Er. destruct El as [-> _], Er as [-> _].
  reflexivity.
Qed.

Lemma rebalance_step_cells (z z' : node) :
  rebalance_step z = Some z' -> cells z' = cells z.
Proof.
  unfold rebalance_step.
  destruct (set_height z) as [z1|] eqn:E1; try discriminate.
  apply set_height_cells in E1; destruct E1 as [E1 _].
  destruct (is_balanced z1) as [[|]|]; try discriminate.
  - intros H; inversion H; subst; auto.
  - destruct (tall_grandchild z1) as [x|]; try discriminate.
    destruct (restructure z1 x) as [b|] eqn:E2; try discriminate.
    intros H. apply reset_heights_cells in H. apply restructure_cells in E2.
    congruence.
Qed.

(** The walk never touches the super-root: it comes back with its fields
    and its [right] as they were. *)
Lemma rebalance_cells (ctx : list frame) (fr : frame) (z r : node) :
  rebalance (ctx ++ [fr]) z = Some r ->
  exists m, r = fill fr m /\ cells m = cells (plug ctx z).
Proof.
  revert z; induction ctx as [|f ctx IH]; intros z.
  - simpl. intros H; inversion H; subst. eauto.
  - assert (E : rebalance ((f :: ctx) ++ [fr]) z =
                match rebalance_step (fill f z) with
                | None => None
                | Some z' => rebalance (ctx ++ [fr]) z'
                end) by (destruct ctx; reflexivity).
    rewrite E; clear E.
    destruct (rebalance_step (fill f z)) as [z'|] eqn:Es; try discriminate.
    intros H. apply IH in H. destruct H as (m & -> & Hm).
    exists m; split; auto. simpl. rewrite Hm, !cells_plug.
    now rewrite (rebalance_step_cells _ _ Es).
Qed.

(** ** Sorted lists *)

Lemma ssorted_app (l1 l2 : list Z) :
  StronglySorted Z.lt (l1 ++ l2) <->
  StronglySorted Z.lt l1 /\ StronglySorted Z.lt l2 /\
  (forall x y, In x l1 -> In y l2 -> (x < y)%Z).
Proof.
  induction l1 as [|a l1 IH]; simpl.
  - split.
    + intros H; repeat split; auto. constructor. intros ? ? [].
    + intros (_ & H & _); exact H.
  - split.
    + intros H. inversion H as [|? ? Hs Hf]; subst.
      apply IH in Hs. destruct Hs as (H1 & H2 & H3).
      rewrite Forall_app in Hf. destruct Hf as [Hf1 Hf2].
      repeat split; auto.
      * constructor; auto.
      * intros x y [->|Hx] Hy; auto.
        rewrite Forall_forall in Hf2; auto.
    + intros (H1 & H2 & H3). inversion H1 as [|? ? Hs Hf]; subst.
      constructor.
      * apply IH; repeat split; auto.
      * rewrite Forall_app; split; auto.
        rewrite Forall_forall; intros y Hy; apply H3; auto.
Qed.

Lemma ssorted_cons_inv (a : Z) (l : list Z) :
  StronglySorted Z.lt (a :: l) <->
  StronglySorted Z.lt l /\ (forall y, In y l -> (a < y)%Z).
Proof.
  split.
  - intros H; inversion H as [|? ? Hs Hf]; subst; split; auto.
    now rewrite Forall_forall in Hf.
  - intros [Hs Hf]; constructor; auto. now rewrite Forall_forall.
Qed.

Lemma ikeys_app (c1 c2 : list cell) : ikeys (c1 ++ c2) = ikeys c1 ++ ikeys c2.
Proof. unfold ikeys. now rewrite filter_app, map_app. Qed.

Lemma ikeys_cells_Internal a l v h r :
  ikeys (cells (Internal a l v h r)) =
  ikeys (cells l) ++ fst v :: ikeys (cells r).
Proof. simpl. now rewrite ikeys_app. Qed.

Lemma ikeys_inorder (n : node) :
  map fst (map snd (inorder n)) = ikeys (cells n).
Proof.
  unfold inorder, ikeys, cell_entry. now rewrite !map_map.
Qed.

(** ** finder *)

(** Where the descent stops: the node reached hangs below the start, it
    holds [k] if it is internal, and [k] lies strictly between the keys
    that precede and the keys that follow it. *)
Lemma finder_loop_spec (k : Key) (n : node) (ctx : list frame) :
  exists c m,
    finder_loop k ctx n = (c ++ ctx, m) /\ plug c m = n /\
    (is_internal m = true -> fst (value_of m) = k) /\
    (StronglySorted Z.lt (ikeys (cells n)) ->
     (forall x, In x (ikeys (ctx_before c)) -> (x < k)%Z) /\
     (forall x, In x (ikeys (ctx_after c)) -> (k < x)%Z)).
Proof.
  revert ctx; induction n as [a v h|a l IHl v h r IHr]; intros ctx.
  - exists [], (External a v h); simpl; repeat split; auto;
      try discriminate; intros ? [].
  - cbn [finder_loop]. destruct (fst v =? k)%Z eqn:Ek.
    + exists [], (Internal a l v h r); simpl; repeat split; auto;
        try (intros ? []). intros _. now apply Z.eqb_eq.
    + apply Z.eqb_neq in Ek. destruct (k <? fst v)%Z eqn:El.
      * apply Z.ltb_lt in El.
        destruct (IHl (Frame L a v h r :: ctx)) as (c & m & E & P & I & S).
        exists (c ++ [Frame L a v h r]), m.
        rewrite <- app_assoc; cbn [app].
        split; [exact E|]. split; [rewrite plug_app, P; reflexivity|].
        split; [exact I|]. intros H.
        rewrite ikeys_cells_Internal in H.
        apply ssorted_app in H. destruct H as (H1 & H2 & H3).
        apply ssorted_cons_inv in H2. destruct H2 as [H2 H4].
        destruct (S H1) as [Sb Sa].
        split; intros x Hx.
        -- rewrite ctx_before_app in Hx; simpl in Hx. auto.
        -- rewrite ctx_after_app, ikeys_app in Hx; simpl in Hx.
           apply in_app_or in Hx. destruct Hx as [Hx|Hx]; auto.
           rewrite app_nil_r in Hx.
           change ((a, v, true) :: cells r)
             with ([(a, v, true)] ++ cells r) in Hx.
           rewrite ikeys_app in Hx. simpl in Hx.
           destruct Hx as [<-|Hx]; auto.
           specialize (H4 _ Hx). lia.
      * apply Z.ltb_ge in El.
        destruct (IHr (Frame R a v h l :: ctx)) as (c & m & E & P & I & S).
        exists (c ++ [Frame R a v h l]), m.
        rewrite <- app_assoc; cbn [app].
        split; [exact E|]. split; [rewrite plug_app, P; reflexivity|].
        split; [exact I|]. intros H.
        rewrite ikeys_cells_Internal in H.
        apply ssorted_app in H. destruct H as (H1 & H2 & H3).
        apply ssorted_cons_inv in H2. destruct H2 as [H2 H4].
        destruct (S H2) as [Sb Sa].
        split; intros x Hx.
        -- rewrite ctx_before_app, ikeys_app in Hx; simpl in Hx.
           apply in_app_or in Hx. destruct Hx as [Hx|Hx]; auto.
           rewrite ikeys_app in Hx. simpl in Hx.
           apply in_app_or in Hx.
           destruct Hx as [Hx|[<-|[]]]; [|cbn; lia].
           specialize (H3 x (fst v) Hx (or_introl eq_refl)). lia.
        -- rewrite ctx_after_app in Hx; simpl in Hx.
           rewrite app_nil_r in Hx. auto.
Qed.

Lemma finder_rooted (t : avl) (k : Key) a0 l v0 h0 r0 :
  root t = Internal a0 l v0 h0 r0 ->
  exists c m,
    finder t k = Some (c ++ [Frame L a0 v0 h0 r0], m) /\ plug c m = l /\
    (is_internal m = true -> fst (value_of m) = k) /\
    (StronglySorted Z.lt (ikeys (cells l)) ->
     (forall x, In x (ikeys (ctx_before c)) -> (x < k)%Z) /\
     (forall x, In x (ikeys (ctx_after c)) -> (k < x)%Z)).
Proof.
  intros E. unfold finder. rewrite E.
  destruct (finder_loop_spec k l [Frame L a0 v0 h0 r0])
    as (c & m & F & P & I & S).
  exists c, m. rewrite F. auto.
Qed.

(** ** inserter: what a completed call has done *)

Lemma inserter_result (t : avl) (v : value_type) (brk : addr) res
      a0 l v0 h0 r0 :
  root t = Internal a0 l v0 h0 r0 ->
  inserter t v brk = Some res ->
  exists c m,
    plug c m = l /\
    (StronglySorted Z.lt (ikeys (cells l)) ->
     (forall x, In x (ikeys (ctx_before c)) -> (x < fst v)%Z) /\
     (forall x, In x (ikeys (ctx_after c)) -> (fst v < x)%Z)) /\
    ((is_internal m = true /\ fst (value_of m) = fst v /\
      res = (addr_of m, false, t, brk)) \/
     (is_external m = true /\
      exists l',
        res = (addr_of m, true,
               Avl (Internal a0 l' v0 h0 r0) (wrap (sz t + 1)), brk + 2) /\
        cells l' =
          ctx_before c ++
          [(brk, default_value, false); (addr_of m, v, true);
           (brk + 1, default_value, false)] ++ ctx_after c)).
Proof.
  intros E H. unfold inserter in H.
  destruct (finder_rooted t (fst v) _ _ _ _ _ E) as (c & m & F & P & I & S).
  rewrite F in H. exists c, m. split; [exact P|]. split; [exact S|].
  destruct m as [am vm hm|am ml vm hm mr]; cbn [is_external] in H.
  - right. split; [reflexivity|].
    cbn [expand new_node replace addr_of value_of height_of] in H.
    destruct (rebalance _ _) as [r|] eqn:Er in H; [|discriminate].
    apply rebalance_cells in Er. destruct Er as (l' & -> & Hl').
    inversion H; subst res. exists l'. split.
    + unfold fill; cbn. now rewrite <- N.add_assoc.
    + rewrite Hl', cells_plug. reflexivity.
  - left. inversion H; subst. repeat split. now apply I.
Qed.

(** ** The invariant, seen from the data tree *)

Lemma keys_data (t : avl) : keys t = ikeys (cells (data t)).
Proof. unfold keys, entries. apply ikeys_inorder. Qed.

Lemma length_entries (t : avl) :
  length (entries t) = length (ikeys (cells (data t))).
Proof. rewrite <- keys_data. unfold keys. now rewrite length_map. Qed.

Lemma addrs_root_perm a0 l v0 h0 ra rv rh :
  Permutation (addrs (Internal a0 l v0 h0 (External ra rv rh)))
              (a0 :: ra :: map cell_addr (cells l)).
Proof.
  unfold addrs; cbn [cells]. rewrite map_app. cbn [map cell_addr fst].
  rewrite <- Permutation_middle.
  change (map cell_addr (cells l) ++ [ra])
    with (map cell_addr (cells l) ++ ra :: []).
  rewrite <- Permutation_middle. now rewrite app_nil_r.
Qed.

Lemma wf_view (t : avl) (brk : addr) :
  wf t brk <->
  exists a0 l v0 h0 ra rv rh,
    root t = Internal a0 l v0 h0 (External ra rv rh) /\
    StronglySorted Z.lt (ikeys (cells l)) /\
    sz t = wrap (N.of_nat (length (ikeys (cells l)))) /\
    NoDup (a0 :: ra :: map cell_addr (cells l)) /\
    Forall (fun a => a < brk) (a0 :: ra :: map cell_addr (cells l)).
Proof.
  split.
  - intros [(a0 & l & v0 & h0 & ra & rv & rh & E) Hb Hs Hn Ha].
    exists a0, l, v0, h0, ra, rv, rh. split; [exact E|].
    unfold bst in Hb. rewrite keys_data in Hb. rewrite length_entries in Hs.
    unfold data in Hb, Hs. rewrite E in Hb, Hs, Hn, Ha.
    repeat split; auto.
    + eapply Permutation_NoDup; [apply addrs_root_perm|exact Hn].
    + eapply Permutation_Forall; [apply addrs_root_perm|exact Ha].
  - intros (a0 & l & v0 & h0 & ra & rv & rh & E & Hb & Hs & Hn & Ha).
    constructor.
    + exists a0, l, v0, h0, ra, rv, rh; exact E.
    + unfold bst. rewrite keys_data. unfold data. now rewrite E.
    + rewrite length_entries. unfold data. now rewrite E.
    + rewrite E. eapply Permutation_NoDup;
        [apply Permutation_sym, addrs_root_perm|exact Hn].
    + rewrite E. eapply Permutation_Forall;
        [apply Permutation_sym, addrs_root_perm|exact Ha].
Qed.

Lemma ssorted_insert (k : Z) (b a : list Z) :
  StronglySorted Z.lt (b ++ a) ->
  (forall x, In x b -> (x < k)%Z) -> (forall x, In x a -> (k < x)%Z) ->
  StronglySorted Z.lt (b ++ k :: a).
Proof.
  intros H Hb Ha. apply ssorted_app in H. destruct H as (H1 & H2 & H3).
  apply ssorted_app. repeat split; auto.
  - apply ssorted_cons_inv; auto.
  - intros x y Hx [<-|Hy]; auto.
Qed.

Lemma wrap_succ (n : N) : wrap (wrap n + 1) = wrap (n + 1).
Proof.
  unfold wrap. rewrite N.Div0.add_mod_idemp_l. reflexivity.
Qed.

Lemma ikeys_external (m : node) : is_external m = true -> ikeys (cells m) = [].
Proof. destruct m; simpl; auto; discriminate. Qed.

Lemma cells_external (m : node) :
  is_external m = true -> cells m = [(addr_of m, value_of m, false)].
Proof. destruct m; simpl; auto; discriminate. Qed.

Lemma perm_expand (pre post : list addr) (x y z : addr) :
  Permutation (pre ++ [x; y; z] ++ post) (x :: z :: pre ++ [y] ++ post).
Proof.
  cbn [app]. etransitivity; [symmetry; apply Permutation_middle|].
  apply perm_skip.
  change (pre ++ y :: z :: post) with (pre ++ [y] ++ z :: post).
  rewrite app_assoc.
  etransitivity; [symmetry; apply Permutation_middle|].
  now rewrite <- app_assoc.
Qed.

(** Two freshly allocated nodes join a heap of distinct allocated nodes. *)
Lemma fresh_two (old new : list addr) (brk : addr) :
  Permutation new (brk :: brk + 1 :: old) ->
  NoDup old -> Forall (fun a => a < brk) old ->
  NoDup new /\ Forall (fun a => a < brk + 2) new.
Proof.
  intros P Hn Ha. split.
  - eapply Permutation_NoDup; [symmetry; exact P|].
    rewrite Forall_forall in Ha.
    constructor; [|constructor; auto].
    + intros [H|H]; [lia|]. apply Ha in H. lia.
    + intros H. apply Ha in H. lia.
  - eapply Permutation_Forall; [symmetry; exact P|].
    repeat constructor; try lia.
    eapply Forall_impl; [|exact Ha]. cbn; intros; lia.
Qed.

(** A completed [inserter] call re-establishes the invariant. *)
Lemma inserter_wf (t : avl) (v : value_type) (brk : addr) a b t' brk' :
  wf t brk -> inserter t v brk = Some (a, b, t', brk') ->
  wf t' brk' /\ brk <= brk'.
Proof.
  intros W H. pose proof W as W0. apply wf_view in W.
  destruct W as (a0 & l & v0 & h0 & ra & rv & rh & E & Hb & Hs & Hn & Ha).
  destruct (inserter_result _ _ _ _ _ _ _ _ _ E H)
    as (c & m & P & S & [(_ & _ & R)|(X & l' & R & C)]).
  - inversion R; subst. split; [exact W0|lia].
  - injection R as Ra Rb Rt Rk. subst a b t' brk'. split; [|lia].
    apply wf_view.
    exists a0, l', v0, h0, ra, rv, rh. cbn [root sz].
    split; [reflexivity|].
    destruct (S Hb) as [Sb Sa].
    rewrite <- P in Hb, Hs, Hn, Ha. rewrite cells_plug in Hb, Hs, Hn, Ha.
    rewrite (cells_external _ X) in Hb, Hs, Hn, Ha.
    rewrite !ikeys_app in Hb, Hs. cbn [ikeys filter cell_internal snd map app]
      in Hb, Hs.
    rewrite C. split; [|split].
    + rewrite !ikeys_app.
      cbn [ikeys filter cell_internal snd map app cell_entry fst].
      apply ssorted_insert; auto.
    + rewrite Hs, wrap_succ. f_equal.
      rewrite !ikeys_app, !length_app.
      cbn [ikeys filter cell_internal snd map app length]. lia.
    + apply fresh_two with (old := a0 :: ra :: map cell_addr
        (ctx_before c ++ [(addr_of m, value_of m, false)] ++ ctx_after c));
        auto.
      rewrite !map_app. cbn [map cell_addr fst].
      etransitivity; [do 2 apply perm_skip; apply perm_expand|].
      etransitivity; [apply perm_skip, perm_swap|].
      etransitivity; [apply perm_swap|]. apply perm_skip.
      etransitivity; [apply perm_skip, perm_swap|].
      etransitivity; [apply perm_swap|]. reflexivity.
Qed.

(** ** Heights: no wrap-around, no null link followed *)

Lemma icount_cells (n : node) : icount n = N.of_nat (length (ikeys (cells n))).
Proof.
  induction n as [a v h|a l IHl v h r IHr]; [reflexivity|].
  rewrite ikeys_cells_Internal, length_app. cbn [icount length].
  rewrite IHl, IHr. lia.
Qed.

Lemma icount_same_cells (n m : node) : cells n = cells m -> icount n = icount m.
Proof. intros H. now rewrite !icount_cells, H. Qed.

Lemma icount_fill_le (f : frame) (n : node) : icount n <= icount (fill f n).
Proof. unfold fill; destruct (hole f); cbn [icount]; lia. Qed.

Lemma icount_plug_le (ctx : list frame) (n : node) :
  icount n <= icount (plug ctx n).
Proof.
  revert n; induction ctx as [|f ctx IH]; intros n; cbn [plug]; [lia|].
  etransitivity; [apply icount_fill_le|apply IH].
Qed.

Lemma heights_ok_Internal a l v h r :
  heights_ok (Internal a l v h r) = true <->
  heights_ok l = true /\ heights_ok r = true /\
  h = 1 + N.max (height_of l) (height_of r).
Proof.
  cbn [heights_ok]. rewrite !andb_true_iff, N.eqb_eq. tauto.
Qed.

Lemma heights_ok_External a v h :
  heights_ok (External a v h) = true <-> h = 0.
Proof. cbn [heights_ok]. apply N.eqb_eq. Qed.

Lemma heights_ok_le_icount (n : node) :
  heights_ok n = true -> height_of n <= icount n.
Proof.
  induction n as [a v h|a l IHl v h r IHr].
  - rewrite heights_ok_External. intros ->. cbn. lia.
  - rewrite heights_ok_Internal. intros (Hl & Hr & ->).
    specialize (IHl Hl). specialize (IHr Hr). cbn [height_of icount]. lia.
Qed.

Lemma heights_ok_height (n : node) :
  heights_ok n = true -> height_of n = subtree_height n.
Proof.
  induction n as [a v h|a l IHl v h r IHr].
  - rewrite heights_ok_External. now intros ->.
  - rewrite heights_ok_Internal. intros (Hl & Hr & ->).
    cbn [height_of subtree_height]. now rewrite IHl, IHr.
Qed.

Lemma heights_ok_pos (n : node) :
  heights_ok n = true -> 0 < height_of n -> is_internal n = true.
Proof.
  destruct n; [|reflexivity].
  rewrite heights_ok_External. cbn. intros ->. lia.
Qed.

Lemma wrap_small (n : N) : n < size_max -> wrap n = n.
Proof. intros H. unfold wrap. now apply N.mod_small. Qed.

(** [set_height] on a node whose children carry correct heights. *)
Lemma set_height_ok a l v h r :
  heights_ok l = true -> heights_ok r = true ->
  icount (Internal a l v h r) < size_max ->
  set_height (Internal a l v h r) =
    Some (Internal a l v (1 + N.max (height_of l) (height_of r)) r) /\
  heights_ok (Internal a l v (1 + N.max (height_of l) (height_of r)) r) = true.
Proof.
  intros Hl Hr Hc. cbn [set_height]. split.
  - rewrite wrap_small; [reflexivity|].
    pose proof (heights_ok_le_icount _ Hl).
    pose proof (heights_ok_le_icount _ Hr).
    cbn [icount] in Hc. lia.
  - apply heights_ok_Internal. auto.
Qed.

(** The test of [is_balanced] on the 32-bit difference of two heights. *)
Lemma balance_test (hl hr : N) :
  hl < size_max -> hr < size_max ->
  let bal := to_int (wrap (hl + size_max - hr)) in
  ((-1 <=? bal)%Z && (bal <=? 1)%Z) = false ->
  hr + 2 <= hl \/ hl + 2 <= hr.
Proof.
  intros Hl Hr bal H.
  destruct (N.le_gt_cases (hr + 2) hl) as [|A]; auto.
  destruct (N.le_gt_cases (hl + 2) hr) as [|B]; auto.
  exfalso. revert H. apply eq_true_false_abs.
  assert (C : hl = hr \/ hl = hr + 1 \/ hr = hl + 1) by lia.
  assert (D : bal = 0%Z \/ bal = 1%Z \/ bal = (-1)%Z).
  { subst bal. unfold to_int, wrap. unfold size_max in *.
    destruct C as [-> | [-> | ->]].
    - left. replace (hr + 2 ^ 64 - hr) with (2 ^ 64) by lia.
      rewrite N.Div0.mod_same. reflexivity.
    - right; left.
      replace (hr + 1 + 2 ^ 64 - hr) with (1 + 1 * 2 ^ 64) by lia.
      rewrite N.Div0.mod_add. reflexivity.
    - right; right.
      replace (hl + 2 ^ 64 - (hl + 1)) with (2 ^ 64 - 1) by lia.
      reflexivity. }
  destruct D as [-> | [-> | ->]]; reflexivity.
Qed.

Ltac ok_inv :=
  repeat match goal with
  | H : heights_ok (Internal _ _ _ _ _) = true |- _ =>
      apply heights_ok_Internal in H; destruct H as (? & ? & ?)
  | H : heights_ok (External _ _ _) = true |- _ =>
      apply heights_ok_External in H
  end.

Ltac nowrap :=
  repeat match goal with
  | |- context [wrap ?x] =>
      rewrite (wrap_small x) by (cbn [icount height_of] in *; lia)
  end.

Ltac ok_split :=
  repeat (apply heights_ok_Internal; split; [|split]); auto.

Ltac ok_bounds :=
  repeat match goal with
  | H : heights_ok ?n = true |- _ =>
      lazymatch goal with
      | _ : height_of n <= icount n |- _ => fail
      | _ => pose proof (heights_ok_le_icount _ H)
      end
  end.

Ltac rotate_ok :=
  cbn [restructure reset_heights set_height height_of];
  eexists; split; [reflexivity|];
  ok_bounds; ok_inv; ok_bounds; nowrap; ok_split.

(** One step of the walk, on a node whose subtrees carry correct heights:
    every link followed is there, and the heights come out correct. *)
Lemma rebalance_step_ok a l v h r :
  heights_ok l = true -> heights_ok r = true ->
  icount (Internal a l v h r) < size_max ->
  exists z', rebalance_step (Internal a l v h r) = Some z' /\
             heights_ok z' = true.
Proof.
  intros Hl Hr Hc. unfold rebalance_step.
  destruct (set_height_ok a l v h r Hl Hr Hc) as [-> Hz].
  cbn [is_balanced].
  pose proof (heights_ok_le_icount _ Hl) as Bl.
  pose proof (heights_ok_le_icount _ Hr) as Br.
  cbn [icount] in Hc.
  destruct (_ && _) eqn:T; [eauto|]. clear Hz.
  apply balance_test in T; try lia.
  cbn [tall_grandchild]. destruct T as [T|T].
  - replace (height_of r <=? height_of l) with true
      by (symmetry; apply N.leb_le; lia).
    destruct l as [la lv lh|la ll lv lh lr].
    { ok_inv. cbn [height_of] in *. lia. }
    destruct (height_of lr <=? height_of ll) eqn:G.
    + apply N.leb_le in G.
      destruct ll as [lla llv llh|lla lll llv llh llr].
      { ok_inv. cbn [height_of] in *. lia. }
      rotate_ok.
    + apply N.leb_gt in G.
      destruct lr as [lra lrv lrh|lra lrl lrv lrh lrr].
      { ok_inv. cbn [height_of] in *. lia. }
      rotate_ok.
  - replace (height_of r <=? height_of l) with false
      by (symmetry; apply N.leb_gt; lia).
    destruct r as [ra rv rh|ra rl rv rh rr].
    { ok_inv. cbn [height_of] in *. lia. }
    destruct (height_of rl <=? height_of rr) eqn:G.
    + apply N.leb_le in G.
      destruct rr as [rra rrv rrh|rra rrl rrv rrh rrr].
      { ok_inv. cbn [height_of] in *. lia. }
      rotate_ok.
    + apply N.leb_gt in G.
      destruct rl as [rla rlv rlh|rla rll rlv rlh rlr].
      { ok_inv. cbn [height_of] in *. lia. }
      rotate_ok.
Qed.

Lemma rebalance_cons (f : frame) (ctx : list frame) (fr : frame) (z : node) :
  rebalance ((f :: ctx) ++ [fr]) z =
  match rebalance_step (fill f z) with
  | None => None
  | Some z' => rebalance (ctx ++ [fr]) z'
  end.
Proof. destruct ctx; reflexivity. Qed.

Lemma heights_ok_plug (c : list frame) (m : node) :
  heights_ok (plug c m) = true ->
  heights_ok m = true /\ Forall (fun f => heights_ok (f_other f) = true) c.
Proof.
  revert m; induction c as [|f c IH]; intros m H; cbn [plug] in H.
  - auto.
  - apply IH in H. destruct H as [H F].
    unfold fill in H. destruct (hole f); ok_inv; auto.
Qed.

Lemma icount_plug_cells (ctx : list frame) (n m : node) :
  cells n = cells m -> icount (plug ctx n) = icount (plug ctx m).
Proof.
  intros H. apply icount_same_cells. now rewrite !cells_plug, H.
Qed.

(** The whole walk, started below correct heights, reaches the super-root. *)
Lemma rebalance_ok (ctx : list frame) (fr : frame) (z : node) :
  heights_ok z = true ->
  Forall (fun f => heights_ok (f_other f) = true) ctx ->
  icount (plug ctx z) < size_max ->
  exists m, rebalance (ctx ++ [fr]) z = Some (fill fr m) /\
            heights_ok m = true.
Proof.
  revert z; induction ctx as [|f ctx IH]; intros z Hz Hf Hc.
  - exists z; auto.
  - rewrite rebalance_cons. inversion Hf as [|? ? Ho Hf']; subst.
    cbn [plug] in Hc.
    assert (S : exists z', rebalance_step (fill f z) = Some z' /\
                           heights_ok z' = true).
    { pose proof (icount_plug_le ctx (fill f z)) as B.
      unfold fill in *. destruct (hole f);
        apply rebalance_step_ok; auto; lia. }
    destruct S as (z' & Es & Hz'). rewrite Es.
    apply IH; auto.
    erewrite icount_plug_cells; [exact Hc|].
    now apply rebalance_step_cells.
Qed.

(** ** inserter: the call completes on a tree with correct heights *)

Lemma ientries_app (c1 c2 : list cell) :
  ientries (c1 ++ c2) = ientries c1 ++ ientries c2.
Proof. unfold ientries. now rewrite filter_app, map_app. Qed.

Lemma entries_data (t : avl) : entries t = ientries (cells (data t)).
Proof. unfold entries, inorder, ientries. now rewrite map_map. Qed.

Lemma ikeys_ientries (cs : list cell) : ikeys cs = map fst (ientries cs).
Proof. unfold ikeys, ientries. now rewrite map_map. Qed.

Lemma inorder_app_cells (c1 c2 : list cell) :
  map cell_entry (filter cell_internal (c1 ++ c2)) =
  map cell_entry (filter cell_internal c1) ++
  map cell_entry (filter cell_internal c2).
Proof. now rewrite filter_app, map_app. Qed.

Lemma ikeys_length_le (cs : list cell) : (length (ikeys cs) <= length cs)%nat.
Proof. unfold ikeys. rewrite length_map. apply filter_length_le. Qed.

Lemma in_memory_icount (t : avl) a0 l v0 h0 r0 :
  root t = Internal a0 l v0 h0 r0 -> in_memory t -> icount l + 1 < size_max.
Proof.
  unfold in_memory. intros ->. cbn [cells]. rewrite length_app.
  cbn [length]. rewrite icount_cells.
  pose proof (ikeys_length_le (cells l)).
  assert (1 <= length (cells r0))%nat by (destruct r0; cbn;
    [|rewrite length_app; cbn]; lia).
  lia.
Qed.

Lemma inserter_defined (t : avl) (v : value_type) (brk : addr) :
  rooted t -> heights_ok (data t) = true -> in_memory t ->
  exists a b t' brk',
    inserter t v brk = Some (a, b, t', brk') /\
    heights_ok (data t') = true.
Proof.
  intros (a0 & l & v0 & h0 & ra & rv & rh & E) Hh Hm. pose proof Hh as Hh0.
  unfold data in Hh. rewrite E in Hh.
  pose proof (in_memory_icount _ _ _ _ _ _ E Hm) as Hc.
  destruct (finder_rooted t (fst v) _ _ _ _ _ E) as (c & m & F & P & _).
  unfold inserter. rewrite F.
  destruct m as [am vm hm|am ml vm hm mr]; cbn [is_external]; [|eauto 6].
  cbn [expand new_node replace addr_of value_of height_of].
  rewrite <- P in Hh. apply heights_ok_plug in Hh. destruct Hh as [_ Hf].
  edestruct (rebalance_ok c (Frame L a0 v0 h0 (External ra rv rh)))
    as (m' & -> & Hm'); [| exact Hf | | ].
  - reflexivity.
  - erewrite icount_same_cells with (m := plug c (Internal am
      (External brk default_value 0) v 1
      (External (brk + 1) default_value 0)));
      [|rewrite !cells_plug; reflexivity].
    rewrite icount_cells, cells_plug, !ikeys_app, !length_app.
    rewrite <- P, icount_cells, cells_plug, !ikeys_app, !length_app in Hc.
    cbn [cells ikeys filter cell_internal snd map app length] in *. lia.
  - do 4 eexists. split; [reflexivity|]. exact Hm'.
Qed.

Lemma in_cells_inorder (c : list frame) (m : node) :
  is_internal m = true ->
  In (addr_of m, value_of m) (inorder (plug c m)).
Proof.
  intros H. destruct m as [|a l v h r]; [discriminate|].
  unfold inorder. rewrite cells_plug. cbn [cells addr_of value_of].
  rewrite !inorder_app_cells. apply in_or_app; right.
  apply in_or_app; left. apply in_or_app; right. left. reflexivity.
Qed.

Lemma absent_between (k : Z) (b a : list Z) :
  (forall x, In x b -> (x < k)%Z) -> (forall x, In x a -> (k < x)%Z) ->
  ~ In k (b ++ a).
Proof.
  intros Hb Ha H. apply in_app_or in H.
  destruct H as [H|H]; [apply Hb in H|apply Ha in H]; lia.
Qed.

(** X22.  [insert] on a tree that satisfies the invariants.  When the key is
    stored the call returns the node that holds it together with [false]
    and the tree object is left as it was; when the key is absent and the
    stored heights are correct, the call completes, returns the node that
    now holds the pair together with [true], the pair is the one entry
    added to the in-order sequence, and [size()] has grown by one. *)
Theorem insert_spec (t : avl) (brk : addr) (k : Key) (v : Value) :
  wf t brk ->
  (In k (keys t) ->
   exists a w,
     insert t (k, v) brk = Some (a, false, t, brk) /\
     In (a, (k, w)) (inorder (data t))) /\
  (~ In k (keys t) -> heights_ok (data t) = true -> in_memory t ->
   exists a t' brk',
     insert t (k, v) brk = Some (a, true, t', brk') /\
     In (a, (k, v)) (inorder (data t')) /\
     size t' = size t + 1 /\
     wf t' brk' /\ heights_ok (data t') = true /\
     exists pre post,
       entries t = pre ++ post /\ entries t' = pre ++ (k, v) :: post).
Proof.
  intros W. pose proof W as W0. apply wf_view in W.
  destruct W as (a0 & l & v0 & h0 & ra & rv & rh & E & Hb & Hs & Hn & Ha).
  assert (K : keys t = ikeys (cells l))
    by (rewrite keys_data; unfold data; now rewrite E).
  unfold insert. split.
  - intros Hin.
    destruct (finder_rooted t k _ _ _ _ _ E) as (c & m & F & P & I & S).
    destruct (S Hb) as [Sb Sa].
    destruct (is_internal m) eqn:Im.
    + exists (addr_of m), (snd (value_of m)). split.
      * unfold inserter. cbn [fst]. rewrite F.
        unfold is_internal in Im. apply negb_true_iff in Im. now rewrite Im.
      * unfold data. rewrite E, <- P.
        replace (k, snd (value_of m)) with (value_of m)
          by (rewrite <- (I eq_refl); now destruct (value_of m)).
        now apply in_cells_inorder.
    + exfalso. rewrite K, <- P, cells_plug, !ikeys_app in Hin.
      unfold is_internal in Im. apply negb_false_iff in Im.
      rewrite (ikeys_external _ Im) in Hin. cbn [app] in Hin.
      revert Hin. now apply absent_between.
  - intros Hout Hh Hm.
    destruct (inserter_defined t (k, v) brk (wf_rooted _ _ W0) Hh Hm)
      as (ra0 & rb0 & rt0 & rk0 & R & Hh').
    pose proof R as R0.
    apply (inserter_result _ _ _ _ _ _ _ _ _ E) in R.
    destruct R as (c & m & P & S & [(Im & Ik & _)|(X & l' & X0 & C)]).
    + exfalso. apply Hout. rewrite K, <- P, cells_plug, !ikeys_app.
      apply in_or_app; right. apply in_or_app; left.
      destruct m as [|am ml vm hm mr]; [discriminate|].
      rewrite ikeys_cells_Internal. apply in_or_app; right. left. exact Ik.
    + injection X0 as -> -> -> ->.
      do 3 eexists. split; [exact R0|].
      destruct (inserter_wf _ _ _ _ _ _ _ W0 R0) as [W' _].
      split; [|split; [|split; [exact W'|split; [exact Hh'|]]]];
        unfold data, size; cbn [root sz].
      * unfold inorder. rewrite C, !inorder_app_cells.
        apply in_or_app; right. apply in_or_app; left. left. reflexivity.
      * rewrite Hs. rewrite wrap_succ.
        pose proof (in_memory_icount _ _ _ _ _ _ E Hm) as Hc.
        rewrite icount_cells in Hc. rewrite !wrap_small; lia.
      * exists (ientries (ctx_before c)), (ientries (ctx_after c)).
        rewrite !entries_data. unfold data. cbn [root]. rewrite E, C, <- P.
        rewrite cells_plug, (cells_external _ X), !ientries_app.
        split; reflexivity.
Qed.

(** ** leftmost *)

Lemma leftmost_loop_app (n : node) (ctx : list frame) :
  leftmost_loop ctx n =
  (fst (leftmost_loop [] n) ++ ctx, snd (leftmost_loop [] n)).
Proof.
  revert ctx; induction n as [a v h|a l IHl v h r _]; intros ctx.
  - reflexivity.
  - cbn [leftmost_loop]. rewrite IHl.
    rewrite (IHl [Frame L a v h r]). cbn [fst snd].
    now rewrite <- app_assoc.
Qed.

Lemma leftmost_loop_spec (n : node) :
  is_external (snd (leftmost_loop [] n)) = true /\
  plug (fst (leftmost_loop [] n)) (snd (leftmost_loop [] n)) = n /\
  Forall (fun f => hole f = L) (fst (leftmost_loop [] n)).
Proof.
  induction n as [a v h|a l IHl v h r _].
  - cbn. auto.
  - cbn [leftmost_loop]. rewrite leftmost_loop_app. cbn [fst snd].
    destruct IHl as (X & P & F). repeat split; auto.
    + rewrite plug_app, P. reflexivity.
    + apply Forall_app; split; auto.
Qed.

(** [leftmost] on an internal node: the node returned has an external
    [left], and is reached from the start through [left] links only. *)
Lemma leftmost_internal (n : node) :
  is_internal n = true ->
  exists c wa e wv wh wr,
    (forall ctx,
       leftmost (ctx, n) = Some (c ++ ctx, Internal wa e wv wh wr)) /\
    is_external e = true /\
    plug c (Internal wa e wv wh wr) = n /\
    Forall (fun f => hole f = L) c.
Proof.
  intros H. unfold leftmost. cbn [fst snd].
  destruct (leftmost_loop_spec n) as (X & P & F).
  destruct (leftmost_loop [] n) as [c e] eqn:E. cbn [fst snd] in *.
  destruct c as [|f c].
  - cbn in P. subst e. unfold is_internal in H. rewrite X in H. discriminate.
  - pose proof (Forall_inv F) as Hf. pose proof (Forall_inv_tail F) as F'.
    destruct f as [d fa fv fh fo]. cbn in Hf. subst d.
    exists c, fa, e, fv, fh, fo. cbn [plug] in P. unfold fill in *.
    cbn [hole f_self f_value f_height f_other] in *.
    repeat split; auto.
    intros ctx. rewrite leftmost_loop_app, E. reflexivity.
Qed.

Lemma ctx_before_left (c : list frame) :
  Forall (fun f => hole f = L) c -> ctx_before c = [].
Proof.
  induction 1 as [|f c Hf _ IH]; [reflexivity|].
  cbn [ctx_before]. now rewrite IH, Hf.
Qed.

(** ** eraser: what the call does *)

Lemma remove_above_external_spec (par : frame) (c : list frame) (fr : frame)
      (w : node) :
  remove_above_external (par :: c ++ [fr], w) =
  Some (addr_of (f_other par), fill fr (plug c (f_other par))).
Proof.
  destruct c as [|g c]; cbn [remove_above_external app plug]; [reflexivity|].
  now rewrite plug_app.
Qed.

Lemma ientries_cons (x : cell) (cs : list cell) :
  ientries (x :: cs) =
  (if cell_internal x then [snd (cell_entry x)] else []) ++ ientries cs.
Proof. unfold ientries. cbn [filter]. now destruct (cell_internal x). Qed.

Lemma ientries_nil : ientries [] = [].
Proof. reflexivity. Qed.

Ltac ientries_norm :=
  rewrite ?cells_plug; cbn [cells];
  repeat (rewrite ?ientries_app, ?ientries_cons, ?ientries_nil);
  cbn [cell_internal cell_entry snd fst app];
  repeat (progress (rewrite <- ?app_assoc; cbn [app]));
  rewrite ?app_nil_r.

(** Permutations of address lists, by counting occurrences. *)
Ltac perm_count :=
  rewrite ?cells_plug; cbn [cells];
  rewrite ?map_app; cbn [map cell_addr fst app]; rewrite ?map_app;
  apply (Permutation_count_occ N.eq_dec); intros ?x0;
  repeat (progress (rewrite ?count_occ_app; cbn [count_occ]));
  repeat match goal with
         | |- context [N.eq_dec ?a ?b] => destruct (N.eq_dec a b)
         end; lia.

(** Called on an internal node, [eraser] completes.  The value held at the
    node leaves the in-order sequence, every other entry stays in place,
    and two nodes leave the heap. *)
Lemma eraser_result (t : avl) (c : list frame) (fr : frame) (m : node) :
  is_internal m = true ->
  exists sib l' x y pre post,
    eraser t (c ++ [fr], m) =
      Some (sib, Avl (fill fr l') (wrap (sz t + size_max - 1))) /\
    ientries (cells (plug c m)) = pre ++ value_of m :: post /\
    ientries (cells l') = pre ++ post /\
    Permutation (map cell_addr (cells (plug c m)))
                (x :: y :: map cell_addr (cells l')).
Proof.
  intros H. destruct m as [|a l v h r]; [discriminate|]. clear H.
  cbn [eraser value_of].
  destruct (is_external l) eqn:Xl; [|destruct (is_external r) eqn:Xr].
  - rewrite remove_above_external_spec. cbn [f_other].
    exists (addr_of r), (plug c r), (addr_of l), a,
      (ientries (ctx_before c)), (ientries (cells r ++ ctx_after c)).
    split; [reflexivity|]. rewrite !cells_plug. cbn [cells].
    rewrite (cells_external _ Xl). split; [|split].
    + now ientries_norm.
    + now ientries_norm.
    + perm_count.
  - rewrite remove_above_external_spec. cbn [f_other].
    exists (addr_of l), (plug c l), a, (addr_of r),
      (ientries (ctx_before c ++ cells l)), (ientries (ctx_after c)).
    split; [reflexivity|]. rewrite !cells_plug. cbn [cells].
    rewrite (cells_external _ Xr). split; [|split].
    + now ientries_norm.
    + now ientries_norm.
    + perm_count.
  - assert (Ir : is_internal r = true) by (unfold is_internal; now rewrite Xr).
    destruct (leftmost_internal r Ir)
      as (c1 & wa & e & wv & wh & wr & Lm & Xe & P & F).
    cbn [inorder_next snd replace]. rewrite Ir, !Lm. cbn [value_of].
    replace (c1 ++ Frame R a wv h l :: c ++ [fr])
      with ((c1 ++ Frame R a wv h l :: c) ++ [fr])
      by (now rewrite <- app_assoc).
    rewrite remove_above_external_spec. cbn [f_other].
    exists (addr_of wr), (plug (c1 ++ Frame R a wv h l :: c) wr),
      wa, (addr_of e).
    exists (ientries (ctx_before c ++ cells l)),
      (wv :: ientries (cells wr ++ ctx_after c1 ++ ctx_after c)).
    split; [reflexivity|].
    rewrite !cells_plug, ctx_before_app, ctx_after_app.
    cbn [ctx_before ctx_after hole f_other f_self f_value cells].
    rewrite <- P, cells_plug, (ctx_before_left _ F). cbn [cells].
    rewrite (cells_external _ Xe). cbn [app]. split; [|split].
    + now ientries_norm.
    + now ientries_norm.
    + perm_count.
Qed.

Lemma size_max_pos : 1 <= size_max.
Proof. apply N.leb_le. reflexivity. Qed.

Lemma wrap_pred (n : N) : wrap (wrap (n + 1) + size_max - 1) = wrap n.
Proof.
  pose proof size_max_pos as M. unfold wrap.
  replace ((n + 1) mod size_max + size_max - 1)
    with ((n + 1) mod size_max + (size_max - 1))
    by (generalize ((n + 1) mod size_max); intros; lia).
  rewrite N.Div0.add_mod_idemp_l.
  replace (n + 1 + (size_max - 1)) with (n + 1 * size_max) by lia.
  apply N.Div0.mod_add.
Qed.

Lemma ssorted_remove (k : Z) (b a : list Z) :
  StronglySorted Z.lt (b ++ k :: a) -> StronglySorted Z.lt (b ++ a).
Proof.
  intros H. apply ssorted_app in H. destruct H as (H1 & H2 & H3).
  apply ssorted_cons_inv in H2. destruct H2 as [H2 H4].
  apply ssorted_app. repeat split; auto.
  intros x y Hx Hy. apply H3; auto. now right.
Qed.

Lemma ssorted_nodup (l : list Z) : StronglySorted Z.lt l -> NoDup l.
Proof.
  induction 1 as [|a l _ IH Hf]; constructor; auto.
  intros Hin. rewrite Forall_forall in Hf. apply Hf in Hin. lia.
Qed.

(** Two nodes leave a heap of distinct allocated nodes. *)
Lemma drop_two (old new : list addr) (x y a0 ra : addr) (P : addr -> Prop) :
  Permutation old (x :: y :: new) ->
  NoDup (a0 :: ra :: old) -> Forall P (a0 :: ra :: old) ->
  NoDup (a0 :: ra :: new) /\ Forall P (a0 :: ra :: new).
Proof.
  intros Hp Hn Hf.
  assert (Q : Permutation (a0 :: ra :: old) (x :: y :: a0 :: ra :: new)).
  { etransitivity; [do 2 apply perm_skip; exact Hp|].
    apply (Permutation_count_occ N.eq_dec). intros z. cbn [count_occ].
    repeat match goal with
           | |- context [N.eq_dec ?a ?b] => destruct (N.eq_dec a b)
           end; lia. }
  split.
  - apply (Permutation_NoDup Q) in Hn.
    inversion Hn as [|? ? _ Hn1]; subst. now inversion Hn1.
  - apply (Permutation_Forall Q) in Hf.
    inversion Hf as [|? ? _ Hf1]; subst. now inversion Hf1.
Qed.

(** [eraser], called on the internal node that [finder] has reached,
    re-establishes the invariant. *)
Lemma eraser_found (t : avl) (brk : addr) (k : Key) :
  wf t brk -> In k (keys t) ->
  exists n sib t' pre v post,
    finder t k = Some n /\ is_internal (snd n) = true /\
    value_of (snd n) = (k, v) /\
    eraser t n = Some (sib, t') /\
    entries t = pre ++ (k, v) :: post /\ entries t' = pre ++ post /\
    wf t' brk.
Proof.
  intros W Hin. apply wf_view in W.
  destruct W as (a0 & l & v0 & h0 & ra & rv & rh & E & Hb & Hs & Hn & Ha).
  assert (K : keys t = ikeys (cells l))
    by (rewrite keys_data; unfold data; now rewrite E).
  destruct (finder_rooted t k _ _ _ _ _ E) as (c & m & F & P & I & S).
  destruct (S Hb) as [Sb Sa]. clear S.
  destruct (is_internal m) eqn:Im.
  - destruct (eraser_result t c (Frame L a0 v0 h0 (External ra rv rh)) m Im)
      as (sib & l' & x & y & pre & post & Er & E1 & E2 & Pm).
    exists (c ++ [Frame L a0 v0 h0 (External ra rv rh)], m), sib,
      (Avl (fill (Frame L a0 v0 h0 (External ra rv rh)) l')
           (wrap (sz t + size_max - 1))), pre, (snd (value_of m)), post.
    assert (Vm : value_of m = (k, snd (value_of m)))
      by (rewrite <- (I eq_refl); now destruct (value_of m)).
    rewrite P in E1, Pm.
    assert (Et : entries t = pre ++ (k, snd (value_of m)) :: post)
      by (rewrite entries_data; unfold data; rewrite E, E1;
          now rewrite <- Vm).
    split; [exact F|]. split; [exact Im|]. split; [exact Vm|].
    split; [exact Er|]. split; [exact Et|]. split.
    + rewrite entries_data. unfold data, fill. cbn. exact E2.
    + apply wf_view. exists a0, l', v0, h0, ra, rv, rh.
      unfold fill. cbn [hole f_self f_value f_height f_other root sz].
      split; [reflexivity|].
      rewrite ikeys_ientries, E1 in Hb, Hs. rewrite ikeys_ientries, E2.
      rewrite map_app in Hb |- *. cbn [map] in Hb.
      split; [eapply ssorted_remove; exact Hb|].
      split; [|eapply drop_two; eauto].
      rewrite Hs. rewrite !length_app, !length_map, !length_app.
      cbn [length].
      replace (N.of_nat (length pre + S (length post)))
        with (N.of_nat (length pre + length post) + 1) by lia.
      apply wrap_pred.
  - exfalso. rewrite K, <- P, cells_plug, !ikeys_app in Hin.
    unfold is_internal in Im. apply negb_false_iff in Im.
    rewrite (ikeys_external _ Im) in Hin. cbn [app] in Hin.
    revert Hin. now apply absent_between.
Qed.

Lemma finder_absent (t : avl) (brk : addr) (k : Key) :
  wf t brk -> ~ In k (keys t) ->
  exists n, finder t k = Some n /\ is_external (snd n) = true.
Proof.
  intros W Hout. apply wf_view in W.
  destruct W as (a0 & l & v0 & h0 & ra & rv & rh & E & Hb & Hs & Hn & Ha).
  destruct (finder_rooted t k _ _ _ _ _ E) as (c & m & F & P & I & S).
  exists (c ++ [Frame L a0 v0 h0 (External ra rv rh)], m).
  split; [exact F|]. cbn [snd].
  destruct m as [|am ml vm hm mr]; [reflexivity|]. exfalso. apply Hout.
  rewrite keys_data. unfold data. rewrite E, <- P, cells_plug, !ikeys_app.
  apply in_or_app; right. apply in_or_app; left.
  rewrite ikeys_cells_Internal. apply in_or_app; right. left.
  now apply I.
Qed.

(** C7.  [erase(k)] on a tree that satisfies the invariants: 1 is returned
    when [k] is stored, and the entry with key [k] is the one entry that
    has left the in-order sequence; 0 is returned when [k] is absent, and
    the tree object is left as it was. *)
Theorem erase_key_spec (t : avl) (brk : addr) (k : Key) :
  wf t brk ->
  (In k (keys t) ->
   exists t' pre v post,
     erase_key t k = Some (1, t') /\
     entries t = pre ++ (k, v) :: post /\ entries t' = pre ++ post /\
     length (entries t) = (length (entries t') + 1)%nat /\
     wf t' brk) /\
  (~ In k (keys t) -> erase_key t k = Some (0, t)).
Proof.
  intros W. split.
  - intros Hin.
    destruct (eraser_found t brk k W Hin)
      as (n & sib & t' & pre & v & post & F & I & _ & Er & E1 & E2 & W').
    exists t', pre, v, post. unfold erase_key. rewrite F, I, Er.
    split; [reflexivity|]. split; [exact E1|]. split; [exact E2|].
    split; [|exact W'].
    rewrite E1, E2, !length_app. cbn [length]. lia.
  - intros Hout. destruct (finder_absent t brk k W Hout) as (n & F & X).
    unfold erase_key. rewrite F. unfold is_internal. now rewrite X.
Qed.

(** ** Iteration *)

Lemma chain_app (xs : list ptr) (y : ptr) (ys : list ptr) (e : option ptr) :
  chain xs (Some y) -> chain (y :: ys) e -> chain (xs ++ y :: ys) e.
Proof.
  induction xs as [|x xs IH]; intros Hx Hy; [exact Hy|].
  cbn [app chain] in *. destruct Hx as [Hx Hxs]. split; [|auto].
  destruct xs; exact Hx.
Qed.

Lemma ptrs_head (n : node) (ctx : list frame) :
  is_internal n = true ->
  exists p rest, ptrs_inorder ctx n = p :: rest /\ leftmost (ctx, n) = Some p.
Proof.
  revert ctx; induction n as [|a l IHl v h r _]; intros ctx H;
    [discriminate|].
  cbn [ptrs_inorder]. destruct (is_internal l) eqn:Il.
  - destruct (IHl (Frame L a v h r :: ctx) eq_refl) as (p & rest & -> & Lm).
    exists p, (rest ++ (ctx, Internal a l v h r) ::
               ptrs_inorder (Frame R a v h l :: ctx) r).
    split; [reflexivity|]. exact Lm.
  - destruct l; [|discriminate]. cbn. eauto.
Qed.

(** The successor function agrees with the in-order sequence: it leads
    from each internal node of a subtree to the next, and from the last
    one to wherever the climb from the subtree's root ends. *)
Lemma ptrs_chain (n : node) (ctx : list frame) :
  chain (ptrs_inorder ctx n) (climb_right ctx n).
Proof.
  revert ctx; induction n as [|a l IHl v h r IHr]; intros ctx; [exact I|].
  cbn [ptrs_inorder]. apply chain_app.
  - exact (IHl (Frame L a v h r :: ctx)).
  - cbn [chain]. split; [|exact (IHr (Frame R a v h l :: ctx))].
    destruct (is_internal r) eqn:Ir.
    + destruct (ptrs_head r (Frame R a v h l :: ctx) Ir)
        as (q & rest & -> & Lm).
      cbn [inorder_next]. now rewrite Ir.
    + destruct r; [|discriminate]. reflexivity.
Qed.

Lemma ptrs_values (n : node) (ctx : list frame) :
  map (fun p => value_of (snd p)) (ptrs_inorder ctx n) = ientries (cells n).
Proof.
  revert ctx; induction n as [|a l IHl v h r IHr]; intros ctx; [reflexivity|].
  cbn [ptrs_inorder cells]. rewrite map_app, ientries_app, ientries_cons.
  cbn [map]. now rewrite IHl, IHr.
Qed.

Lemma ptrs_valid (n : node) (ctx : list frame) (p : ptr) :
  In p (ptrs_inorder ctx n) ->
  exists c, fst p = c ++ ctx /\ plug c (snd p) = n /\
            is_internal (snd p) = true.
Proof.
  revert ctx; induction n as [|a l IHl v h r IHr]; intros ctx H; [destruct H|].
  cbn [ptrs_inorder] in H. apply in_app_or in H. destruct H as [H|[<-|H]].
  - apply IHl in H. destruct H as (c & E & P & I).
    exists (c ++ [Frame L a v h r]). rewrite <- app_assoc, plug_app, P.
    auto.
  - exists []. auto.
  - apply IHr in H. destruct H as (c & E & P & I).
    exists (c ++ [Frame R a v h l]). rewrite <- app_assoc, plug_app, P.
    auto.
Qed.

(** ** Finding a node by its address *)

Lemma nodup_app_disjoint (l1 l2 : list addr) (a : addr) :
  NoDup (l1 ++ l2) -> In a l1 -> In a l2 -> False.
Proof.
  induction l1 as [|x l1 IH]; intros Hn H1 H2; [destruct H1|].
  cbn [app] in Hn. inversion Hn as [|? ? Hx Hn']; subst.
  destruct H1 as [->|H1]; [|auto].
  apply Hx. apply in_or_app; now right.
Qed.

Lemma addrs_fill (f : frame) (n : node) :
  addrs (fill f n) =
  match hole f with
  | L => addrs n ++ f_self f :: addrs (f_other f)
  | R => addrs (f_other f) ++ f_self f :: addrs n
  end.
Proof. unfold fill. destruct (hole f); apply addrs_Internal. Qed.

Lemma addr_in_addrs (n : node) : In (addr_of n) (addrs n).
Proof.
  destruct n; [left; reflexivity|].
  rewrite addrs_Internal. apply in_or_app; right; left; reflexivity.
Qed.

Lemma addr_in_plug (c : list frame) (m : node) :
  In (addr_of m) (addrs (plug c m)).
Proof.
  revert m; induction c as [|f c IH]; intros m; cbn [plug].
  - apply addr_in_addrs.
  - unfold addrs. rewrite cells_plug, !map_app.
    apply in_or_app; right. apply in_or_app; left.
    fold (addrs (fill f m)). rewrite addrs_fill.
    destruct (hole f); apply in_or_app; [left|right; right];
      apply addr_in_addrs.
Qed.

Lemma locate_in_none (a : addr) (n : node) (ctx : list frame) :
  ~ In a (addrs n) -> locate_in a ctx n = None.
Proof.
  revert ctx; induction n as [s v h|s l IHl v h r IHr]; intros ctx H.
  - cbn in *. destruct (N.eqb_spec s a); [tauto|reflexivity].
  - rewrite addrs_Internal in H. cbn [locate_in addr_of].
    destruct (N.eqb_spec s a) as [->|_].
    + exfalso. apply H. apply in_or_app; right; left; reflexivity.
    + rewrite IHl, IHr; auto; intros X; apply H; apply in_or_app; auto.
      right; right; exact X.
Qed.

(** In a heap of distinct nodes, the address of a node finds that node,
    with its chain of ancestors. *)
Lemma locate_in_plug (c : list frame) (m : node) (ctx : list frame) :
  NoDup (addrs (plug c m)) ->
  locate_in (addr_of m) ctx (plug c m) = Some (c ++ ctx, m).
Proof.
  revert ctx; induction c as [|f c IH] using rev_ind; intros ctx Hn.
  - cbn [plug app]. destruct m; cbn; now rewrite N.eqb_refl.
  - rewrite plug_app in *. cbn [plug] in *.
    pose proof (addr_in_plug c m) as Hin.
    rewrite addrs_fill in Hn. rewrite <- app_assoc. cbn [app].
    destruct f as [[|] fa fv fh fo]; unfold fill in *;
      cbn [hole f_self f_value f_height f_other] in *;
      cbn [locate_in addr_of].
    + apply NoDup_remove in Hn. destruct Hn as [Hn Hx].
      destruct (N.eqb_spec fa (addr_of m)) as [Eq|_].
      { exfalso. apply Hx. rewrite Eq. apply in_or_app; now left. }
      rewrite IH; [reflexivity|].
      now apply NoDup_app_remove_r in Hn.
    + pose proof Hn as Hn0.
      apply NoDup_remove in Hn. destruct Hn as [Hn Hx].
      destruct (N.eqb_spec fa (addr_of m)) as [Eq|_].
      { exfalso. apply Hx. rewrite Eq. apply in_or_app; now right. }
      rewrite locate_in_none.
      * rewrite IH; [reflexivity|]. now apply NoDup_app_remove_l in Hn.
      * intros X. apply (nodup_app_disjoint _ _ (addr_of m) Hn); auto.
Qed.

(** ** The iterator loop visits the in-order sequence *)

Section Walk.

(** A tree whose nodes are distinct objects. *)
Variable t : avl.
Hypothesis distinct : NoDup (addrs (root t)).

Lemma locate_valid (p : ptr) :
  plug (fst p) (snd p) = root t -> locate t (addr_of (snd p)) = Some p.
Proof.
  intros P. unfold locate. pose proof distinct as Hn. rewrite <- P in *.
  rewrite locate_in_plug; [|exact Hn]. rewrite app_nil_r. now destruct p.
Qed.

Lemma below_root_addr (p : ptr) :
  plug (fst p) (snd p) = root t -> fst p <> [] ->
  (addr_of (snd p) =? end_ t) = false.
Proof.
  intros P Hc. apply N.eqb_neq. intros E.
  pose proof (locate_valid p P) as H1.
  pose proof (locate_valid ([], root t) eq_refl) as H2.
  cbn [snd] in H2. unfold end_ in E. rewrite E in H1.
  rewrite H1 in H2. injection H2 as ->. now apply Hc.
Qed.

(** The loop follows a chain of pointers that ends at the super-root. *)
Lemma walk_chain (ps : list ptr) (fuel : nat) :
  (forall p, In p ps -> plug (fst p) (snd p) = root t /\ fst p <> []) ->
  chain ps (Some ([], root t)) ->
  (length ps < fuel)%nat ->
  walk fuel t (match ps with
               | [] => end_ t
               | p :: _ => addr_of (snd p)
               end) =
  Some (map (fun p => value_of (snd p)) ps).
Proof.
  revert fuel; induction ps as [|p ps IH]; intros fuel Hv Hc Hf.
  - destruct fuel; [inversion Hf|]. cbn [walk]. now rewrite N.eqb_refl.
  - destruct fuel; [inversion Hf|]. cbn [length] in Hf. cbn [walk].
    destruct (Hv p (or_introl eq_refl)) as [Pp Np].
    rewrite (below_root_addr p Pp Np).
    unfold deref, next. rewrite (locate_valid p Pp).
    cbn [option_map chain] in *. destruct Hc as [Hc Hcs].
    rewrite Hc.
    assert (IH' := IH fuel (fun q Hq => Hv q (or_intror Hq)) Hcs
                      ltac:(lia)).
    destruct ps as [|q ps]; cbn [option_map snd]; fold (end_ t);
      rewrite IH'; reflexivity.
Qed.

End Walk.

(** On a tree that satisfies the invariants, [begin()] to [end()] visits
    the entries of the in-order sequence, in that order. *)
Lemma traverse_entries (t : avl) (brk : addr) (fuel : nat) :
  wf t brk -> (length (entries t) < fuel)%nat ->
  traverse fuel t = Some (entries t).
Proof.
  intros W Hf. destruct W as [(a0 & l & v0 & h0 & ra & rv & rh & E) _ _ Hn _].
  set (fr := Frame L a0 v0 h0 (External ra rv rh)).
  assert (T : root t = fill fr l) by exact E.
  assert (Ed : entries t = map (fun p => value_of (snd p))
                               (ptrs_inorder [fr] l)).
  { rewrite ptrs_values, entries_data. unfold data. now rewrite E. }
  assert (Hv : forall p, In p (ptrs_inorder [fr] l) ->
                         plug (fst p) (snd p) = root t /\ fst p <> []).
  { intros p Hp. apply ptrs_valid in Hp. destruct Hp as (c & Ec & P & _).
    rewrite Ec, plug_app, P, T. split; [reflexivity|].
    destruct c; discriminate. }
  assert (Hc : chain (ptrs_inorder [fr] l) (Some ([], root t))).
  { rewrite T. exact (ptrs_chain l [fr]). }
  rewrite Ed in Hf |- *. rewrite length_map in Hf.
  rewrite <- (walk_chain t Hn _ fuel Hv Hc Hf).
  unfold traverse, begin. rewrite E.
  destruct (is_internal l) eqn:Il.
  - destruct (ptrs_head l [fr] Il) as (p & rest & Ep & Lm).
    change (leftmost ([], Internal a0 l v0 h0 (External ra rv rh)))
      with (leftmost ([fr], l)).
    rewrite Lm, Ep. reflexivity.
  - destruct l; [|discriminate]. cbn. unfold end_. rewrite E. reflexivity.
Qed.

(** ** Every reachable state satisfies the invariant *)

Lemma avl_new_wf (brk : addr) : wf (fst (avl_new brk)) (snd (avl_new brk)).
Proof.
  apply wf_view. cbn.
  exists brk, (External (brk + 1) default_value 0), default_value,
    (wrap (1 + N.max 0 0)), (brk + 1 + 1), default_value, 0.
  split; [reflexivity|]. cbn. split; [constructor|]. split; [reflexivity|].
  split.
  - repeat constructor; cbn; intros H;
      repeat (destruct H as [H|H]; try lia); auto.
  - repeat constructor; lia.
Qed.

Lemma wf_alloc_mono (t : avl) (brk brk' : addr) :
  wf t brk -> brk <= brk' -> wf t brk'.
Proof.
  intros [Hr Hb Hs Hn Ha] Hle. constructor; auto.
  eapply Forall_impl; [|exact Ha]. cbn; intros; lia.
Qed.

Lemma ikeys_cons (x : cell) (cs : list cell) :
  ikeys (x :: cs) =
  (if cell_internal x then [fst (snd (cell_entry x))] else []) ++ ikeys cs.
Proof. unfold ikeys. cbn [filter]. now destruct (cell_internal x). Qed.

Lemma store_cells (a : addr) (w : Value) (n : node) :
  map cell_addr (cells (store a w n)) = map cell_addr (cells n) /\
  ikeys (cells (store a w n)) = ikeys (cells n).
Proof.
  induction n as [s v h|s l [IHl1 IHl2] v h r [IHr1 IHr2]].
  - cbn. destruct (s =? a); auto.
  - cbn [store cells]. rewrite !map_app, !ikeys_app. cbn [map cell_addr fst].
    rewrite IHl1, IHr1, IHl2. split; [reflexivity|]. f_equal.
    rewrite !ikeys_cons, IHr2. cbn. now destruct (s =? a).
Qed.

Lemma store_wf (t : avl) (brk : addr) (a : addr) (w : Value) :
  wf t brk -> wf (Avl (store a w (root t)) (sz t)) brk.
Proof.
  intros W. apply wf_view in W. apply wf_view.
  destruct W as (a0 & l & v0 & h0 & ra & rv & rh & E & Hb & Hs & Hn & Ha).
  cbn [root sz]. rewrite E. cbn [store].
  destruct (store_cells a w l) as [S1 S2].
  do 7 eexists. split; [reflexivity|]. rewrite S1, S2. auto.
Qed.

Lemma found_in_keys (t : avl) (brk : addr) (k : Key) (n : ptr) :
  wf t brk -> finder t k = Some n -> is_internal (snd n) = true ->
  In k (keys t).
Proof.
  intros W F I.
  destruct (in_dec Z.eq_dec k (keys t)) as [|Hout]; [assumption|].
  destruct (finder_absent t brk k W Hout) as (n' & F' & X).
  rewrite F in F'. injection F' as <-. unfold is_internal in I.
  rewrite X in I. discriminate.
Qed.

Lemma eraser_wf (t : avl) (brk : addr) (k : Key) (n : ptr) sib t' :
  wf t brk -> finder t k = Some n -> is_internal (snd n) = true ->
  eraser t n = Some (sib, t') -> wf t' brk.
Proof.
  intros W F I Er. pose proof (found_in_keys t brk k n W F I) as Hin.
  destruct (eraser_found t brk k W Hin)
    as (n0 & sib0 & t0 & pre & v & post & F0 & _ & _ & Er0 & _ & _ & W').
  rewrite F in F0. injection F0 as <-. rewrite Er in Er0.
  injection Er0 as <- <-. exact W'.
Qed.

Lemma erase_key_wf (t : avl) (brk : addr) (k : Key) n t' :
  wf t brk -> erase_key t k = Some (n, t') -> wf t' brk.
Proof.
  intros W H. unfold erase_key in H.
  destruct (finder t k) as [p|] eqn:F; [|discriminate].
  destruct (is_internal (snd p)) eqn:I.
  - destruct (eraser t p) as [[sib t0]|] eqn:Er; [|discriminate].
    injection H as _ <-. eapply eraser_wf; eauto.
  - injection H as _ <-. exact W.
Qed.

Lemma erase_wf (t : avl) (brk : addr) (pos : iterator) it t' :
  wf t brk -> erase t pos = Returns (it, t') -> wf t' brk.
Proof.
  intros W H. unfold erase in H.
  destruct (deref t pos) as [v|]; [|discriminate].
  destruct (finder t (fst v)) as [p|] eqn:F; [|discriminate].
  destruct (is_external (snd p)) eqn:X; [discriminate|].
  destruct (eraser t p) as [[sib t0]|] eqn:Er; [|discriminate].
  injection H as _ <-. eapply eraser_wf; eauto.
  unfold is_internal. now rewrite X.
Qed.

(** ** The deep copy *)

Lemma copy_node_spec (junk : addr -> N) (n : node) (brk : addr) :
  ientries (cells (fst (copy_node junk n brk))) = ientries (cells n) /\
  brk < snd (copy_node junk n brk) /\
  NoDup (addrs (fst (copy_node junk n brk))) /\
  Forall (fun a => brk <= a < snd (copy_node junk n brk))
         (addrs (fst (copy_node junk n brk))).
Proof.
  revert brk; induction n as [s v h|s l IHl v h r IHr]; intros brk.
  - cbn. repeat split; try lia.
    + repeat constructor. intros [].
    + repeat constructor; lia.
  - cbn [copy_node].
    specialize (IHl (brk + 1)).
    destruct (copy_node junk l (brk + 1)) as [l' b1].
    specialize (IHr b1).
    destruct (copy_node junk r b1) as [r' b2]. cbn [fst snd] in *.
    destruct IHl as (El & Bl & Nl & Fl), IHr as (Er & Br & Nr & Fr).
    rewrite Forall_forall in Fl, Fr.
    split; [|split; [lia|split]].
    + cbn [cells]. rewrite !ientries_app, !ientries_cons, El, Er.
      reflexivity.
    + rewrite addrs_Internal. apply NoDup_app; auto.
      * constructor; auto. intros H. apply Fr in H. lia.
      * intros a Ha [<-|Hb]; [apply Fl in Ha; lia|].
        apply Fl in Ha. apply Fr in Hb. lia.
    + rewrite addrs_Internal. apply Forall_app. split; [|constructor].
      * apply Forall_forall. intros a Ha. apply Fl in Ha. lia.
      * lia.
      * apply Forall_forall. intros a Ha. apply Fr in Ha. lia.
Qed.

Lemma avl_copy_entries (junk : addr -> N) (t : avl) (brk : addr) :
  entries (fst (avl_copy junk t brk)) = entries t.
Proof.
  rewrite !entries_data. unfold avl_copy, data.
  destruct (root t) as [s v h|s l v h r].
  - cbn. reflexivity.
  - cbn [copy_node].
    pose proof (copy_node_spec junk l (brk + 1)) as (El & _).
    destruct (copy_node junk l (brk + 1)) as [l' b1].
    destruct (copy_node junk r b1) as [r' b2]. cbn [fst root] in *.
    exact El.
Qed.

Lemma avl_copy_wf (junk : addr -> N) (t : avl) (brk : addr) :
  wf t brk ->
  wf (fst (avl_copy junk t brk)) (snd (avl_copy junk t brk)).
Proof.
  intros [(a0 & l & v0 & h0 & ra & rv & rh & E) Hb Hs Hn Ha].
  pose proof (avl_copy_entries junk t brk) as Ee.
  pose proof (copy_node_spec junk (root t) brk) as (_ & _ & Nc & Fc).
  constructor.
  - unfold avl_copy. rewrite E. cbn [copy_node].
    destruct (copy_node junk l (brk + 1)) as [l' b1]. cbn.
    unfold rooted. cbn [root]. do 7 eexists. reflexivity.
  - unfold bst, keys. rewrite Ee. exact Hb.
  - rewrite Ee. unfold avl_copy.
    destruct (copy_node junk (root t) brk). exact Hs.
  - unfold avl_copy. destruct (copy_node junk (root t) brk). exact Nc.
  - unfold avl_copy. destruct (copy_node junk (root t) brk).
    cbn [fst snd root] in *. eapply Forall_impl; [|exact Fc].
    cbn; intros; lia.
Qed.

Theorem reachable_wf (t : avl) (brk : addr) : reachable t brk -> wf t brk.
Proof.
  induction 1 as [brk|t brk brk' _ IH Hle|t brk v it b t' brk' _ IH Hi
                 |t brk a w _ IH|t brk pos it t' _ IH He
                 |t brk k n t' _ IH He|t brk _ _|t brk junk _ IH].
  - apply avl_new_wf.
  - eapply wf_alloc_mono; eauto.
  - eapply inserter_wf; eauto.
  - now apply store_wf.
  - eapply erase_wf; eauto.
  - eapply erase_key_wf; eauto.
  - apply avl_new_wf.
  - now apply avl_copy_wf.
Qed.

Lemma store_not_in (a : addr) (w : Value) (n : node) :
  ~ In a (addrs n) -> store a w n = n.
Proof.
  induction n as [s v h|s l IHl v h r IHr]; intros H.
  - cbn in *. destruct (N.eqb_spec s a); [tauto|reflexivity].
  - rewrite addrs_Internal in H. cbn [store].
    destruct (N.eqb_spec s a) as [->|_].
    + exfalso. apply H. apply in_or_app; right; left; reflexivity.
    + rewrite IHl, IHr; auto; intros X; apply H; apply in_or_app; auto.
      right; right; exact X.
Qed.

(** ** Insertion keeps the tree balanced *)

Lemma avl_inv_iff (n : node) :
  avl_inv n <-> heights_ok n = true /\ balanced n = true.
Proof.
  induction n as [a v h|a l IHl v h r IHr].
  - cbn. rewrite N.eqb_eq. tauto.
  - cbn [avl_inv balanced]. rewrite heights_ok_Internal, IHl, IHr.
    rewrite !andb_true_iff, !N.leb_le. split.
    + intros ((Hl & Bl) & (Hr & Br) & E & L1 & L2).
      rewrite <- (heights_ok_height _ Hl), <- (heights_ok_height _ Hr). tauto.
    + intros ((Hl & Hr & E) & ((Bl & Br) & L1) & L2).
      rewrite <- (heights_ok_height _ Hl), <- (heights_ok_height _ Hr)
        in L1, L2. tauto.
Qed.

Lemma avl_inv_le_icount (n : node) : avl_inv n -> height_of n <= icount n.
Proof.
  intros H. apply heights_ok_le_icount. now apply avl_inv_iff in H.
Qed.

Ltac avl_destruct :=
  repeat match goal with
  | H : avl_inv (Internal _ _ _ _ _) |- _ => cbn [avl_inv] in H
  | H : avl_inv (External _ _ _) |- _ => cbn [avl_inv] in H
  | H : _ /\ _ |- _ => destruct H
  end.

Ltac avl_bounds :=
  repeat match goal with
  | H : avl_inv ?n |- _ =>
      lazymatch goal with
      | _ : height_of n <= icount n |- _ => fail
      | _ => pose proof (avl_inv_le_icount _ H)
      end
  end.

Ltac rotate_avl :=
  cbn [restructure reset_heights set_height height_of];
  eexists; split; [reflexivity|];
  avl_bounds; avl_destruct; avl_bounds;
  cbn [icount height_of] in *; nowrap;
  cbn [avl_inv height_of]; repeat split; auto; lia.

(** One step of the walk on a node whose subtrees are AVL trees and whose
    children differ in height by at most two: the result is an AVL tree,
    as high as the node would be without the rotation, or one less. *)
Lemma rebalance_step_avl a l v h r :
  avl_inv l -> avl_inv r ->
  height_of l <= height_of r + 2 -> height_of r <= height_of l + 2 ->
  icount (Internal a l v h r) < size_max ->
  exists z',
    rebalance_step (Internal a l v h r) = Some z' /\
    avl_inv z' /\
    height_of z' <= 1 + N.max (height_of l) (height_of r) /\
    N.max (height_of l) (height_of r) <= height_of z' /\
    (height_of l <= height_of r + 1 -> height_of r <= height_of l + 1 ->
     height_of z' = 1 + N.max (height_of l) (height_of r)).
Proof.
  intros Al Ar L1 L2 Hc.
  pose proof (avl_inv_le_icount _ Al) as Bl.
  pose proof (avl_inv_le_icount _ Ar) as Br.
  unfold rebalance_step. cbn [set_height is_balanced height_of].
  cbn [icount] in Hc.
  rewrite (wrap_small (1 + N.max (height_of l) (height_of r))) by lia.
  destruct (_ && _) eqn:T.
  - eexists. split; [reflexivity|].
    apply andb_true_iff in T. destruct T as [T1 T2].
    assert (B : height_of l <= height_of r + 1 /\
                height_of r <= height_of l + 1).
    { destruct (N.le_gt_cases (height_of l) (height_of r + 1)) as [|X];
        [destruct (N.le_gt_cases (height_of r) (height_of l + 1)) as [|X]|];
        [auto| |].
      - exfalso. assert (E : height_of r = height_of l + 2) by lia.
        rewrite E in T1.
        replace (height_of l + size_max - (height_of l + 2))
          with (size_max - 2) in T1
          by (pose proof size_max_pos; unfold size_max in *; lia).
        discriminate T1.
      - exfalso. assert (E : height_of l = height_of r + 2) by lia.
        rewrite E in T2.
        replace (height_of r + 2 + size_max - height_of r)
          with (2 + 1 * size_max) in T2 by lia.
        unfold wrap in T2. rewrite N.Div0.mod_add in T2.
        discriminate T2. }
    cbn [avl_inv height_of]. repeat split; auto; lia.
  - apply balance_test in T; try lia.
    cbn [tall_grandchild]. destruct T as [T|T].
    + replace (height_of r <=? height_of l) with true
        by (symmetry; apply N.leb_le; lia).
      destruct l as [la lv lh|la ll lv lh lr].
      { avl_destruct. cbn [height_of] in *. lia. }
      destruct (height_of lr <=? height_of ll) eqn:G.
      * apply N.leb_le in G.
        destruct ll as [lla llv llh|lla lll llv llh llr].
        { avl_destruct. cbn [height_of] in *. lia. }
        rotate_avl.
      * apply N.leb_gt in G.
        destruct lr as [lra lrv lrh|lra lrl lrv lrh lrr].
        { avl_destruct. cbn [height_of] in *. lia. }
        rotate_avl.
    + replace (height_of r <=? height_of l) with false
        by (symmetry; apply N.leb_gt; lia).
      destruct r as [ra rv rh|ra rl rv rh rr].
      { avl_destruct. cbn [height_of] in *. lia. }
      destruct (height_of rl <=? height_of rr) eqn:G.
      * apply N.leb_le in G.
        destruct rr as [rra rrv rrh|rra rrl rrv rrh rrr].
        { avl_destruct. cbn [height_of] in *. lia. }
        rotate_avl.
      * apply N.leb_gt in G.
        destruct rl as [rla rlv rlh|rla rll rlv rlh rlr].
        { avl_destruct. cbn [height_of] in *. lia. }
        rotate_avl.
Qed.

Lemma avl_inv_plug (c : list frame) (m : node) :
  avl_inv (plug c m) -> avl_inv m.
Proof.
  revert m; induction c as [|f c IH]; intros m H; cbn [plug] in H; [exact H|].
  apply IH in H. unfold fill in H. destruct (hole f); cbn [avl_inv] in H; tauto.
Qed.

(** The walk, started at a subtree that has grown by at most one level
    inside an AVL tree, rebuilds an AVL tree. *)
Lemma rebalance_avl (ctx : list frame) (fr : frame) (z z_old : node) :
  avl_inv (plug ctx z_old) -> avl_inv z ->
  height_of z_old <= height_of z -> height_of z <= height_of z_old + 1 ->
  icount (plug ctx z) < size_max ->
  exists m, rebalance (ctx ++ [fr]) z = Some (fill fr m) /\ avl_inv m.
Proof.
  revert z z_old; induction ctx as [|f ctx IH]; intros z z_old Ho Hz L1 L2 Hc.
  - exists z; auto.
  - rewrite rebalance_cons. cbn [plug] in Ho, Hc.
    pose proof (avl_inv_plug _ _ Ho) as Af.
    pose proof (icount_plug_le ctx (fill f z)) as B.
    assert (S : exists z',
               rebalance_step (fill f z) = Some z' /\ avl_inv z' /\
               height_of (fill f z_old) <= height_of z' /\
               height_of z' <= height_of (fill f z_old) + 1).
    { destruct f as [[|] fa fv fh fo]; unfold fill in *;
        cbn [hole f_self f_value f_height f_other avl_inv height_of] in *;
        destruct Af as (A1 & A2 & E & B1 & B2).
      - destruct (rebalance_step_avl fa z fv fh fo Hz A2)
          as (z' & Es & Az & U & Lo & Eq); try lia.
        exists z'. repeat split; auto; lia.
      - destruct (rebalance_step_avl fa fo fv fh z A1 Hz)
          as (z' & Es & Az & U & Lo & Eq); try lia.
        exists z'. repeat split; auto; lia. }
    destruct S as (z' & Es & Az & S1 & S2). rewrite Es.
    apply (IH z' (fill f z_old)); auto.
    erewrite icount_plug_cells; [exact Hc|].
    now apply rebalance_step_cells.
Qed.

(** The tree that a completed [insert] leaves, when it started from an AVL
    tree with correct stored heights. *)
Lemma insert_completed_avl (t : avl) (v : value_type) (brk : addr)
      a b t' brk' :
  rooted t -> avl_inv (data t) -> in_memory t ->
  insert t v brk = Some (a, b, t', brk') ->
  heights_ok (data t') = true /\ balanced (data t') = true.
Proof.
  intros (a0 & l & v0 & h0 & ra & rv & rh & E) Hi Hm H.
  apply avl_inv_iff. unfold insert, inserter in H.
  pose proof (in_memory_icount _ _ _ _ _ _ E Hm) as Hc.
  unfold data in Hi. rewrite E in Hi.
  destruct (finder_rooted t (fst v) _ _ _ _ _ E) as (c & m & F & P & _).
  rewrite F in H.
  destruct m as [am vm hm|am ml vm hm mr]; cbn [is_external] in H.
  - cbn [expand new_node replace addr_of value_of height_of] in H.
    rewrite <- P in Hi. pose proof (avl_inv_plug _ _ Hi) as Hx.
    cbn [avl_inv] in Hx. subst hm.
    edestruct (rebalance_avl c (Frame L a0 v0 h0 (External ra rv rh))
                 (Internal am (External brk default_value 0) v
                    (wrap (1 + N.max 0 0))
                    (External (brk + 1) default_value 0))
                 (External am vm 0)) as (m' & Er & Am).
    + exact Hi.
    + change (wrap (1 + N.max 0 0)) with 1.
      cbn [avl_inv height_of]. repeat split; lia.
    + cbn [height_of]. lia.
    + change (wrap (1 + N.max 0 0)) with 1. cbn [height_of]. lia.
    + erewrite icount_same_cells with (m := plug c (Internal am
        (External brk default_value 0) v 1
        (External (brk + 1) default_value 0)));
        [|rewrite !cells_plug; reflexivity].
      rewrite icount_cells, cells_plug, !ikeys_app, !length_app.
      rewrite <- P, icount_cells, cells_plug, !ikeys_app, !length_app in Hc.
      cbn [cells ikeys filter cell_internal snd map app length] in *. lia.
    + rewrite Er in H. injection H as _ _ <- _. exact Am.
  - injection H as _ _ <- _. unfold data. rewrite E. exact Hi.
Qed.

(** X12. [insert] on an AVL tree with correct stored heights completes and
    gives an AVL tree with correct stored heights: invariants 2 and 3 are
    maintained as long as only insertions take place. *)
Theorem insert_keeps_avl (t : avl) (v : value_type) (brk : addr) :
  rooted t -> avl_inv (data t) -> in_memory t ->
  exists a b t' brk',
    insert t v brk = Some (a, b, t', brk') /\
    heights_ok (data t') = true /\ balanced (data t') = true.
Proof.
  intros Hr Hi Hm.
  pose proof (proj1 (proj1 (avl_inv_iff (data t)) Hi)) as Hh.
  destruct (inserter_defined t v brk Hr Hh Hm) as (a & b & t' & brk' & E & _).
  exists a, b, t', brk'. split; [exact E|].
  exact (insert_completed_avl t v brk a b t' brk' Hr Hi Hm E).
Qed.

Lemma avl_new_avl (brk : addr) : avl_inv (data (fst (avl_new brk))).
Proof. cbn. reflexivity. Qed.

(** ** Claims on iteration, emptiness and copies *)

(** C8.  In every reachable state the loop from [begin()] to [end()]
    terminates and visits the entries of the tree in order; their keys
    strictly increase (so no key occurs twice), and there are [size()] of
    them when the tree fits in memory. *)
Theorem iteration_sorted (t : avl) (brk : addr) :
  reachable t brk ->
  (forall fuel, (length (entries t) < fuel)%nat ->
                traverse fuel t = Some (entries t)) /\
  StronglySorted Z.lt (keys t) /\
  NoDup (keys t) /\
  (in_memory t -> N.of_nat (length (entries t)) = size t).
Proof.
  intros Hr. apply reachable_wf in Hr. pose proof Hr as W.
  destruct Hr as [(a0 & l & v0 & h0 & ra & rv & rh & E) Hb Hs Hn Ha].
  split; [intros fuel Hf; eapply traverse_entries; eauto|].
  split; [exact Hb|]. split; [now apply ssorted_nodup|]. intros Hm.
  unfold size. rewrite Hs, wrap_small; [reflexivity|].
  pose proof (in_memory_icount _ _ _ _ _ _ E Hm) as Hc.
  rewrite icount_cells in Hc. rewrite length_entries. unfold data.
  rewrite E. lia.
Qed.

(** C9.  In every reachable state of a tree that fits in memory,
    [begin() == end()] exactly when [size() == 0]; the two positions are
    equal on a freshly constructed tree and right after [clear()]. *)
Theorem begin_end_empty (t : avl) (brk : addr) :
  reachable t brk -> in_memory t ->
  (begin t = Some (end_ t) <-> size t = 0) /\
  begin (fst (avl_new brk)) = Some (end_ (fst (avl_new brk))) /\
  begin (fst (clear t brk)) = Some (end_ (fst (clear t brk))).
Proof.
  intros Hr Hm. split; [|split; reflexivity].
  apply reachable_wf in Hr.
  destruct Hr as [(a0 & l & v0 & h0 & ra & rv & rh & E) Hb Hs Hn Ha].
  pose proof (in_memory_icount _ _ _ _ _ _ E Hm) as Hc.
  rewrite icount_cells in Hc. rewrite length_entries in Hs.
  unfold data in Hs. rewrite E in Hs. unfold size.
  set (fr := Frame L a0 v0 h0 (External ra rv rh)).
  unfold begin. rewrite E.
  change (leftmost ([], Internal a0 l v0 h0 (External ra rv rh)))
    with (leftmost ([fr], l)).
  destruct (is_internal l) eqn:Il.
  - destruct (leftmost_internal l Il)
      as (c & wa & e & wv & wh & wr & Lm & _ & P & _).
    rewrite Lm. cbn [option_map snd].
    assert (Hne : (addr_of (Internal wa e wv wh wr) =? end_ t) = false).
    { apply (below_root_addr t Hn (c ++ [fr], Internal wa e wv wh wr)).
      - cbn [fst snd]. rewrite plug_app, P, E. reflexivity.
      - cbn [fst]. destruct c; discriminate. }
    apply N.eqb_neq in Hne. split.
    + intros H. injection H as H. contradiction.
    + intros H. exfalso. rewrite Hs in H.
      rewrite wrap_small in H by lia.
      rewrite <- P, cells_plug, !ikeys_app in H. cbn [cells] in H.
      rewrite ikeys_app, ikeys_cons, !length_app in H. cbn in H. lia.
  - destruct l; [|discriminate]. cbn. unfold end_. rewrite E, Hs. cbn.
    split; reflexivity.
Qed.

(** C10.  [t = t]: the guard of [operator=] leaves every object, and the
    heap, as they were. *)
Theorem self_assign (junk : addr -> N) (os : objects) (brk : addr) (i : nat) :
  copy_assign junk i i os brk = Some (os, brk).
Proof. unfold copy_assign. now rewrite Nat.eqb_refl. Qed.

Lemma fold_store_disjoint (ws : list (addr * Value)) (n : node) :
  Forall (fun aw => ~ In (fst aw) (addrs n)) ws ->
  fold_left (fun m aw => store (fst aw) (snd aw) m) ws n = n.
Proof.
  induction 1 as [|[a w] ws Ha _ IH]; [reflexivity|].
  cbn [fold_left fst snd] in *. now rewrite store_not_in.
Qed.

Lemma nth_error_set_object (os : objects) (i j : nat) (t : avl) :
  nth_error (set_object i t os) j =
  if Nat.eqb i j then option_map (fun _ => t) (nth_error os j)
  else nth_error os j.
Proof.
  revert i j; induction os as [|o os IH]; intros i j.
  - destruct i, j; cbn; try reflexivity; now destruct (Nat.eqb i j).
  - destruct i, j; cbn; auto.
Qed.

(** C5.  A copy of a tree whose nodes are allocated, made by the copy
    constructor or by copy assignment to another object, has the size and
    the entries of the source and no node in common with it; whatever is
    then written through references into the copy, the source keeps its
    nodes, values included. *)
Theorem copy_isolated (junk : addr -> N) (t : avl) (brk : addr) :
  Forall (fun a => a < brk) (addrs (root t)) ->
  let c := fst (avl_copy junk t brk) in
  size c = size t /\
  entries c = entries t /\
  (forall a, In a (addrs (root c)) -> ~ In a (addrs (root t))) /\
  (forall ws : list (addr * Value),
     Forall (fun aw => In (fst aw) (addrs (root c))) ws ->
     fold_left (fun m aw => store (fst aw) (snd aw) m) ws (root t) = root t) /\
  (forall (os : objects) (this m : nat),
     this <> m -> nth_error os m = Some t -> (this < length os)%nat ->
     exists os',
       copy_assign junk this m os brk = Some (os', snd (avl_copy junk t brk))
       /\ nth_error os' this = Some c /\ nth_error os' m = Some t).
Proof.
  intros Ha c.
  assert (D : forall a, In a (addrs (root c)) -> ~ In a (addrs (root t))).
  { intros a Hc Ht. subst c. unfold avl_copy in Hc.
    pose proof (copy_node_spec junk (root t) brk) as (_ & _ & _ & Fc).
    destruct (copy_node junk (root t) brk) as [r b]. cbn [fst snd root] in *.
    rewrite Forall_forall in Ha, Fc. apply Ha in Ht. apply Fc in Hc. lia. }
  split; [|split; [apply avl_copy_entries|split; [exact D|split]]].
  - subst c. unfold avl_copy, size.
    now destruct (copy_node junk (root t) brk).
  - intros ws Hw. apply fold_store_disjoint.
    eapply Forall_impl; [|exact Hw]. cbn. intros aw. apply D.
  - intros os this m Hne Hm Hlt. unfold copy_assign.
    destruct (Nat.eqb_spec this m) as [|_]; [contradiction|].
    rewrite Hm. subst c. unfold avl_copy.
    destruct (copy_node junk (root t) brk) as [r b]. cbn [fst snd].
    eexists; split; [reflexivity|].
    rewrite !nth_error_set_object, Nat.eqb_refl.
    destruct (Nat.eqb_spec this m) as [|_]; [contradiction|].
    split; [|exact Hm].
    destruct (nth_error os this) eqn:En; [reflexivity|].
    apply nth_error_None in En. lia.
Qed.

(** ** The scenarios of the test-suite *)

Lemma step_reachable (c : call) (t : avl) (brk : addr) (t' : avl)
      (brk' : addr) :
  reachable t brk -> step c (t, brk) = Some (t', brk') -> reachable t' brk'.
Proof.
  intros Hr H. destruct c as [k w|k w|k]; cbn [step] in H.
  - unfold subscript in H.
    destruct (inserter t (k, EmptyString) brk) as [[[[a b] t1] brk1]|] eqn:E;
      [|discriminate].
    injection H as <- <-. apply reach_store.
    eapply reach_insert; [exact Hr|exact E].
  - destruct (insert t (k, w) brk) as [[[[a b] t1] brk1]|] eqn:E;
      [|discriminate].
    injection H as <- <-. eapply reach_insert; [exact Hr|exact E].
  - destruct (erase_key t k) as [[n t1]|] eqn:E; [|discriminate].
    injection H as <- <-. eapply reach_erase_key; [exact Hr|exact E].
Qed.

Lemma run_reachable (cs : list call) (s s' : avl * addr) :
  reachable (fst s) (snd s) -> run cs s = Some s' ->
  reachable (fst s') (snd s').
Proof.
  revert s; induction cs as [|c cs IH]; intros s Hr H; cbn [run] in H.
  - injection H as <-. exact Hr.
  - destruct (step c s) as [[t1 b1]|] eqn:E; [|discriminate].
    apply (IH (t1, b1)); [|exact H]. destruct s as [t b].
    eapply step_reachable; [exact Hr|exact E].
Qed.

Lemma dummy_reachable : reachable (fst dummy) (snd dummy).
Proof.
  apply (run_reachable setup_dummy_avl (avl_new 100)); [apply reach_new|].
  vm_compute. reflexivity.
Qed.

Lemma duo_reachable : reachable (fst duo) (snd duo).
Proof.
  apply (run_reachable setup_duo (avl_new 0)); [apply reach_new|].
  vm_compute. reflexivity.
Qed.

Lemma thinned_reachable : reachable (fst thinned) (snd thinned).
Proof.
  apply (run_reachable setup_thinned (avl_new 0)); [apply reach_new|].
  vm_compute. reflexivity.
Qed.

Lemma dummy_in_memory : in_memory (fst dummy).
Proof. reflexivity. Qed.

(** ** The accessor [at] *)

Lemma fst_unique (l : list value_type) (k : Key) (v v' : Value) :
  NoDup (map fst l) -> In (k, v) l -> In (k, v') l -> v = v'.
Proof.
  induction l as [|[k0 v0] l IH]; intros Hn H1 H2; [destruct H1|].
  cbn [map fst] in Hn. inversion Hn as [|? ? Hx Hn']; subst.
  destruct H1 as [H1|H1], H2 as [H2|H2].
  - congruence.
  - injection H1 as -> ->. exfalso. apply Hx.
    change k with (fst (k, v')). now apply in_map.
  - injection H2 as -> ->. exfalso. apply Hx.
    change k with (fst (k, v)). now apply in_map.
  - auto.
Qed.

(** X14. What [at] does on a tree that satisfies the invariants: it throws
    when the key is absent; when the key is stored with value [v] it returns
    a reference into a node that [new] has just produced, holding a copy of
    the entry.  That node is not one of the tree's. *)
Lemma at_spec (t : avl) (brk : addr) (k : Key) :
  wf t brk ->
  (~ In k (keys t) -> at_ t k brk = Throws_out_of_range) /\
  (forall v, In (k, v) (entries t) ->
             at_ t k brk = Returns (External brk (k, v) 0, brk + 1)) /\
  ~ In brk (addrs (root t)).
Proof.
  intros W. split; [|split].
  - intros Hout. destruct (finder_absent t brk k W Hout) as ([c m] & F & X).
    unfold at_, find. rewrite F. cbn [snd] in X. unfold is_internal.
    rewrite X. cbn [negb]. now rewrite N.eqb_refl.
  - intros v Hv.
    assert (Hin : In k (keys t))
      by (unfold keys; change k with (fst (k, v)); now apply in_map).
    pose proof W as W0.
    destruct W as [(a0 & l & v0 & h0 & ra & rv & rh & E) Hb Hs Hn Ha].
    destruct (finder_rooted t k _ _ _ _ _ E) as (c & m & F & P & I & S).
    destruct (is_internal m) eqn:Im.
    + set (fr := Frame L a0 v0 h0 (External ra rv rh)) in *.
      assert (Pm : plug (fst (c ++ [fr], m)) (snd (c ++ [fr], m)) = root t)
        by (cbn [fst snd]; rewrite plug_app, P, E; reflexivity).
      assert (Hne : (addr_of m =? end_ t) = false).
      { apply (below_root_addr t Hn (c ++ [fr], m) Pm).
        cbn [fst]. destruct c; discriminate. }
      assert (Hl : locate t (addr_of m) = Some (c ++ [fr], m))
        by exact (locate_valid t Hn (c ++ [fr], m) Pm).
      unfold at_, find. rewrite F, Im, Hne. unfold deref. rewrite Hl.
      cbn [option_map snd]. unfold new_node. do 3 f_equal.
      assert (Vm : value_of m = (k, snd (value_of m)))
        by (rewrite <- (I eq_refl); now destruct (value_of m)).
      rewrite Vm. f_equal.
      apply (fst_unique (entries t) k); [now apply ssorted_nodup| |exact Hv].
      unfold entries, data. rewrite E, <- P, <- Vm.
      change (value_of m) with (snd (addr_of m, value_of m)).
      apply in_map. now apply in_cells_inorder.
    + exfalso. unfold bst in Hb. rewrite keys_data in Hb, Hin.
      unfold data in Hb, Hin. rewrite E in Hb, Hin.
      destruct (S Hb) as [Sb Sa].
      rewrite <- P, cells_plug, !ikeys_app in Hin.
      unfold is_internal in Im. apply negb_false_iff in Im.
      rewrite (ikeys_external _ Im) in Hin. cbn [app] in Hin.
      revert Hin. now apply absent_between.
  - destruct W as [_ _ _ _ Ha]. rewrite Forall_forall in Ha.
    intros H. apply Ha in H. lia.
Qed.

(** ** Where the code departs from its specification *)

Local Open Scope string_scope.

(** C1.  [eraser] does not call [rebalance].  On the five-element tree of
    the test-suite, which is balanced, [erase(1)] leaves the root with an
    external left child and a right subtree of height 2. *)
Theorem erase_breaks_balance :
  reachable (fst dummy) (snd dummy) /\
  balanced (data (fst dummy)) = true /\
  exists t',
    erase_key (fst dummy) 1%Z = Some (1, t') /\
    reachable t' (snd dummy) /\
    balanced (data t') = false /\
    (exists a l v h r,
       data t' = Internal a l v h r /\
       subtree_height l = 0 /\ subtree_height r = 2).
Proof.
  split; [exact dummy_reachable|]. split; [reflexivity|].
  eexists. split; [vm_compute; reflexivity|]. split; [|split].
  - apply (reach_erase_key (fst dummy) (snd dummy) 1%Z 1);
      [exact dummy_reachable|reflexivity].
  - reflexivity.
  - do 5 eexists. cbn. repeat split.
Qed.

(** C2.  The stored heights are left stale by [eraser] and uninitialised by
    the copy constructor.  On the tree holding 1 and 2, whose heights are
    correct, [erase(2)] leaves the node of key 1 with two external children
    and a stored height of 2; a copy of the five-element tree made in
    zeroed storage has height 0 in every node. *)
Theorem heights_not_maintained :
  reachable (fst duo) (snd duo) /\
  heights_ok (data (fst duo)) = true /\
  (exists t' a l r,
     erase_key (fst duo) 2%Z = Some (1, t') /\
     data t' = Internal a l (1%Z, "a") 2 r /\
     is_external l = true /\ is_external r = true /\
     heights_ok (data t') = false) /\
  heights_ok (data (fst dummy)) = true /\
  heights_ok (data (fst (avl_copy (fun _ => 0) (fst dummy) (snd dummy))))
  = false.
Proof.
  split; [exact duo_reachable|]. split; [reflexivity|].
  split; [|split; reflexivity].
  do 4 eexists. cbn. repeat split.
Qed.

(** C3.  [eraser] returns what [remove_above_external] returns: the sibling
    that was promoted.  In the test [test_erase_iterator], erasing
    [begin()] (key 1) returns the external node that was the right child
    of the erased node, not the node of key 2 and not [end()]. *)
Theorem erase_returns_promoted_sibling :
  begin (fst dummy) = Some 103 /\
  deref (fst dummy) 103 = Some (1%Z, "H") /\
  next (fst dummy) 103 = Some 106 /\
  exists t',
    erase (fst dummy) 103 = Returns (107, t') /\
    find t' 2%Z = Some 106 /\
    end_ t' = 100 /\
    option_map (fun p => is_external (snd p)) (locate t' 107) = Some true.
Proof.
  split; [reflexivity|]. split; [reflexivity|]. split; [reflexivity|].
  eexists. split; [vm_compute; reflexivity|]. repeat split.
Qed.

(** C6.  [at] copies the entry into a node of its own and returns a
    reference into that node.  On the five-element tree, [at(5)] reads
    ["o"], but the node it refers to is not in the tree, so a write through
    the reference leaves the tree's entry for 5 as it was; [operator[]], by
    contrast, refers to the tree's own node. *)
Theorem at_returns_detached_copy :
  exists n brk' a,
    at_ (fst dummy) 5%Z (snd dummy) = Returns (n, brk') /\
    is_external n = true /\ value_of n = (5%Z, "o") /\
    ~ In (addr_of n) (addrs (root (fst dummy))) /\
    store (addr_of n) "x" (root (fst dummy)) = root (fst dummy) /\
    subscript (fst dummy) 5%Z (snd dummy) = Some (a, fst dummy, snd dummy) /\
    In (5%Z, "x")
       (entries (Avl (store a "x" (root (fst dummy))) (sz (fst dummy)))).
Proof.
  do 3 eexists. split; [reflexivity|]. cbn [is_external value_of addr_of].
  split; [reflexivity|]. split; [reflexivity|]. split.
  - cbn. intros H. repeat (destruct H as [H|H]; [discriminate|]). exact H.
  - split; [reflexivity|]. split; [reflexivity|]. cbn. tauto.
Qed.

(** A consequence of stale heights, in a state reached by public calls
    alone.  The tree holds 4 (stored height 4) and, to its right, 6
    (stored height 3), each with external children otherwise.  Inserting 1
    makes [rebalance] find the root unbalanced, [tall_grandchild] selects
    the external right child of 6, [restructure] rotates it into place, and
    [z->right->set_height()] follows its null [left]. *)
Theorem insert_after_erase_undefined :
  reachable (fst thinned) (snd thinned) /\
  keys (fst thinned) = [4%Z; 6%Z] /\
  heights_ok (data (fst thinned)) = false /\
  insert (fst thinned) (1%Z, "") (snd thinned) = None.
Proof.
  split; [exact thinned_reachable|].
  split; [reflexivity|]. split; [reflexivity|]. vm_compute. reflexivity.
Qed.

(** C4.  [insert] does not store every absent key.  The tree [thinned] is
    reached by eight calls of [insert] and six of [erase(k)]; it satisfies
    the invariants on shape, order, size and addresses, it fits in memory,
    and it does not hold the key 1.  [insert] of key 1 on it returns
    nothing and stores nothing: [rebalance] follows a null link (the
    [left] of an external node, in [z->right->set_height()]), because the
    heights that [erase] left in the two remaining nodes are stale. *)
Theorem insert_undefined_on_reachable_tree :
  reachable (fst thinned) (snd thinned) /\
  wf (fst thinned) (snd thinned) /\
  in_memory (fst thinned) /\
  size (fst thinned) = 2 /\
  ~ In 1%Z (keys (fst thinned)) /\
  insert (fst thinned) (1%Z, EmptyString) (snd thinned) = None.
Proof.
  split; [exact thinned_reachable|].
  split; [exact (reachable_wf _ _ thinned_reachable)|].
  split; [reflexivity|]. split; [reflexivity|]. split.
  - cbn. intros [H|[H|[]]]; discriminate.
  - vm_compute. reflexivity.
Qed.

(** ** The scenarios of section 8 of the specification *)

Example scenario_build :
  size (fst dummy) = 5 /\
  option_map (deref (fst dummy)) (find (fst dummy) 5%Z)
  = Some (Some (5%Z, "o")) /\
  traverse 6 (fst dummy)
  = Some [(1%Z, "H"); (2%Z, "e"); (3%Z, "l"); (4%Z, "l"); (5%Z, "o")].
Proof. repeat split. Qed.

Example scenario_insert_existing :
  exists it,
    insert (fst dummy) (5%Z, "o") (snd dummy)
    = Some (it, false, fst dummy, snd dummy) /\
    deref (fst dummy) it = Some (5%Z, "o").
Proof. eexists. split; reflexivity. Qed.

Example scenario_erase :
  exists t',
    erase_key (fst dummy) 5%Z = Some (1, t') /\
    size t' = 4 /\ find t' 5%Z = Some (end_ t').
Proof. eexists. split; [vm_compute; reflexivity|]. split; reflexivity. Qed.

(** ** Instances *)

Lemma insert_spec_witness :
  wf (fst dummy) (snd dummy) /\
  exists a t' brk',
    insert (fst dummy) (7%Z, "!") (snd dummy) = Some (a, true, t', brk') /\
    size t' = 6%N.
Proof.
  assert (W : wf (fst dummy) (snd dummy))
    by exact (reachable_wf _ _ dummy_reachable).
  split; [exact W|].
  destruct (insert_spec (fst dummy) (snd dummy) 7%Z "!" W) as [_ H].
  destruct H as (a & t' & brk' & E & _ & S & _).
  - cbn. intros H. repeat (destruct H as [H|H]; [discriminate|]). exact H.
  - reflexivity.
  - reflexivity.
  - exists a, t', brk'. split; [exact E|]. rewrite S. reflexivity.
Defined.

Lemma erase_key_spec_witness :
  wf (fst dummy) (snd dummy) /\
  exists t',
    erase_key (fst dummy) 5%Z = Some (1%N, t') /\
    length (entries (fst dummy)) = (length (entries t') + 1)%nat.
Proof.
  assert (W : wf (fst dummy) (snd dummy))
    by exact (reachable_wf _ _ dummy_reachable).
  split; [exact W|].
  destruct (erase_key_spec (fst dummy) (snd dummy) 5%Z W) as [H _].
  destruct H as (t' & pre & v & post & E & _ & _ & Hl & _).
  - cbn. tauto.
  - exists t'. split; [exact E|exact Hl].
Defined.

Lemma iteration_sorted_witness :
  reachable (fst dummy) (snd dummy) /\
  traverse 6 (fst dummy) = Some (entries (fst dummy)) /\
  N.of_nat (length (entries (fst dummy))) = size (fst dummy).
Proof.
  split; [exact dummy_reachable|].
  destruct (iteration_sorted (fst dummy) (snd dummy) dummy_reachable)
    as (H & _ & _ & S).
  split; [|exact (S dummy_in_memory)]. apply H. cbn. apply Nat.lt_succ_diag_r.
Defined.

Lemma begin_end_empty_witness :
  reachable (fst dummy) (snd dummy) /\ in_memory (fst dummy) /\
  (begin (fst dummy) = Some (end_ (fst dummy)) <-> size (fst dummy) = 0%N).
Proof.
  split; [exact dummy_reachable|]. split; [exact dummy_in_memory|].
  exact (proj1 (begin_end_empty (fst dummy) (snd dummy) dummy_reachable
                  dummy_in_memory)).
Defined.

Lemma copy_isolated_witness :
  Forall (fun a => (a < snd dummy)%N) (addrs (root (fst dummy))) /\
  entries (fst (avl_copy (fun _ => 0%N) (fst dummy) (snd dummy))) =
  entries (fst dummy).
Proof.
  assert (A : Forall (fun a => (a < snd dummy)%N) (addrs (root (fst dummy))))
    by (cbn; repeat constructor).
  split; [exact A|].
  exact (proj1 (proj2 (copy_isolated (fun _ => 0%N) (fst dummy) (snd dummy)
                         A))).
Defined.

(** * Further properties of the code *)

Local Close Scope string_scope.

(** ** Lookup: [find] and [count] *)

Lemma ptrs_entries (n : node) (ctx : list frame) :
  map (fun p => (addr_of (snd p), value_of (snd p))) (ptrs_inorder ctx n)
  = inorder n.
Proof.
  revert ctx; induction n as [|a l IHl v h r IHr]; intros ctx; [reflexivity|].
  cbn [ptrs_inorder]. rewrite inorder_Internal, map_app. cbn [map snd].
  now rewrite IHl, IHr.
Qed.

(** An entry of the in-order sequence is a node of the tree: its address,
    used as an iterator, is not [end()] and reads the entry. *)
Lemma entry_deref (t : avl) (brk : addr) (a : addr) (e : value_type) :
  wf t brk -> In (a, e) (inorder (data t)) ->
  exists p, locate t a = Some p /\ addr_of (snd p) = a /\
            value_of (snd p) = e /\ is_internal (snd p) = true /\
            fst p <> [] /\ plug (fst p) (snd p) = root t /\
            (a =? end_ t) = false.
Proof.
  intros [(a0 & l & v0 & h0 & ra & rv & rh & E) _ _ Hn _] Hin.
  unfold data in Hin. rewrite E in Hin.
  set (fr := Frame L a0 v0 h0 (External ra rv rh)).
  rewrite <- (ptrs_entries l [fr]) in Hin. apply in_map_iff in Hin.
  destruct Hin as (p & Ep & Hp). injection Ep as Ea Ee.
  apply ptrs_valid in Hp. destruct Hp as (c & Ec & P & I).
  assert (Pp : plug (fst p) (snd p) = root t)
    by (rewrite Ec, plug_app, P, E; reflexivity).
  assert (Np : fst p <> []) by (rewrite Ec; destruct c; discriminate).
  exists p. rewrite <- Ea.
  split; [now apply locate_valid|]. repeat split; auto.
  now apply below_root_addr.
Qed.

Lemma key_unique (l : list (addr * value_type)) (x y : addr * value_type) :
  NoDup (map (fun c => fst (snd c)) l) -> In x l -> In y l ->
  fst (snd x) = fst (snd y) -> x = y.
Proof.
  induction l as [|z l IH]; intros Hn Hx Hy E; [destruct Hx|].
  cbn [map] in Hn. inversion Hn as [|? ? Hz Hn']; subst.
  destruct Hx as [->|Hx], Hy as [->|Hy]; auto.
  - exfalso. apply Hz. apply in_map_iff. exists y. auto.
  - exfalso. apply Hz. apply in_map_iff. exists x. auto.
Qed.

Lemma keys_inorder (t : avl) :
  keys t = map (fun c => fst (snd c)) (inorder (data t)).
Proof. unfold keys, entries. now rewrite map_map. Qed.

Lemma find_absent (t : avl) (brk : addr) (k : Key) :
  wf t brk -> ~ In k (keys t) ->
  find t k = Some (end_ t) /\ count t k = Some 0.
Proof.
  intros W Hout. destruct (finder_absent t brk k W Hout) as ([c m] & F & X).
  unfold find, count. rewrite F. cbn [snd] in X. unfold is_internal.
  now rewrite X.
Qed.

Lemma find_entry (t : avl) (brk : addr) (k : Key) (a : addr) (v : Value) :
  wf t brk -> In (a, (k, v)) (inorder (data t)) ->
  find t k = Some a /\ a <> end_ t /\ deref t a = Some (k, v) /\
  count t k = Some 1.
Proof.
  intros W Hin.
  destruct (entry_deref t brk a (k, v) W Hin)
    as (p & Lp & _ & Vp & _ & _ & _ & Ne).
  assert (Hk : In k (keys t)).
  { rewrite keys_inorder.
    now apply (in_map (fun c => fst (snd c)) _ (a, (k, v))). }
  pose proof W as W0.
  destruct W as [(a0 & l & v0 & h0 & ra & rv & rh & E) Hb Hs Hn Ha].
  destruct (finder_rooted t k _ _ _ _ _ E) as (c & m & F & P & I & S).
  destruct (is_internal m) eqn:Im.
  - assert (Hm : In (addr_of m, value_of m) (inorder (data t)))
      by (unfold data; rewrite E, <- P; now apply in_cells_inorder).
    assert (Eq : (addr_of m, value_of m) = (a, (k, v))).
    { apply (key_unique (inorder (data t)));
        [rewrite <- keys_inorder; now apply ssorted_nodup
        |exact Hm|exact Hin|cbn [fst snd]; now apply I]. }
    injection Eq as Ea Ev. unfold find, count. rewrite F, Im, Ea.
    split; [reflexivity|]. split; [now apply N.eqb_neq|].
    split; [|reflexivity].
    unfold deref. rewrite Lp. cbn [option_map]. now rewrite Vp.
  - exfalso. unfold bst in Hb. rewrite keys_data in Hb, Hk.
    unfold data in Hb, Hk. rewrite E in Hb, Hk.
    destruct (S Hb) as [Sb Sa].
    rewrite <- P, cells_plug, !ikeys_app in Hk.
    unfold is_internal in Im. apply negb_false_iff in Im.
    rewrite (ikeys_external _ Im) in Hk. cbn [app] in Hk.
    revert Hk. now apply absent_between.
Qed.

(** X1.  [find] on a tree that satisfies the invariants: [end()] when the
    key is absent, and otherwise the node of the in-order sequence that
    holds the key, which is not [end()] and reads the entry. *)
Theorem find_spec (t : avl) (brk : addr) (k : Key) :
  wf t brk ->
  (~ In k (keys t) -> find t k = Some (end_ t)) /\
  (forall a v, In (a, (k, v)) (inorder (data t)) ->
     find t k = Some a /\ a <> end_ t /\ deref t a = Some (k, v)).
Proof.
  intros W. split.
  - intros Hout. now apply (find_absent t brk).
  - intros a v Hin. destruct (find_entry t brk k a v W Hin) as (F & N & D & _).
    auto.
Qed.

Lemma in_keys_entry (t : avl) (k : Key) :
  In k (keys t) -> exists a v, In (a, (k, v)) (inorder (data t)).
Proof.
  rewrite keys_inorder. intros H. apply in_map_iff in H.
  destruct H as ([a [k' v]] & E & H). cbn in E. subst k'. eauto.
Qed.

(** X2.  [count] returns the number of entries that hold the key, which is
    0 or 1. *)
Theorem count_spec (t : avl) (brk : addr) (k : Key) :
  wf t brk ->
  count t k = Some (N.of_nat (count_occ Z.eq_dec (keys t) k)) /\
  (count_occ Z.eq_dec (keys t) k <= 1)%nat.
Proof.
  intros W.
  assert (Hn : NoDup (keys t)) by (apply ssorted_nodup, W).
  pose proof (proj1 (NoDup_count_occ Z.eq_dec (keys t)) Hn k) as Hle.
  split; [|exact Hle].
  destruct (in_dec Z.eq_dec k (keys t)) as [Hin|Hout].
  - pose proof (proj1 (count_occ_In Z.eq_dec (keys t) k) Hin) as Hpos.
    destruct (in_keys_entry t k Hin) as (a & v & He).
    destruct (find_entry t brk k a v W He) as (_ & _ & _ & ->).
    f_equal. lia.
  - rewrite (proj1 (count_occ_not_In Z.eq_dec (keys t) k) Hout).
    now destruct (find_absent t brk k W Hout) as [_ ->].
Qed.

(** ** Insertion and lookup *)

Lemma inserter_entries_kept (t : avl) (brk : addr) (v : value_type)
      a b t' brk' :
  wf t brk -> inserter t v brk = Some (a, b, t', brk') ->
  forall x, In x (inorder (data t)) -> In x (inorder (data t')).
Proof.
  intros W H x Hx. pose proof (wf_rooted _ _ W) as Hr.
  destruct Hr as (a0 & l & v0 & h0 & ra & rv & rh & E).
  destruct (inserter_result _ _ _ _ _ _ _ _ _ E H)
    as (c & m & P & _ & [(_ & _ & R)|(X & l' & R & C)]).
  - injection R as _ _ -> _. exact Hx.
  - injection R as _ _ -> _. unfold data in *. cbn [root]. rewrite E in Hx.
    unfold inorder in *. rewrite C. rewrite <- P, cells_plug in Hx.
    rewrite (cells_external _ X) in Hx.
    rewrite !inorder_app_cells in *. cbn [filter cell_internal snd map app]
      in *.
    apply in_app_or in Hx. apply in_or_app. destruct Hx as [Hx|Hx]; auto.
    right. now right.
Qed.

Lemma inserter_returned_entry (t : avl) (brk : addr) (v : value_type)
      a b t' brk' :
  wf t brk -> inserter t v brk = Some (a, b, t', brk') ->
  exists w, In (a, (fst v, w)) (inorder (data t')) /\ (b = true -> w = snd v).
Proof.
  intros W H. pose proof (wf_rooted _ _ W) as Hr.
  destruct Hr as (a0 & l & v0 & h0 & ra & rv & rh & E).
  destruct (inserter_result _ _ _ _ _ _ _ _ _ E H)
    as (c & m & P & _ & [(Im & Ik & R)|(X & l' & R & C)]).
  - injection R as -> -> -> _. exists (snd (value_of m)).
    split; [|discriminate]. unfold data. rewrite E, <- P, <- Ik.
    replace (fst (value_of m), snd (value_of m)) with (value_of m)
      by now destruct (value_of m).
    now apply in_cells_inorder.
  - injection R as -> -> -> _. exists (snd v). split; [|reflexivity].
    unfold data. cbn [root]. unfold inorder. rewrite C.
    rewrite !inorder_app_cells. apply in_or_app; right.
    apply in_or_app; left. left. now destruct v.
Qed.

(** X3.  Whenever [insert] completes on a tree that satisfies the
    invariants, the iterator it returns is the one [find] returns for the
    key afterwards; it reads an entry with that key, and the value given
    when the entry is new. *)
Theorem insert_then_find (t : avl) (brk : addr) (v : value_type)
        a b t' brk' :
  wf t brk -> insert t v brk = Some (a, b, t', brk') ->
  find t' (fst v) = Some a /\ a <> end_ t' /\
  exists w, deref t' a = Some (fst v, w) /\ (b = true -> w = snd v).
Proof.
  intros W H. unfold insert in H.
  destruct (inserter_wf _ _ _ _ _ _ _ W H) as [W' _].
  destruct (inserter_returned_entry _ _ _ _ _ _ _ W H) as (w & Hin & Hw).
  destruct (find_entry t' brk' (fst v) a w W' Hin) as (F & N & D & _).
  split; [exact F|]. split; [exact N|]. exists w; auto.
Qed.

(** X4.  Iterators survive an insertion: whatever rotations [rebalance]
    performs, every iterator that designated an entry before the call
    designates the same entry after it. *)
Theorem iterators_survive_insert (t : avl) (brk : addr) (v : value_type)
        a b t' brk' :
  wf t brk -> insert t v brk = Some (a, b, t', brk') ->
  forall it e, In (it, e) (inorder (data t)) ->
               deref t it = Some e /\ deref t' it = Some e.
Proof.
  intros W H it e Hin. unfold insert in H.
  destruct (inserter_wf _ _ _ _ _ _ _ W H) as [W' _].
  pose proof (inserter_entries_kept _ _ _ _ _ _ _ W H _ Hin) as Hin'.
  destruct (entry_deref t brk it e W Hin) as (p & Lp & _ & Vp & _).
  destruct (entry_deref t' brk' it e W' Hin') as (p' & Lp' & _ & Vp' & _).
  unfold deref. rewrite Lp, Lp'. cbn [option_map]. now rewrite Vp, Vp'.
Qed.

(** ** Removal and lookup *)

Lemma erased_key_gone (k : Key) (v : Value) (pre post : list value_type) :
  StronglySorted Z.lt (map fst (pre ++ (k, v) :: post)) ->
  ~ In k (map fst (pre ++ post)).
Proof.
  rewrite !map_app. cbn [map fst]. intros H.
  apply ssorted_app in H. destruct H as (_ & H2 & H3).
  apply ssorted_cons_inv in H2. destruct H2 as [_ H4].
  intros Hin. apply in_app_or in Hin. destruct Hin as [Hin|Hin].
  - specialize (H3 k k Hin (or_introl eq_refl)). lia.
  - specialize (H4 k Hin). lia.
Qed.

Lemma others_kept (k : Key) (v : Value) (pre post : list value_type)
      (e : value_type) :
  fst e <> k -> (In e (pre ++ (k, v) :: post) <-> In e (pre ++ post)).
Proof.
  intros Hne. rewrite !in_app_iff. cbn [In]. split.
  - intros [H|[H|H]]; auto. subst e. now contradiction Hne.
  - intros [H|H]; auto.
Qed.

(** X5.  After [erase(k)] of a stored key on a tree that satisfies the
    invariants, [find(k)] is [end()] and [count(k)] is 0, while every
    entry with another key is still there, and no other has appeared. *)
Theorem erase_then_find (t : avl) (brk : addr) (k : Key) :
  wf t brk -> In k (keys t) ->
  exists t',
    erase_key t k = Some (1, t') /\
    find t' k = Some (end_ t') /\ count t' k = Some 0 /\
    forall e, fst e <> k -> (In e (entries t) <-> In e (entries t')).
Proof.
  intros W Hin.
  destruct (eraser_found t brk k W Hin)
    as (n & sib & t' & pre & v & post & F & I & _ & Er & E1 & E2 & W').
  exists t'. split.
  - unfold erase_key. rewrite F, I, Er. reflexivity.
  - assert (Hout : ~ In k (keys t')).
    { unfold keys. rewrite E2. apply (erased_key_gone k v).
      pose proof (wf_bst _ _ W) as Hb. unfold bst, keys in Hb.
      rewrite E1 in Hb. exact Hb. }
    destruct (find_absent t' brk k W' Hout) as [Hf Hc].
    split; [exact Hf|]. split; [exact Hc|].
    intros e Hne. rewrite E1, E2. now apply others_kept.
Qed.

(** X6.  [erase(position)] acts on the key it reads at the position: when
    that key is stored, the call returns and leaves the tree that
    [erase(key)] leaves; when it is not, the call throws
    [std::out_of_range]. *)
Theorem erase_at_position (t : avl) (brk : addr) (pos : iterator)
        (k : Key) (v : Value) :
  wf t brk -> deref t pos = Some (k, v) ->
  (In k (keys t) ->
   exists it t', erase t pos = Returns (it, t') /\
                 erase_key t k = Some (1, t') /\ wf t' brk) /\
  (~ In k (keys t) -> erase t pos = Throws_out_of_range).
Proof.
  intros W D. unfold erase. rewrite D. cbn [fst]. split.
  - intros Hin.
    destruct (eraser_found t brk k W Hin)
      as (n & sib & t' & pre & v' & post & F & I & _ & Er & _ & _ & W').
    exists sib, t'. unfold erase_key. rewrite F, I, Er.
    unfold is_internal in I. apply negb_true_iff in I. rewrite I. auto.
  - intros Hout. destruct (finder_absent t brk k W Hout) as (n & F & X).
    now rewrite F, X.
Qed.

(** The super-root keeps the key it was constructed with. *)
Lemma reachable_root_key (t : avl) (brk : addr) :
  reachable t brk -> fst (value_of (root t)) = 0%Z.
Proof.
  induction 1 as [brk|t brk brk' _ IH Hle|t brk v it b t' brk' Hr IH Hi
                 |t brk a w _ IH|t brk pos it t' Hr IH He
                 |t brk k n t' Hr IH He|t brk _ _|t brk junk _ IH].
  - reflexivity.
  - exact IH.
  - apply reachable_wf in Hr.
    destruct (wf_rooted _ _ Hr) as (a0 & l & v0 & h0 & ra & rv & rh & E).
    destruct (inserter_result _ _ _ _ _ _ _ _ _ E Hi)
      as (c & m & _ & _ & [(_ & _ & R)|(_ & l' & R & _)]);
      injection R as _ _ -> _; [exact IH|]. cbn. now rewrite E in IH.
  - cbn [root]. destruct (root t); cbn in *;
      match goal with |- context [if ?c then _ else _] => destruct c end;
      exact IH.
  - apply reachable_wf in Hr. unfold erase in He.
    destruct (deref t pos) as [v|]; [|discriminate].
    destruct (finder t (fst v)) as [p|] eqn:F; [|discriminate].
    destruct (is_external (snd p)) eqn:X; [discriminate|].
    destruct (eraser t p) as [[sib t0]|] eqn:Er; [|discriminate].
    injection He as _ <-.
    assert (I : is_internal (snd p) = true)
      by (unfold is_internal; now rewrite X).
    destruct (eraser_found t brk (fst v) Hr
                (found_in_keys t brk (fst v) p Hr F I))
      as (n0 & sib0 & t1 & _ & _ & _ & F0 & _ & _ & Er0 & _).
    rewrite F in F0. injection F0 as <-. rewrite Er in Er0.
    injection Er0 as _ ->.
    destruct (wf_rooted _ _ Hr) as (a0 & l & v0 & h0 & ra & rv & rh & E).
    destruct (finder_rooted t (fst v) _ _ _ _ _ E) as (c & m & F1 & _).
    rewrite F in F1. injection F1 as ->.
    destruct (eraser_result t c (Frame L a0 v0 h0 (External ra rv rh)) m)
      as (s1 & l' & _ & _ & _ & _ & Er1 & _); [exact I|].
    rewrite Er in Er1. injection Er1 as _ ->. cbn. now rewrite E in IH.
  - apply reachable_wf in Hr. unfold erase_key in He.
    destruct (finder t k) as [p|] eqn:F; [|discriminate].
    destruct (is_internal (snd p)) eqn:I.
    + destruct (eraser t p) as [[sib t0]|] eqn:Er; [|discriminate].
      injection He as _ <-.
      destruct (wf_rooted _ _ Hr) as (a0 & l & v0 & h0 & ra & rv & rh & E).
      destruct (finder_rooted t k _ _ _ _ _ E) as (c & m & F1 & _).
      rewrite F in F1. injection F1 as ->.
      destruct (eraser_result t c (Frame L a0 v0 h0 (External ra rv rh)) m)
        as (s1 & l' & _ & _ & _ & _ & Er1 & _); [exact I|].
      rewrite Er in Er1. injection Er1 as _ ->. cbn. now rewrite E in IH.
    + injection He as _ <-. exact IH.
  - reflexivity.
  - unfold avl_copy. destruct (root t) as [s v h|s l v h r]; cbn [copy_node].
    + exact IH.
    + destruct (copy_node junk l (brk + 1)) as [l' b1].
      destruct (copy_node junk r b1) as [r' b2]. exact IH.
Qed.

(** X7.  In every reachable state, [erase(end())] reads the key 0 that the
    super-root was constructed with: it throws [std::out_of_range] when 0
    is not a key of the tree, and removes the entry of key 0 when it is. *)
Theorem erase_end (t : avl) (brk : addr) :
  reachable t brk ->
  (In 0%Z (keys t) ->
   exists it t', erase t (end_ t) = Returns (it, t') /\
                 erase_key t 0%Z = Some (1, t')) /\
  (~ In 0%Z (keys t) -> erase t (end_ t) = Throws_out_of_range).
Proof.
  intros Hr. pose proof (reachable_root_key t brk Hr) as Hk.
  apply reachable_wf in Hr.
  assert (D : deref t (end_ t) = Some (0%Z, snd (value_of (root t)))).
  { unfold deref, end_, locate.
    destruct (root t) as [s v h|s l v h r]; cbn [locate_in addr_of];
      rewrite N.eqb_refl; cbn in *; rewrite <- Hk; now destruct v. }
  unfold erase. rewrite D. cbn [fst]. split.
  - intros Hin.
    destruct (eraser_found t brk 0%Z Hr Hin)
      as (n & sib & t' & pre & v' & post & F & I & _ & Er & _ & _ & W').
    exists sib, t'. unfold erase_key. rewrite F, I, Er.
    unfold is_internal in I. apply negb_true_iff in I. rewrite I. auto.
  - intros Hout. destruct (finder_absent t brk 0%Z Hr Hout) as (n & F & X).
    now rewrite F, X.
Qed.

(** ** [operator[]] and assignment through the reference *)

Lemma store_inorder (a : addr) (w : Value) (n : node) :
  inorder (store a w n) =
  map (fun x => if fst x =? a then (fst x, (fst (snd x), w)) else x)
      (inorder n).
Proof.
  induction n as [s v h|s l IHl v h r IHr]; [reflexivity|].
  cbn [store]. rewrite !inorder_Internal, map_app, IHl. cbn [map fst snd].
  rewrite IHr. now destruct (s =? a).
Qed.

(** The internal nodes among distinct nodes are distinct. *)
Lemma internal_addrs_nodup (cs : list cell) :
  NoDup (map cell_addr cs) ->
  NoDup (map cell_addr (filter cell_internal cs)).
Proof.
  induction cs as [|x cs IH]; cbn [map filter]; intros H; [constructor|].
  apply NoDup_cons_iff in H. destruct H as [Hx Hn].
  destruct (cell_internal x); [|now apply IH].
  cbn [map]. apply NoDup_cons_iff. split; [|now apply IH].
  intros Hin. apply Hx. apply in_map_iff in Hin.
  destruct Hin as (y & E & Hy). apply filter_In in Hy.
  apply in_map_iff. exists y. tauto.
Qed.

Lemma addr_unique (t : avl) (brk : addr) (x y : addr * value_type) :
  wf t brk -> In x (inorder (data t)) -> In y (inorder (data t)) ->
  fst x = fst y -> x = y.
Proof.
  intros W Hx Hy E.
  assert (Hn : NoDup (map fst (inorder (data t)))).
  { destruct W as [(a0 & l & v0 & h0 & ra & rv & rh & Er) _ _ Hn _].
    unfold data. rewrite Er in *. rewrite addrs_Internal in Hn.
    apply NoDup_app_remove_r in Hn. unfold inorder. rewrite map_map.
    now apply internal_addrs_nodup. }
  revert Hn Hx Hy. generalize (inorder (data t)).
  induction l as [|z l IH]; intros Hn Hx Hy; [destruct Hx|].
  cbn [map] in Hn. inversion Hn as [|? ? Hz Hn']; subst.
  destruct Hx as [->|Hx], Hy as [->|Hy]; auto.
  - exfalso. apply Hz. rewrite E. now apply in_map.
  - exfalso. apply Hz. rewrite <- E. now apply in_map.
Qed.

Lemma data_store (t : avl) (a : addr) (w : Value) :
  rooted t ->
  data (Avl (store a w (root t)) (sz t)) = store a w (data t).
Proof.
  intros (a0 & l & v0 & h0 & ra & rv & rh & E). unfold data. cbn [root].
  now rewrite E.
Qed.

(** X8.  [m[k] = w]: whenever [operator[]] completes on a tree that
    satisfies the invariants, the assignment through the reference it
    returns makes [find(k)] read [(k, w)]; entries with other keys are
    the ones the tree had before, and the invariants hold again. *)
Theorem assign_then_find (t : avl) (brk : addr) (k : Key) (w : Value)
        a t1 brk1 :
  wf t brk -> subscript t k brk = Some (a, t1, brk1) ->
  let t' := Avl (store a w (root t1)) (sz t1) in
  wf t' brk1 /\ find t' k = Some a /\ deref t' a = Some (k, w) /\
  forall e, fst e <> k -> (In e (entries t) <-> In e (entries t')).
Proof.
  intros W H t'. unfold subscript in H.
  destruct (inserter t (k, EmptyString) brk) as [[[[a' b] t2] brk2]|] eqn:Hi;
    [|discriminate].
  injection H as -> -> ->.
  destruct (inserter_wf _ _ _ _ _ _ _ W Hi) as [W1 _].
  destruct (inserter_returned_entry _ _ _ _ _ _ _ W Hi) as (w0 & Hin & _).
  cbn [fst] in Hin.
  assert (W' : wf t' brk1) by now apply store_wf.
  assert (Hd : data t' = store a (w) (data t1))
    by (apply data_store, W1).
  assert (Hin' : In (a, (k, w)) (inorder (data t'))).
  { rewrite Hd, store_inorder. apply in_map_iff.
    exists (a, (k, w0)). cbn [fst snd]. now rewrite N.eqb_refl. }
  destruct (find_entry t' brk1 k a w W' Hin') as (F & _ & D & _).
  split; [exact W'|]. split; [exact F|]. split; [exact D|].
  intros e Hne.
  assert (S1 : In e (entries t) <-> In e (entries t1)).
  { pose proof (wf_rooted _ _ W) as (a0 & l & v0 & h0 & ra & rv & rh & E).
    destruct (inserter_result _ _ _ _ _ _ _ _ _ E Hi)
      as (c & m & P & _ & [(_ & _ & R)|(X & l' & R & C)]).
    - injection R as _ _ -> _. tauto.
    - injection R as _ _ -> _. rewrite !entries_data. unfold data.
      cbn [root]. rewrite E, C, <- P, cells_plug, (cells_external _ X).
      rewrite !ientries_app. cbn [ientries filter cell_internal snd map app
        cell_entry fst]. rewrite !in_app_iff. cbn [In]. split.
      + intros [?|?]; auto.
      + intros [?|[?|?]]; auto. subst e. now contradiction Hne. }
  rewrite S1. unfold entries. rewrite Hd, store_inorder, map_map.
  rewrite !in_map_iff. split.
  - intros (x & <- & Hx). exists x. split; [|exact Hx]. cbn beta.
    match goal with
    | |- context [N.eqb ?u ?v] => destruct (N.eqb u v) eqn:Ea
    end; [|reflexivity].
    apply N.eqb_eq in Ea. exfalso. apply Hne.
    now rewrite (addr_unique t1 brk1 x (a, (k, w0)) W1 Hx Hin Ea).
  - intros (x & <- & Hx). exists x. split; [|exact Hx]. cbn beta in *.
    match goal with
    | |- context [N.eqb ?u ?v] => destruct (N.eqb u v) eqn:Ea
    end; [|reflexivity].
    apply N.eqb_eq in Ea. exfalso. apply Hne. cbn [snd fst].
    now rewrite (addr_unique t1 brk1 x (a, (k, w0)) W1 Hx Hin Ea).
Qed.

(** ** Backward steps and the two ends *)

Lemma last_or_snoc (e : option ptr) (xs : list ptr) (p : ptr) :
  last_or e (xs ++ [p]) = Some p.
Proof. unfold last_or. now rewrite fold_left_app. Qed.

Lemma last_or_app (e : option ptr) (xs ys : list ptr) :
  last_or e (xs ++ ys) = last_or (last_or e xs) ys.
Proof. unfold last_or. now rewrite fold_left_app. Qed.

Lemma rchain_app (e : option ptr) (xs ys : list ptr) :
  rchain e (xs ++ ys) <-> rchain e xs /\ rchain (last_or e xs) ys.
Proof.
  revert e; induction xs as [|x xs IH]; intros e; cbn [app rchain].
  - cbn. tauto.
  - rewrite IH. cbn [last_or fold_left]. fold (last_or (Some x) xs). tauto.
Qed.

Lemma ptrs_last (n : node) (ctx : list frame) :
  is_internal n = true ->
  exists rest p, ptrs_inorder ctx n = rest ++ [p] /\
                 parent_of (rightmost_loop ctx n) = Some p.
Proof.
  revert ctx; induction n as [|a l _ v h r IHr]; intros ctx H;
    [discriminate|].
  cbn [ptrs_inorder rightmost_loop]. destruct (is_internal r) eqn:Ir.
  - destruct (IHr (Frame R a v h l :: ctx) eq_refl) as (rest & p & -> & Lm).
    exists (ptrs_inorder (Frame L a v h r :: ctx) l ++
            (ctx, Internal a l v h r) :: rest), p.
    split; [|exact Lm]. now rewrite <- app_assoc.
  - destruct r; [|discriminate]. cbn.
    exists (ptrs_inorder (Frame L a v h (External self value height) :: ctx)
              l), (ctx, Internal a l v h (External self value height)).
    split; reflexivity.
Qed.

(** The predecessor function agrees with the in-order sequence. *)
Lemma ptrs_rchain (n : node) (ctx : list frame) :
  rchain (climb_left ctx n) (ptrs_inorder ctx n).
Proof.
  revert ctx; induction n as [|a l IHl v h r IHr]; intros ctx; [exact I|].
  cbn [ptrs_inorder]. apply rchain_app. split.
  - exact (IHl (Frame L a v h r :: ctx)).
  - cbn [rchain]. split; [|exact (IHr (Frame R a v h l :: ctx))].
    destruct (is_internal l) eqn:Il.
    + destruct (ptrs_last l (Frame L a v h r :: ctx) Il)
        as (rest & p & -> & Lm).
      rewrite last_or_snoc. cbn [inorder_prev]. now rewrite Il.
    + destruct l; [|discriminate]. reflexivity.
Qed.

Lemma chain_split (xs : list ptr) (p : ptr) (ys : list ptr)
      (e : option ptr) :
  chain (xs ++ p :: ys) e ->
  inorder_next p = match ys with [] => e | q :: _ => Some q end.
Proof.
  induction xs as [|x xs IH]; cbn [app chain]; intros [H1 H2]; auto.
Qed.

Lemma rchain_split (xs : list ptr) (p : ptr) (ys : list ptr)
      (e : option ptr) :
  rchain e (xs ++ p :: ys) -> inorder_prev p = last_or e xs.
Proof.
  intros H. apply rchain_app in H. destruct H as [_ H]. apply H.
Qed.

(** The pointers to the entries of a tree that satisfies the invariants,
    and what the iterator functions do on them and on the super-root. *)
Lemma tree_ptrs (t : avl) (brk : addr) :
  wf t brk ->
  exists ps,
    map (fun p => (addr_of (snd p), value_of (snd p))) ps
      = inorder (data t) /\
    (forall p, In p ps -> plug (fst p) (snd p) = root t /\ fst p <> []) /\
    NoDup (map ptr_addr ps) /\
    chain ps (Some ([], root t)) /\
    rchain None ps /\
    begin t = Some (match ps with [] => end_ t | p :: _ => ptr_addr p end) /\
    prev t (end_ t) = option_map ptr_addr (last_or None ps) /\
    next t (end_ t) = None.
Proof.
  intros [(a0 & l & v0 & h0 & ra & rv & rh & E) _ _ Hn _].
  set (fr := Frame L a0 v0 h0 (External ra rv rh)).
  assert (T : root t = fill fr l) by exact E.
  exists (ptrs_inorder [fr] l).
  assert (Pe := ptrs_entries l [fr]).
  split; [unfold data; now rewrite E|].
  split; [|split; [|split; [|split; [|split; [|split]]]]].
  - intros p Hp. apply ptrs_valid in Hp. destruct Hp as (c & Ec & P & _).
    rewrite Ec, plug_app, P, T. split; [reflexivity|].
    destruct c; discriminate.
  - replace (map ptr_addr (ptrs_inorder [fr] l))
      with (map fst (inorder l))
      by (rewrite <- Pe, map_map; reflexivity).
    rewrite E, addrs_Internal in Hn. apply NoDup_app_remove_r in Hn.
    unfold inorder. rewrite map_map.
    now apply internal_addrs_nodup.
  - rewrite T. exact (ptrs_chain l [fr]).
  - exact (ptrs_rchain l [fr]).
  - unfold begin. rewrite E.
    change (leftmost ([], Internal a0 l v0 h0 (External ra rv rh)))
      with (leftmost ([fr], l)).
    destruct (is_internal l) eqn:Il.
    + destruct (ptrs_head l [fr] Il) as (p & rest & -> & ->). reflexivity.
    + destruct l; [|discriminate]. cbn. unfold end_. now rewrite E.
  - unfold prev, locate, end_. rewrite E. cbn [locate_in addr_of].
    rewrite N.eqb_refl. cbn [inorder_prev].
    destruct (is_internal l) eqn:Il.
    + destruct (ptrs_last l [fr] Il) as (rest & p & -> & Lm).
      fold fr. rewrite Lm, last_or_snoc. reflexivity.
    + destruct l; [|discriminate]. reflexivity.
  - unfold next, locate, end_. rewrite E. cbn [locate_in addr_of].
    rewrite N.eqb_refl. reflexivity.
Qed.

Section WalkBack.

Variable t : avl.
Hypothesis distinct : NoDup (addrs (root t)).

Lemma prev_valid (p : ptr) :
  plug (fst p) (snd p) = root t ->
  prev t (ptr_addr p) = option_map ptr_addr (inorder_prev p).
Proof.
  intros P. unfold prev, ptr_addr. now rewrite (locate_valid t distinct p P).
Qed.

Lemma deref_valid (p : ptr) :
  plug (fst p) (snd p) = root t ->
  deref t (ptr_addr p) = Some (value_of (snd p)).
Proof.
  intros P. unfold deref, ptr_addr. now rewrite (locate_valid t distinct p P).
Qed.

(** Walking down from a position whose predecessor is the last of [ps]
    until the first of [ps] is reached yields [ps] backwards. *)
Lemma walk_back_chain (ps : list ptr) :
  forall (e : option ptr) (h : ptr) (cur : iterator) (fuel : nat),
    (forall p, In p ps -> plug (fst p) (snd p) = root t) ->
    NoDup (map ptr_addr ps) ->
    rchain e ps ->
    hd_error ps = Some h ->
    prev t cur = option_map ptr_addr (last_or None ps) ->
    (cur =? ptr_addr h) = false ->
    (length ps < fuel)%nat ->
    walk_back fuel t (ptr_addr h) cur =
    Some (rev (map (fun p => value_of (snd p)) ps)).
Proof.
  induction ps as [|p qs IH] using rev_ind;
    intros e h cur fuel V Hn Hc Hh Hp Hs Hf; [discriminate|].
  rewrite length_app in Hf. cbn [length] in Hf.
  destruct fuel as [|fuel]; [lia|]. cbn [walk_back].
  rewrite Hs, Hp, last_or_snoc. cbn [option_map].
  rewrite (deref_valid p) by (apply V, in_or_app; right; now left).
  rewrite map_app, rev_app_distr. cbn [map rev app].
  apply rchain_app in Hc. destruct Hc as [Hq Hl]. cbn [rchain] in Hl.
  destruct Hl as [Hl _].
  rewrite map_app in Hn. cbn [map] in Hn.
  destruct qs as [|q qs].
  - cbn in Hh. injection Hh as <-.
    destruct fuel as [|fuel]; [cbn in Hf; lia|]. cbn [walk_back].
    now rewrite N.eqb_refl.
  - cbn [app hd_error] in Hh. injection Hh as ->.
    rewrite (IH e h (ptr_addr p) fuel); [reflexivity| | |exact Hq|reflexivity
                                         | | |lia].
    + intros x Hx. apply V, in_or_app. now left.
    + now apply NoDup_remove_1 in Hn; rewrite app_nil_r in Hn.
    + rewrite (prev_valid p) by (apply V, in_or_app; right; now left).
      rewrite Hl.
      destruct (exists_last (l := h :: qs)) as (xs & x & Ex);
        [discriminate|].
      rewrite Ex, !last_or_snoc. reflexivity.
    + apply N.eqb_neq. intros Eq. apply NoDup_remove_2 in Hn.
      apply Hn. rewrite app_nil_r. cbn [map]. left. now symmetry.
Qed.

End WalkBack.

(** X9. The loop over the reverse iterators, from [rbegin()] to [rend()],
    visits every entry once, in descending key order: it yields the entries
    in the reverse of the forward order, whenever the tree satisfies the
    invariants. *)
Theorem backward_iteration (t : avl) (brk : addr) (fuel : nat) :
  wf t brk -> (length (entries t) < fuel)%nat ->
  traverse_back fuel t = Some (rev (entries t)).
Proof.
  intros W Hf.
  destruct (tree_ptrs t brk W)
    as (ps & Ei & V & Hn & _ & Hr & Hb & Hp & _).
  assert (Ee : entries t = map (fun p => value_of (snd p)) ps).
  { unfold entries. rewrite <- Ei, map_map. reflexivity. }
  unfold traverse_back, rend, rbegin. rewrite Hb.
  destruct ps as [|h ps].
  - rewrite Ee. destruct fuel as [|fuel]; [cbn in Hf; lia|].
    cbn [walk_back]. fold (end_ t). now rewrite N.eqb_refl.
  - rewrite Ee.
    apply (walk_back_chain t (wf_nodup _ _ W) (h :: ps) None h).
    + intros p Hin. now apply V.
    + exact Hn.
    + exact Hr.
    + reflexivity.
    + exact Hp.
    + fold (end_ t). rewrite N.eqb_sym.
      destruct (V h (or_introl eq_refl)) as [P Hc].
      exact (below_root_addr t (wf_nodup _ _ W) h P Hc).
    + rewrite Ee, length_map in Hf. exact Hf.
Qed.

(** X10. On the position of an entry, [++] and [--] undo each other: if
    [++it] gives [j] (possibly [end()]) then [--j] gives [it] back, and if
    [--it] gives [j] then [++j] gives [it] back. *)
Theorem next_prev_inverse (t : avl) (brk : addr) (it : iterator)
        (e : value_type) :
  wf t brk -> In (it, e) (inorder (data t)) ->
  (exists j, next t it = Some j /\ prev t j = Some it) /\
  (forall j, prev t it = Some j -> next t j = Some it).
Proof.
  intros W Hin.
  destruct (tree_ptrs t brk W)
    as (ps & Ei & V & Hn & Hc & Hr & _ & Hp & _).
  pose proof (wf_nodup _ _ W) as D.
  rewrite <- Ei in Hin. apply in_map_iff in Hin.
  destruct Hin as (p & Ep & Hin). injection Ep as Ea _.
  apply in_split in Hin. destruct Hin as (xs & ys & ->).
  assert (Vp : plug (fst p) (snd p) = root t).
  { apply V, in_or_app. right. now left. }
  pose proof (chain_split _ _ _ _ Hc) as Nx.
  pose proof (rchain_split _ _ _ _ Hr) as Pv.
  change (addr_of (snd p)) with (ptr_addr p) in Ea. subst it.
  split.
  - unfold next. unfold ptr_addr at 1.
    rewrite (locate_valid t D p Vp), Nx.
    destruct ys as [|q ys].
    + exists (end_ t). split; [reflexivity|].
      rewrite Hp, last_or_snoc. reflexivity.
    + exists (ptr_addr q). split; [reflexivity|].
      assert (Vq : plug (fst q) (snd q) = root t).
      { apply V, in_or_app. right. right. now left. }
      rewrite (prev_valid t D q Vq).
      replace (xs ++ p :: q :: ys) with ((xs ++ [p]) ++ q :: ys) in Hr
        by now rewrite <- app_assoc.
      rewrite (rchain_split _ _ _ _ Hr), last_or_snoc. reflexivity.
  - intros j Hj. rewrite (prev_valid t D p Vp), Pv in Hj.
    destruct xs as [|x xs] using rev_ind; [discriminate|]. clear IHxs.
    rewrite last_or_snoc in Hj. injection Hj as <-.
    assert (Vx : plug (fst x) (snd x) = root t).
    { apply V, in_or_app. left. apply in_or_app. right. now left. }
    unfold next. unfold ptr_addr at 1. rewrite (locate_valid t D x Vx).
    rewrite <- app_assoc in Hc. cbn [app] in Hc.
    rewrite (chain_split _ _ _ _ Hc). reflexivity.
Qed.

(** X11. The two ends cannot be passed: [++end()] and [--begin()] both
    dereference the null parent of the super-root, on every tree that
    satisfies the invariants. *)
Theorem step_past_ends (t : avl) (brk : addr) :
  wf t brk ->
  next t (end_ t) = None /\
  (forall b, begin t = Some b -> prev t b = None).
Proof.
  intros W.
  destruct (tree_ptrs t brk W)
    as (ps & _ & V & _ & _ & Hr & Hb & Hp & Hne).
  split; [exact Hne|]. intros b Eb. rewrite Hb in Eb. injection Eb as <-.
  destruct ps as [|h ps].
  - rewrite Hp. reflexivity.
  - destruct (V h (or_introl eq_refl)) as [P _].
    rewrite (prev_valid t (wf_nodup _ _ W) h P).
    cbn [rchain] in Hr. destruct Hr as [-> _]. reflexivity.
Qed.

(** ** Rebalancing *)

(** X13. [rebalance] may rotate, but it moves no node out of its place in
    the in-order sequence: whenever the loop completes, the nodes of the
    tree (addresses, values, and which of them are internal) read in order
    exactly as before, and the node on top is still the super-root. *)
Theorem rebalance_keeps_order (ctx : list frame) (z r : node) :
  rebalance ctx z = Some r ->
  cells r = cells (plug ctx z) /\ addr_of r = addr_of (plug ctx z).
Proof.
  intros H. destruct ctx as [|f ctx] using rev_ind; [discriminate|].
  clear IHctx. apply rebalance_cells in H. destruct H as (m & -> & Hm).
  rewrite plug_app. cbn [plug]. rewrite !cells_fill, Hm.
  split; [reflexivity|]. unfold fill. now destruct (hole f).
Qed.

Lemma to_int_diff (hl hr : N) :
  hl < size_max -> hr < size_max ->
  to_int (wrap (hl + size_max - hr)) =
  ((Z.of_N hl - Z.of_N hr + 2 ^ 31) mod 2 ^ 32 - 2 ^ 31)%Z.
Proof.
  intros Hl Hr. unfold to_int, wrap. f_equal.
  rewrite N2Z.inj_mod, N2Z.inj_sub, N2Z.inj_add by lia.
  set (d := (Z.of_N hl - Z.of_N hr)%Z).
  replace (Z.of_N hl + Z.of_N size_max - Z.of_N hr)%Z
    with (d + 1 * Z.of_N size_max)%Z by (unfold d; lia).
  rewrite Z.mod_add by discriminate.
  change (Z.of_N size_max) with (2 ^ 32 * 2 ^ 32)%Z.
  rewrite Z.rem_mul_r by lia.
  replace (d mod 2 ^ 32 + 2 ^ 32 * ((d / 2 ^ 32) mod 2 ^ 32) + 2 ^ 31)%Z
    with (d mod 2 ^ 32 + 2 ^ 31 + ((d / 2 ^ 32) mod 2 ^ 32) * 2 ^ 32)%Z
    by lia.
  rewrite Z.mod_add by discriminate.
  rewrite Z.add_mod_idemp_l by discriminate. reflexivity.
Qed.

(** X15. [is_balanced] looks at the difference of the two stored heights
    through an [int].  When the heights differ by less than [2^32 - 1] the
    answer is the intended one, [|hl - hr| <= 1]; when they differ by a
    multiple of [2^32] the node is reported balanced. *)
Theorem is_balanced_spec a (l : node) v h (r : node) :
  height_of l < size_max -> height_of r < size_max ->
  let d := (Z.of_N (height_of l) - Z.of_N (height_of r))%Z in
  ((Z.abs d < 2 ^ 32 - 1)%Z ->
   is_balanced (Internal a l v h r) = Some (Z.abs d <=? 1)%Z) /\
  (forall q, d = (2 ^ 32 * q)%Z ->
             is_balanced (Internal a l v h r) = Some true).
Proof.
  intros Hl Hr d. cbn [is_balanced]. rewrite (to_int_diff _ _ Hl Hr).
  fold d. split.
  - intros Hd. f_equal.
    pose proof (Z.div_mod (d + 2 ^ 31) (2 ^ 32) ltac:(discriminate)) as E.
    pose proof (Z.mod_pos_bound (d + 2 ^ 31) (2 ^ 32) eq_refl) as B.
    revert E B. generalize ((d + 2 ^ 31) mod 2 ^ 32)%Z as m.
    generalize ((d + 2 ^ 31) / 2 ^ 32)%Z as q. intros q m E B.
    destruct (Z.leb_spec (-1) (m - 2 ^ 31));
      destruct (Z.leb_spec (m - 2 ^ 31) 1);
      destruct (Z.leb_spec (Z.abs d) 1); cbn [andb]; try reflexivity;
      exfalso; lia.
  - intros q ->. f_equal.
    replace (2 ^ 32 * q + 2 ^ 31)%Z with (2 ^ 31 + q * 2 ^ 32)%Z by lia.
    rewrite Z.mod_add by discriminate. reflexivity.
Qed.

(** ** The first and the last entry *)

Lemma ssorted_head_min (a : Z) (l : list Z) :
  StronglySorted Z.lt (a :: l) -> forall k, In k (a :: l) -> (a <= k)%Z.
Proof.
  intros H k [<-|Hk]; [lia|]. apply ssorted_cons_inv in H.
  destruct H as [_ H]. apply H in Hk. lia.
Qed.

Lemma ssorted_last_max (l : list Z) (a : Z) :
  StronglySorted Z.lt (l ++ [a]) -> forall k, In k (l ++ [a]) -> (k <= a)%Z.
Proof.
  intros H k Hk. apply ssorted_app in H. destruct H as (_ & _ & H).
  apply in_app_or in Hk. destruct Hk as [Hk|[<-|[]]]; [|lia].
  specialize (H k a Hk (or_introl eq_refl)). lia.
Qed.

(** X16. On a non-empty tree that satisfies the invariants, [begin()]
    designates the first entry of the in-order sequence, whose key is the
    smallest, and [*rbegin()] (one step back from the super-root) is the last
    entry, whose key is the largest. *)
Theorem extremes (t : avl) (brk : addr) :
  wf t brk -> entries t <> [] ->
  (exists b e, begin t = Some b /\ deref t b = Some e /\
               hd_error (entries t) = Some e /\
               forall k, In k (keys t) -> (fst e <= k)%Z) /\
  (exists j e, prev t (rbegin t) = Some j /\ deref t j = Some e /\
               hd_error (rev (entries t)) = Some e /\
               forall k, In k (keys t) -> (k <= fst e)%Z).
Proof.
  intros W Hne.
  destruct (tree_ptrs t brk W)
    as (ps & Ei & V & _ & _ & _ & Hb & Hp & _).
  pose proof (wf_nodup _ _ W) as D. pose proof (wf_bst _ _ W) as B.
  assert (Ee : entries t = map (fun p => value_of (snd p)) ps).
  { unfold entries. rewrite <- Ei, map_map. reflexivity. }
  unfold bst, keys in B. unfold keys.
  assert (Hps : ps <> []) by (intros ->; now apply Hne).
  split.
  - destruct ps as [|h ps]; [now elim Hps|].
    exists (ptr_addr h), (value_of (snd h)).
    destruct (V h (or_introl eq_refl)) as [P _].
    split; [exact Hb|]. split; [exact (deref_valid t D h P)|].
    rewrite Ee in *. cbn [map hd_error] in *. split; [reflexivity|].
    now apply ssorted_head_min.
  - destruct (exists_last Hps) as (xs & p & ->).
    exists (ptr_addr p), (value_of (snd p)).
    assert (P : plug (fst p) (snd p) = root t).
    { apply V, in_or_app. right. now left. }
    rewrite last_or_snoc in Hp.
    split; [exact Hp|]. split; [exact (deref_valid t D p P)|].
    rewrite Ee in *. rewrite !map_app in *. cbn [map] in *.
    rewrite rev_app_distr. split; [reflexivity|].
    now apply ssorted_last_max.
Qed.

(** ** Insertion followed by removal *)

Lemma split_unique (k : Key) (v v' : Value)
      (pre post pre' post' : list value_type) :
  NoDup (map fst (pre ++ (k, v) :: post)) ->
  pre ++ (k, v) :: post = pre' ++ (k, v') :: post' ->
  pre = pre' /\ post = post'.
Proof.
  revert pre'; induction pre as [|x pre IH]; intros pre' Hn E.
  - destruct pre' as [|y pre']; cbn [app] in E.
    + injection E as _ ->. auto.
    + exfalso. injection E as <- E. cbn [app map fst] in Hn.
      inversion Hn as [|? ? Hk _]; subst. apply Hk. rewrite map_app.
      apply in_or_app. right. now left.
  - destruct pre' as [|y pre']; cbn [app] in E.
    + exfalso. injection E as -> E. cbn [app map fst] in Hn.
      inversion Hn as [|? ? Hk _]; subst. apply Hk. rewrite map_app.
      apply in_or_app. right. now left.
    + injection E as <- E. cbn [app map] in Hn.
      inversion Hn as [|? ? _ Hn']; subst.
      destruct (IH pre' Hn' E) as [-> ->]. auto.
Qed.

(** X17. Inserting an entry whose key is absent and then erasing that key
    gives back the entries and the size the tree had, whenever the
    insertion completes on a tree that satisfies the invariants. *)
Theorem insert_then_erase (t : avl) (brk : addr) (v : value_type)
        a b t' brk' :
  wf t brk -> ~ In (fst v) (keys t) ->
  insert t v brk = Some (a, b, t', brk') ->
  b = true /\
  exists t'', erase_key t' (fst v) = Some (1, t'') /\
              entries t'' = entries t /\ size t'' = size t /\ wf t'' brk'.
Proof.
  intros W Hout H. unfold insert in H. pose proof W as W0.
  apply wf_view in W0.
  destruct W0 as (a0 & l & v0 & h0 & ra & rv & rh & E & Hb & Hs & Hn & Ha).
  assert (K : keys t = ikeys (cells l))
    by (rewrite keys_data; unfold data; now rewrite E).
  destruct (inserter_wf _ _ _ _ _ _ _ W H) as [W' _].
  destruct (inserter_result _ _ _ _ _ _ _ _ _ E H)
    as (c & m & P & _ & [(Im & Ik & _)|(X & l' & R & C)]).
  - exfalso. apply Hout. rewrite K, <- P, cells_plug, !ikeys_app.
    apply in_or_app; right. apply in_or_app; left.
    destruct m as [|am ml vm hm mr]; [discriminate|].
    rewrite ikeys_cells_Internal. apply in_or_app; right. left. exact Ik.
  - injection R as -> -> -> ->. split; [reflexivity|].
    assert (E0 : entries t =
                 ientries (ctx_before c) ++ ientries (ctx_after c)).
    { rewrite entries_data. unfold data. rewrite E, <- P.
      now rewrite cells_plug, (cells_external _ X), !ientries_app. }
    set (t' := Avl (Internal a0 l' v0 h0 (External ra rv rh))
                   (wrap (sz t + 1))) in *.
    assert (E1 : entries t' =
                 ientries (ctx_before c) ++ v :: ientries (ctx_after c)).
    { rewrite entries_data. unfold data, t'. cbn [root]. rewrite C.
      now rewrite !ientries_app. }
    assert (Hin : In (fst v) (keys t')).
    { unfold keys. rewrite E1, map_app. apply in_or_app. right. now left. }
    destruct (eraser_found t' (brk + 2) (fst v) W' Hin)
      as (n & sib & t'' & pre & w & post & F & In' & _ & Er & Ep & Ep' & W'').
    exists t''. split.
    + unfold erase_key. now rewrite F, In', Er.
    + pose proof (wf_bst _ _ W') as B. unfold bst, keys in B.
      apply ssorted_nodup in B. rewrite E1 in B, Ep.
      destruct v as [k x]. cbn [fst] in *.
      destruct (split_unique k x w _ _ _ _ B Ep) as [<- <-].
      assert (Ee : entries t'' = entries t) by now rewrite Ep', E0.
      split; [exact Ee|]. split; [|exact W''].
      unfold size. rewrite (wf_size _ _ W''), (wf_size _ _ W). now rewrite Ee.
Qed.

(** ** clear *)

(** X19. [clear()] leaves an empty tree that satisfies the invariants,
    whatever the tree held before; the next [insert] completes and the
    tree then holds exactly the inserted entry. *)
Theorem clear_then_insert (t : avl) (brk : addr) (v : value_type) :
  let c := clear t brk in
  wf (fst c) (snd c) /\ entries (fst c) = [] /\ size (fst c) = 0 /\
  exists a t' brk',
    insert (fst c) v (snd c) = Some (a, true, t', brk') /\
    entries t' = [v] /\ size t' = 1 /\ wf t' brk'.
Proof.
  cbn zeta. split; [exact (avl_new_wf brk)|].
  split; [reflexivity|]. split; [reflexivity|].
  assert (H : exists a t' brk',
             insert (fst (clear t brk)) v (snd (clear t brk))
             = Some (a, true, t', brk') /\ entries t' = [v] /\ size t' = 1).
  { do 3 eexists. split; [|split].
    - unfold insert, inserter, clear, avl_new. cbn. reflexivity.
    - reflexivity.
    - reflexivity. }
  destruct H as (a & t' & brk' & H & He & Hs).
  exists a, t', brk'. split; [exact H|]. split; [exact He|].
  split; [exact Hs|].
  unfold insert in H.
  exact (proj1 (inserter_wf _ _ _ _ _ _ _ (avl_new_wf brk) H)).
Qed.

(** ** Removal of a node with two internal children *)

Lemma locate_in_sound (a : addr) (n : node) :
  forall (ctx : list frame) (p : ptr),
    locate_in a ctx n = Some p ->
    addr_of (snd p) = a /\
    exists c, fst p = c ++ ctx /\ plug c (snd p) = n.
Proof.
  induction n as [s v h|s l IHl v h r IHr]; intros ctx p H;
    cbn [locate_in addr_of] in H.
  - destruct (s =? a) eqn:E; [|discriminate]. injection H as <-.
    apply N.eqb_eq in E. split; [exact E|]. now exists [].
  - destruct (s =? a) eqn:E.
    + injection H as <-. apply N.eqb_eq in E. split; [exact E|].
      now exists [].
    + destruct (locate_in a (Frame L s v h r :: ctx) l) as [q|] eqn:El.
      * injection H as <-. destruct (IHl _ _ El) as (A & c & Ec & P).
        split; [exact A|]. exists (c ++ [Frame L s v h r]).
        rewrite <- app_assoc, plug_app, P. now split.
      * destruct (IHr _ _ H) as (A & c & Ec & P).
        split; [exact A|]. exists (c ++ [Frame R s v h l]).
        rewrite <- app_assoc, plug_app, P. now split.
Qed.

Lemma plug_internal (c : list frame) (n : node) :
  is_internal n = true -> is_internal (plug c n) = true.
Proof.
  revert n; induction c as [|f c IH]; intros n H; cbn [plug]; [exact H|].
  apply IH. unfold fill. now destruct (hole f).
Qed.

(** A position other than [end()] lies in the data tree. *)
Lemma located_below (t : avl) (brk : addr) (pos : iterator) (p : ptr) :
  wf t brk -> locate t pos = Some p -> pos <> end_ t ->
  is_internal (snd p) = true ->
  addr_of (snd p) = pos /\ plug (fst p) (snd p) = root t /\
  exists c a0 v0 h0 r0,
    fst p = c ++ [Frame L a0 v0 h0 r0] /\
    root t = Internal a0 (plug c (snd p)) v0 h0 r0.
Proof.
  intros W Lp Hne Ip. unfold locate in Lp.
  destruct (locate_in_sound _ _ _ _ Lp) as (A & c & Ec & P).
  rewrite app_nil_r in Ec. subst c. split; [exact A|]. split; [exact P|].
  destruct (wf_rooted _ _ W) as (a0 & l0 & v0 & h0 & ra & rv & rh & E).
  destruct p as [ctx n]. cbn [fst snd] in *.
  destruct ctx as [|fr c _] using rev_ind.
  - exfalso. apply Hne. cbn [plug] in P. unfold end_. now rewrite <- P.
  - exists c, a0, v0, h0, (External ra rv rh).
    rewrite plug_app in P. cbn [plug] in P. rewrite E in P.
    pose proof (plug_internal c n Ip) as Ic.
    destruct fr as [d fa fv fh fo]. unfold fill in P.
    cbn [hole f_self f_value f_height f_other] in P.
    destruct d; injection P as -> El -> -> Er.
    + subst fo. rewrite E, El. split; reflexivity.
    + rewrite Er in Ic. discriminate.
Qed.

(** X18. Erasing through an iterator whose node has two internal children
    does not remove that node: the entry of the in-order successor is
    copied into it and the successor's node is the one deleted.  After the
    call the erased iterator reads the successor's entry, and the iterator
    that designated the successor designates no node of the tree. *)
Theorem erase_relocates_successor (t : avl) (brk : addr) (pos : iterator)
        (ctx : list frame) a (l : node) v h (r : node) :
  wf t brk ->
  locate t pos = Some (ctx, Internal a l v h r) -> pos <> end_ t ->
  is_internal l = true -> is_internal r = true ->
  exists j e it t',
    next t pos = Some j /\ deref t j = Some e /\
    erase t pos = Returns (it, t') /\
    deref t' pos = Some e /\ deref t' j = None.
Proof.
  intros W Lp Hne Il Ir.
  destruct (located_below t brk pos _ W Lp Hne eq_refl)
    as (A & P & c & a0 & v0 & h0 & r0 & Ec & E).
  cbn [fst snd addr_of] in A, P, Ec, E. subst a ctx.
  set (fr := Frame L a0 v0 h0 r0) in *.
  pose proof (wf_nodup _ _ W) as D.
  destruct (leftmost_internal r Ir)
    as (c1 & wa & e & wv & wh & wr & Lm & Xe & Pr & F).
  assert (Xl : is_external l = false)
    by (unfold is_internal in Il; now apply negb_true_iff in Il).
  assert (Xr : is_external r = false)
    by (unfold is_internal in Ir; now apply negb_true_iff in Ir).
  (* the entry and the pointer [finder] reaches *)
  assert (Hin : In (pos, v) (inorder (data t))).
  { unfold data. rewrite E.
    exact (in_cells_inorder c (Internal pos l v h r) eq_refl). }
  destruct v as [k x].
  destruct (find_entry t brk k pos x W Hin) as (Fd & _ & _ & _).
  assert (Fn : finder t k = Some (c ++ [fr], Internal pos l (k, x) h r)).
  { destruct (finder_rooted t k _ _ _ _ _ E) as (c' & m & Fm & Pm & _).
    unfold find in Fd. rewrite Fm in Fd. cbn [snd] in Fd. rewrite Fm.
    destruct (is_internal m) eqn:Im.
    - injection Fd as Am.
      assert (V : plug (fst (c' ++ [fr], m)) (snd (c' ++ [fr], m)) = root t).
      { cbn [fst snd]. rewrite plug_app, Pm, E. reflexivity. }
      pose proof (locate_valid t D _ V) as L2. cbn [snd] in L2.
      rewrite Am, Lp in L2. symmetry. exact L2.
    - exfalso. apply Hne. now injection Fd as ->. }
  (* the successor *)
  set (w := Internal wa e wv wh wr) in *.
  assert (Nx : inorder_next (c ++ [fr], Internal pos l (k, x) h r) =
               Some (c1 ++ Frame R pos (k, x) h l :: c ++ [fr], w)).
  { cbn [inorder_next]. now rewrite Ir, Lm. }
  assert (Vw : plug (c1 ++ Frame R pos (k, x) h l :: c ++ [fr]) w = root t).
  { rewrite plug_app. cbn [plug]. rewrite Pr. unfold fill at 1.
    cbn [hole f_self f_value f_height f_other]. exact P. }
  (* the call *)
  set (l' := plug (c1 ++ Frame R pos wv h l :: c) wr).
  set (t' := Avl (fill fr l') (wrap (sz t + size_max - 1))).
  assert (Er : erase t pos = Returns (addr_of wr, t')).
  { unfold erase, deref. rewrite Lp. cbn [option_map snd value_of fst].
    rewrite Fn. cbn [snd is_external eraser].
    rewrite Xl, Xr. rewrite Nx. cbn [snd replace value_of inorder_next].
    rewrite Ir, Lm. unfold w. cbn [value_of].
    replace (c1 ++ Frame R pos wv h l :: c ++ [fr])
      with ((c1 ++ Frame R pos wv h l :: c) ++ [fr])
      by (now rewrite <- app_assoc).
    rewrite remove_above_external_spec. reflexivity. }
  pose proof (erase_wf _ _ _ _ _ W Er) as W'.
  exists wa, wv, (addr_of wr), t'.
  split; [|split; [|split; [exact Er|split]]].
  - unfold next. rewrite Lp, Nx. reflexivity.
  - unfold deref.
    rewrite (locate_valid t D (c1 ++ Frame R pos (k, x) h l :: c ++ [fr], w)
               Vw : locate t wa = _). reflexivity.
  - unfold deref.
    assert (V' : plug (c ++ [fr]) (Internal pos l wv h (plug c1 wr))
                 = root t').
    { unfold t', l'. cbn [root]. rewrite !plug_app. reflexivity. }
    rewrite (locate_valid t' (wf_nodup _ _ W')
               (c ++ [fr], Internal pos l wv h (plug c1 wr)) V'
             : locate t' pos = _). reflexivity.
  - unfold deref, locate. rewrite locate_in_none; [reflexivity|].
    assert (Q : Permutation (addrs (root t))
                            (wa :: addr_of e :: addrs (root t'))).
    { unfold addrs, t', l'. cbn [root]. rewrite E, <- Pr.
      unfold fill, fr, w. cbn [hole f_self f_value f_height f_other cells].
      rewrite !cells_plug, ctx_before_app, ctx_after_app.
      cbn [ctx_before ctx_after hole f_other f_self f_value cells].
      rewrite cells_plug, (ctx_before_left _ F). cbn [cells].
      rewrite (cells_external _ Xe). cbn [app].
      perm_count. }
    apply (Permutation_NoDup Q) in D. inversion D as [|? ? Hw _]; subst.
    intros Hx. apply Hw. now right.
Qed.

(** ** Removal of a node with an external child *)

Lemma finder_located (t : avl) (brk : addr) (pos : iterator) (p : ptr) :
  wf t brk -> locate t pos = Some p -> pos <> end_ t ->
  is_internal (snd p) = true ->
  finder t (fst (value_of (snd p))) = Some p.
Proof.
  intros W Lp Hne Ip.
  destruct (located_below t brk pos p W Lp Hne Ip)
    as (A & P & c & a0 & v0 & h0 & r0 & Ec & E).
  assert (Hin : In (pos, value_of (snd p)) (inorder (data t))).
  { unfold data. rewrite E, <- A. exact (in_cells_inorder c (snd p) Ip). }
  destruct (value_of (snd p)) as [k x] eqn:Ev. cbn [fst].
  destruct (find_entry t brk k pos x W Hin) as (Fd & _ & _ & _).
  destruct (finder_rooted t k _ _ _ _ _ E) as (c' & m & Fm & Pm & _).
  unfold find in Fd. rewrite Fm in Fd. cbn [snd] in Fd. rewrite Fm.
  destruct (is_internal m) eqn:Im.
  - injection Fd as Am.
    assert (V : plug (fst (c' ++ [Frame L a0 v0 h0 r0], m))
                     (snd (c' ++ [Frame L a0 v0 h0 r0], m)) = root t).
    { cbn [fst snd]. rewrite plug_app, Pm, E. reflexivity. }
    pose proof (locate_valid t (wf_nodup _ _ W) _ V) as L2. cbn [snd] in L2.
    rewrite Am, Lp in L2. symmetry. exact L2.
  - exfalso. apply Hne. now injection Fd as ->.
Qed.

Lemma in_inorder_app (x : addr * value_type) (c1 c2 : list cell) :
  In x (map cell_entry (filter cell_internal (c1 ++ c2))) <->
  In x (map cell_entry (filter cell_internal c1)) \/
  In x (map cell_entry (filter cell_internal c2)).
Proof. rewrite inorder_app_cells. apply in_app_iff. Qed.

(** X20. Erasing through an iterator whose node has an external child
    unlinks that very node: afterwards the erased iterator designates no
    node of the tree, and every other iterator to an entry still reads the
    entry it read before. *)
Theorem iterators_survive_erase (t : avl) (brk : addr) (pos : iterator)
        (ctx : list frame) a (l : node) v h (r : node) :
  wf t brk ->
  locate t pos = Some (ctx, Internal a l v h r) -> pos <> end_ t ->
  is_external l = true \/ is_external r = true ->
  exists it t',
    erase t pos = Returns (it, t') /\ deref t' pos = None /\
    forall j e, j <> pos -> In (j, e) (inorder (data t)) ->
                deref t' j = Some e.
Proof.
  intros W Lp Hne Hx.
  destruct (located_below t brk pos _ W Lp Hne eq_refl)
    as (A & P & c & a0 & v0 & h0 & r0 & Ec & E).
  pose proof (finder_located t brk pos _ W Lp Hne eq_refl) as Fn.
  cbn [fst snd addr_of value_of] in A, P, Ec, E, Fn. subst a ctx.
  set (fr := Frame L a0 v0 h0 r0) in *.
  pose proof (wf_nodup _ _ W) as D.
  assert (Hd : forall t' it x,
             erase t pos = Returns (it, t') ->
             Permutation (addrs (root t)) (pos :: x :: addrs (root t')) ->
             (forall j e, j <> pos -> In (j, e) (inorder (data t)) ->
                          In (j, e) (inorder (data t'))) ->
             exists it t',
               erase t pos = Returns (it, t') /\ deref t' pos = None /\
               forall j e, j <> pos -> In (j, e) (inorder (data t)) ->
                           deref t' j = Some e).
  { intros t' it x Er Q Hk. exists it, t'. split; [exact Er|].
    pose proof (erase_wf _ _ _ _ _ W Er) as W'. split.
    - unfold deref, locate. rewrite locate_in_none; [reflexivity|].
      apply (Permutation_NoDup Q) in D. inversion D as [|? ? Hw _]; subst.
      intros Hi. apply Hw. now right.
    - intros j e Hj Hin. apply (Hk j e Hj) in Hin.
      destruct (entry_deref t' brk j e W' Hin) as (p & Lj & _ & Vj & _).
      unfold deref. rewrite Lj. cbn [option_map]. now rewrite Vj. }
  assert (Er0 : erase t pos =
                match eraser t (c ++ [fr], Internal pos l v h r) with
                | Some r1 => Returns r1
                | None => Undefined
                end).
  { unfold erase, deref. rewrite Lp. cbn [option_map snd value_of].
    rewrite Fn. reflexivity. }
  cbn [eraser] in Er0.
  destruct (is_external l) eqn:Xl.
  - rewrite remove_above_external_spec in Er0. cbn [f_other] in Er0.
    apply (Hd _ _ (addr_of l) Er0).
    + unfold addrs. cbn [root]. rewrite E. unfold fill, fr.
      cbn [hole f_self f_value f_height f_other cells].
      rewrite !cells_plug. cbn [cells]. rewrite (cells_external _ Xl).
      perm_count.
    + intros j e Hj. unfold data. cbn [root]. rewrite E. unfold fill, fr.
      cbn [hole f_self f_value f_height f_other]. unfold inorder.
      rewrite !cells_plug. cbn [cells]. rewrite (cells_external _ Xl).
      rewrite !in_inorder_app. cbn [app filter cell_internal snd map].
      rewrite ?in_inorder_app. cbn [In cell_entry fst].
      intros H. repeat (destruct H as [H|H]); auto; try contradiction;
        exfalso; apply Hj; inversion H; reflexivity.
  - destruct Hx as [Hx|Xr]; [discriminate|]. rewrite Xr in Er0.
    rewrite remove_above_external_spec in Er0. cbn [f_other] in Er0.
    apply (Hd _ _ (addr_of r) Er0).
    + unfold addrs. cbn [root]. rewrite E. unfold fill, fr.
      cbn [hole f_self f_value f_height f_other cells].
      rewrite !cells_plug. cbn [cells]. rewrite (cells_external _ Xr).
      perm_count.
    + intros j e Hj. unfold data. cbn [root]. rewrite E. unfold fill, fr.
      cbn [hole f_self f_value f_height f_other]. unfold inorder.
      rewrite !cells_plug. cbn [cells]. rewrite (cells_external _ Xr).
      rewrite !in_inorder_app. cbn [app filter cell_internal snd map].
      rewrite ?in_inorder_app. cbn [In cell_entry fst].
      intros H. repeat (destruct H as [H|H]); auto; try contradiction;
        exfalso; apply Hj; inversion H; reflexivity.
Qed.

(** ** Reading through [operator[]] *)

(** X21. [m[k]] on a stored key changes nothing: no node is allocated, the
    tree object is the same, and the reference returned designates the
    mapped value of the node that holds [k]. *)
Theorem subscript_reads (t : avl) (brk : addr) (k : Key) (a : addr)
        (v : Value) :
  wf t brk -> In (a, (k, v)) (inorder (data t)) ->
  subscript t k brk = Some (a, t, brk) /\ deref t a = Some (k, v).
Proof.
  intros W Hin.
  destruct (find_entry t brk k a v W Hin) as (Fd & Hne & Dr & _).
  split; [|exact Dr]. unfold subscript, inserter. cbn [fst].
  unfold find in Fd. destruct (finder t k) as [[ctx b]|]; [|discriminate].
  unfold is_internal in Fd. destruct (is_external b); cbn [negb] in Fd.
  - exfalso. apply Hne. now injection Fd as ->.
  - now injection Fd as ->.
Qed.

(** ** The properties above on the trees of the scenarios *)

Lemma dummy_wf : wf (fst dummy) (snd dummy).
Proof. exact (reachable_wf _ _ dummy_reachable). Qed.

Lemma dummy_grown :
  insert (fst dummy) (7%Z, "!"%string) (snd dummy)
  = Some (110, true, fst grown, snd grown).
Proof. vm_compute. reflexivity. Qed.

Lemma dummy_without_7 : ~ In 7%Z (keys (fst dummy)).
Proof.
  cbn. intros H. repeat (destruct H as [H|H]; [discriminate|]). exact H.
Qed.

Lemma find_spec_witness :
  wf (fst dummy) (snd dummy) /\
  find (fst dummy) 7%Z = Some (end_ (fst dummy)) /\
  find (fst dummy) 4%Z = Some 109.
Proof.
  split; [exact dummy_wf|]. split.
  - exact (proj1 (find_spec (fst dummy) (snd dummy) 7%Z dummy_wf)
             dummy_without_7).
  - refine (proj1 (proj2 (find_spec (fst dummy) (snd dummy) 4%Z dummy_wf)
                     109 "l"%string _)).
    cbn. do 3 right. left. reflexivity.
Defined.

Lemma count_spec_witness :
  wf (fst dummy) (snd dummy) /\
  count (fst dummy) 3%Z
  = Some (N.of_nat (count_occ Z.eq_dec (keys (fst dummy)) 3%Z)).
Proof.
  split; [exact dummy_wf|].
  exact (proj1 (count_spec (fst dummy) (snd dummy) 3%Z dummy_wf)).
Defined.

Lemma insert_then_find_witness :
  wf (fst dummy) (snd dummy) /\
  insert (fst dummy) (7%Z, "!"%string) (snd dummy)
  = Some (110, true, fst grown, snd grown) /\
  find (fst grown) 7%Z = Some 110.
Proof.
  split; [exact dummy_wf|]. split; [exact dummy_grown|].
  exact (proj1 (insert_then_find (fst dummy) (snd dummy) (7%Z, "!"%string)
                  110 true (fst grown) (snd grown) dummy_wf dummy_grown)).
Defined.

Lemma iterators_survive_insert_witness :
  wf (fst dummy) (snd dummy) /\
  insert (fst dummy) (7%Z, "!"%string) (snd dummy)
  = Some (110, true, fst grown, snd grown) /\
  In (103, (1%Z, "H"%string)) (inorder (data (fst dummy))) /\
  deref (fst grown) 103 = Some (1%Z, "H"%string).
Proof.
  assert (Hin : In (103, (1%Z, "H"%string)) (inorder (data (fst dummy))))
    by (cbn; left; reflexivity).
  split; [exact dummy_wf|]. split; [exact dummy_grown|].
  split; [exact Hin|].
  exact (proj2 (iterators_survive_insert (fst dummy) (snd dummy)
                  (7%Z, "!"%string) 110 true (fst grown) (snd grown)
                  dummy_wf dummy_grown 103 (1%Z, "H"%string) Hin)).
Defined.

Lemma erase_then_find_witness :
  wf (fst dummy) (snd dummy) /\ In 5%Z (keys (fst dummy)) /\
  exists t', erase_key (fst dummy) 5%Z = Some (1, t') /\
             find t' 5%Z = Some (end_ t').
Proof.
  assert (Hin : In 5%Z (keys (fst dummy))) by (cbn; tauto).
  split; [exact dummy_wf|]. split; [exact Hin|].
  destruct (erase_then_find (fst dummy) (snd dummy) 5%Z dummy_wf Hin)
    as (t' & E & F & _).
  exists t'. split; [exact E|exact F].
Defined.

Lemma erase_at_position_witness :
  wf (fst dummy) (snd dummy) /\
  deref (fst dummy) 104 = Some (5%Z, "o"%string) /\
  In 5%Z (keys (fst dummy)) /\
  exists it t', erase (fst dummy) 104 = Returns (it, t') /\
                erase_key (fst dummy) 5%Z = Some (1, t').
Proof.
  assert (Hin : In 5%Z (keys (fst dummy))) by (cbn; tauto).
  assert (D : deref (fst dummy) 104 = Some (5%Z, "o"%string))
    by reflexivity.
  split; [exact dummy_wf|]. split; [exact D|]. split; [exact Hin|].
  destruct (proj1 (erase_at_position (fst dummy) (snd dummy) 104 5%Z
                     "o"%string dummy_wf D) Hin) as (it & t' & E & K & _).
  exists it, t'. split; [exact E|exact K].
Defined.

Lemma erase_end_witness :
  reachable (fst dummy) (snd dummy) /\ ~ In 0%Z (keys (fst dummy)) /\
  erase (fst dummy) (end_ (fst dummy)) = Throws_out_of_range.
Proof.
  assert (Hout : ~ In 0%Z (keys (fst dummy))).
  { cbn. intros H. repeat (destruct H as [H|H]; [discriminate|]). exact H. }
  split; [exact dummy_reachable|]. split; [exact Hout|].
  exact (proj2 (erase_end (fst dummy) (snd dummy) dummy_reachable) Hout).
Defined.

Lemma assign_then_find_witness :
  wf (fst dummy) (snd dummy) /\
  subscript (fst dummy) 3%Z (snd dummy) = Some (101, fst dummy, snd dummy) /\
  deref (Avl (store 101 "L"%string (root (fst dummy))) (sz (fst dummy))) 101
  = Some (3%Z, "L"%string).
Proof.
  assert (S : subscript (fst dummy) 3%Z (snd dummy)
              = Some (101, fst dummy, snd dummy)) by reflexivity.
  split; [exact dummy_wf|]. split; [exact S|].
  exact (proj1 (proj2 (proj2 (assign_then_find (fst dummy) (snd dummy) 3%Z
                                "L"%string 101 (fst dummy) (snd dummy)
                                dummy_wf S)))).
Defined.

Lemma backward_iteration_witness :
  wf (fst dummy) (snd dummy) /\
  (length (entries (fst dummy)) < 6)%nat /\
  traverse_back 6 (fst dummy) = Some (rev (entries (fst dummy))).
Proof.
  assert (Hf : (length (entries (fst dummy)) < 6)%nat)
    by (cbn; apply Nat.lt_succ_diag_r).
  split; [exact dummy_wf|]. split; [exact Hf|].
  exact (backward_iteration (fst dummy) (snd dummy) 6 dummy_wf Hf).
Defined.

Lemma next_prev_inverse_witness :
  wf (fst dummy) (snd dummy) /\
  In (104, (5%Z, "o"%string)) (inorder (data (fst dummy))) /\
  exists j, next (fst dummy) 104 = Some j /\ prev (fst dummy) j = Some 104.
Proof.
  assert (Hin : In (104, (5%Z, "o"%string)) (inorder (data (fst dummy))))
    by (cbn; do 4 right; left; reflexivity).
  split; [exact dummy_wf|]. split; [exact Hin|].
  exact (proj1 (next_prev_inverse (fst dummy) (snd dummy) 104
                  (5%Z, "o"%string) dummy_wf Hin)).
Defined.

Lemma step_past_ends_witness :
  wf (fst dummy) (snd dummy) /\
  next (fst dummy) (end_ (fst dummy)) = None /\
  (begin (fst dummy) = Some 103 -> prev (fst dummy) 103 = None).
Proof.
  split; [exact dummy_wf|].
  pose proof (step_past_ends (fst dummy) (snd dummy) dummy_wf) as [H1 H2].
  split; [exact H1|exact (H2 103)].
Defined.

Lemma insert_keeps_avl_witness :
  rooted (fst dummy) /\ avl_inv (data (fst dummy)) /\
  in_memory (fst dummy) /\
  exists a b t' brk',
    insert (fst dummy) (7%Z, "!"%string) (snd dummy)
    = Some (a, b, t', brk') /\
    heights_ok (data t') = true /\ balanced (data t') = true.
Proof.
  assert (Hr : rooted (fst dummy)) by exact (wf_rooted _ _ dummy_wf).
  assert (Ha : avl_inv (data (fst dummy)))
    by (apply avl_inv_iff; split; reflexivity).
  split; [exact Hr|]. split; [exact Ha|]. split; [exact dummy_in_memory|].
  exact (insert_keeps_avl (fst dummy) (7%Z, "!"%string) (snd dummy)
           Hr Ha dummy_in_memory).
Defined.

Lemma rebalance_keeps_order_witness :
  rebalance (fst duo_path) (snd duo_path) = Some duo_rebalanced /\
  cells duo_rebalanced = cells (plug (fst duo_path) (snd duo_path)).
Proof.
  assert (H : rebalance (fst duo_path) (snd duo_path) = Some duo_rebalanced)
    by reflexivity.
  split; [exact H|].
  exact (proj1 (rebalance_keeps_order (fst duo_path) (snd duo_path)
                  duo_rebalanced H)).
Defined.

Lemma at_spec_witness :
  wf (fst dummy) (snd dummy) /\ ~ In 7%Z (keys (fst dummy)) /\
  at_ (fst dummy) 7%Z (snd dummy) = Throws_out_of_range.
Proof.
  split; [exact dummy_wf|]. split; [exact dummy_without_7|].
  exact (proj1 (at_spec (fst dummy) (snd dummy) 7%Z dummy_wf)
           dummy_without_7).
Defined.

Lemma is_balanced_spec_witness :
  5 < size_max /\ 3 < size_max /\
  is_balanced (Internal 0 (External 1 default_value 5) default_value 0
                          (External 2 default_value 3)) = Some false.
Proof.
  split; [reflexivity|]. split; [reflexivity|].
  exact (proj1 (is_balanced_spec 0 (External 1 default_value 5) default_value
                  0 (External 2 default_value 3) eq_refl eq_refl) eq_refl).
Defined.

Lemma extremes_witness :
  wf (fst dummy) (snd dummy) /\ entries (fst dummy) <> [] /\
  exists b e, begin (fst dummy) = Some b /\ deref (fst dummy) b = Some e /\
              hd_error (entries (fst dummy)) = Some e.
Proof.
  assert (Hne : entries (fst dummy) <> []) by discriminate.
  split; [exact dummy_wf|]. split; [exact Hne|].
  destruct (proj1 (extremes (fst dummy) (snd dummy) dummy_wf Hne))
    as (b & e & B & D & H & _).
  exists b, e. split; [exact B|]. split; [exact D|exact H].
Defined.

Lemma insert_then_erase_witness :
  wf (fst dummy) (snd dummy) /\ ~ In 7%Z (keys (fst dummy)) /\
  insert (fst dummy) (7%Z, "!"%string) (snd dummy)
  = Some (110, true, fst grown, snd grown) /\
  exists t'', erase_key (fst grown) 7%Z = Some (1, t'') /\
              entries t'' = entries (fst dummy).
Proof.
  split; [exact dummy_wf|]. split; [exact dummy_without_7|].
  split; [exact dummy_grown|].
  destruct (insert_then_erase (fst dummy) (snd dummy) (7%Z, "!"%string)
              110 true (fst grown) (snd grown) dummy_wf dummy_without_7
              dummy_grown) as (_ & t'' & E & Ee & _).
  exists t''. split; [exact E|exact Ee].
Defined.

Lemma erase_relocates_successor_witness :
  wf (fst dummy) (snd dummy) /\
  (exists p, locate (fst dummy) 106 = Some p /\
             value_of (snd p) = (2%Z, "e"%string)) /\
  106 <> end_ (fst dummy) /\
  exists j e it t',
    next (fst dummy) 106 = Some j /\ deref (fst dummy) j = Some e /\
    erase (fst dummy) 106 = Returns (it, t') /\
    deref t' 106 = Some e /\ deref t' j = None.
Proof.
  assert (Hne : 106 <> end_ (fst dummy)) by discriminate.
  split; [exact dummy_wf|].
  split; [eexists; split; reflexivity|]. split; [exact Hne|].
  exact (erase_relocates_successor (fst dummy) (snd dummy) 106 _ _ _ _ _ _
           dummy_wf eq_refl Hne eq_refl eq_refl).
Defined.

Lemma iterators_survive_erase_witness :
  wf (fst dummy) (snd dummy) /\
  (exists p, locate (fst dummy) 103 = Some p /\
             value_of (snd p) = (1%Z, "H"%string)) /\
  103 <> end_ (fst dummy) /\
  exists it t',
    erase (fst dummy) 103 = Returns (it, t') /\ deref t' 103 = None /\
    deref t' 106 = Some (2%Z, "e"%string).
Proof.
  assert (Hne : 103 <> end_ (fst dummy)) by discriminate.
  split; [exact dummy_wf|].
  split; [eexists; split; reflexivity|]. split; [exact Hne|].
  destruct (iterators_survive_erase (fst dummy) (snd dummy) 103 _ _ _ _ _ _
              dummy_wf eq_refl Hne (or_introl eq_refl))
    as (it & t' & E & D & K).
  exists it, t'. split; [exact E|]. split; [exact D|].
  apply K; [discriminate|]. cbn. right. left. reflexivity.
Defined.

Lemma subscript_reads_witness :
  wf (fst dummy) (snd dummy) /\
  In (101, (3%Z, "l"%string)) (inorder (data (fst dummy))) /\
  subscript (fst dummy) 3%Z (snd dummy) = Some (101, fst dummy, snd dummy).
Proof.
  assert (Hin : In (101, (3%Z, "l"%string)) (inorder (data (fst dummy))))
    by (cbn; do 2 right; left; reflexivity).
  split; [exact dummy_wf|]. split; [exact Hin|].
  exact (proj1 (subscript_reads (fst dummy) (snd dummy) 3%Z 101 "l"%string
                  dummy_wf Hin)).
Defined.
